(** * Episode recorder: a shallow embedding of the content script and of the
    service worker, and the properties of their specification.

    Part I embeds the code: JavaScript string and array primitives ([Js]),
    the content script [content.js] ([Content], [ContentRest]) and the
    service worker ([Background], [BackgroundRest]).  Part II states and
    proves the properties.

    Conventions of the embedding.
    - JavaScript strings are [string]s of 8-bit characters; whitespace is the
      ASCII whitespace of [Ascii.is_space] and [toLowerCase] acts on A-Z.
    - Pixel coordinates (doubles in the browser) are integers of [Z]; only
      their order and equality are used by the code.
    - [Array.prototype.sort] is the stable sort of ECMAScript, computed by a
      stable insertion sort.
    - Counters are natural numbers. *)

From Stdlib Require Import ZArith Lia Ascii String.
From stdpp Require Import gmap strings list fin_maps pretty sorting.

Open Scope string_scope.

(* ===================================================================== *)
(** * Part I.a  JavaScript primitives *)
(* ===================================================================== *)

Module Js.

(** [s.trimStart()] *)
Fixpoint trimStart (s : string) : string :=
  match s with
  | "" => ""
  | String c s' => if Ascii.is_space c then trimStart s' else s
  end.

(** [s.trimEnd()] *)
Fixpoint trimEnd (s : string) : string :=
  match s with
  | "" => ""
  | String c s' =>
      match trimEnd s' with
      | "" => if Ascii.is_space c then "" else String c ""
      | t => String c t
      end
  end.

(** [s.trim()] *)
Definition trim (s : string) : string := trimEnd (trimStart s).

(** [s.replace(/\s+/g, " ")]: every maximal run of whitespace becomes one
    space.  [in_ws] tells that the previous character belonged to a run. *)
Fixpoint collapse_go (in_ws : bool) (s : string) : string :=
  match s with
  | "" => ""
  | String c s' =>
      if Ascii.is_space c
      then (if in_ws then collapse_go true s'
            else String " "%char (collapse_go true s'))
      else String c (collapse_go false s')
  end.
Definition collapse_ws (s : string) : string := collapse_go false s.

(** [s.slice(0, n)] *)
Fixpoint slice0 (n : nat) (s : string) : string :=
  match n, s with
  | S n', String c s' => String c (slice0 n' s')
  | _, _ => ""
  end.

(** [s.toLowerCase()] on A-Z. *)
Definition lower_ascii (c : ascii) : ascii :=
  let n := nat_of_ascii c in
  if (65 <=? n)%nat && (n <=? 90)%nat then ascii_of_nat (n + 32) else c.
Fixpoint toLowerCase (s : string) : string :=
  match s with
  | "" => ""
  | String c s' => String (lower_ascii c) (toLowerCase s')
  end.

(** [s.includes(sub)] *)
Fixpoint includes (s sub : string) : bool :=
  String.prefix sub s ||
  match s with
  | "" => false
  | String _ s' => includes s' sub
  end.

(** [parts.join(sep)] *)
Fixpoint join (sep : string) (parts : list string) : string :=
  match parts with
  | [] => ""
  | [p] => p
  | p :: rest => p +:+ sep +:+ join sep rest
  end.

(** Truthiness of a string: [""] is falsy. *)
Definition truthy (s : string) : bool := negb (String.eqb s "").

(** [a || b] on strings. *)
Definition or_else (a b : string) : string := if truthy a then a else b.

(** [arr.sort(cmp)], stable: an element is placed before the first later
    element that does not compare below it. *)
Section Sort.
Context {A : Type} (cmp : A → A → Z).

Fixpoint sort_insert (a : A) (l : list A) : list A :=
  match l with
  | [] => [a]
  | b :: l' => if (cmp a b <=? 0)%Z then a :: l else b :: sort_insert a l'
  end.

Fixpoint sort (l : list A) : list A :=
  match l with
  | [] => []
  | a :: l' => sort_insert a (sort l')
  end.
End Sort.

End Js.

(* ===================================================================== *)
(** * Part I.b  The content script [content.js] *)
(* ===================================================================== *)

Module Content.
Import Js.

(** [el.getBoundingClientRect()] *)
Record rect := Rect { r_x : Z; r_y : Z; r_width : Z; r_height : Z }.
Definition r_top (r : rect) : Z := Z.min (r_y r) (r_y r + r_height r).
Definition r_bottom (r : rect) : Z := Z.max (r_y r) (r_y r + r_height r).
Definition r_left (r : rect) : Z := Z.min (r_x r) (r_x r + r_width r).
Definition r_right (r : rect) : Z := Z.max (r_x r) (r_x r + r_width r).

(** The part of a DOM node that the script reads.  [node_id] is the
    identity of the node ([===] on nodes compares it). *)
Record element := Element {
  node_id : nat;
  nodeType : nat;
  tagName : string;
  attributes : list (string * string);
  el_value : string;              (* [el.value], [""] when undefined *)
  innerText : string;
  textContent : string;
  isContentEditable : bool;
  el_disabled : bool;
  selected_option : option (string * string); (* value and text of
                                     [options[selectedIndex]] *)
  style_display : string;
  style_visibility : string;
  style_opacity : string;
  el_rect : rect
}.

(** [el.getAttribute(k)] *)
Fixpoint getAttribute_in (attrs : list (string * string)) (k : string)
  : option string :=
  match attrs with
  | [] => None
  | (k', v) :: rest => if String.eqb k' k then Some v
                       else getAttribute_in rest k
  end.
Definition getAttribute (el : element) (k : string) : option string :=
  getAttribute_in (attributes el) k.

(** [(el.getAttribute && el.getAttribute(k)) || ""] *)
Definition attr_or_empty (el : element) (k : string) : string :=
  default "" (getAttribute el k).

(** The document and window as the script queries them. *)
Record document := Document {
  getElementById : string → option element;
  label_for : string → option element; (* [querySelector('label[for=id]')] *)
  candidates : list element;  (* [querySelectorAll] of the interactable
                                 selector list, in document order *)
  innerWidth : Z;
  innerHeight : Z;
  location_href : string;
  doc_title : string;
  is_top_frame : bool;
  scroll_y : Z
}.

(** [(node.innerText || node.textContent || "").trim()] *)
Definition node_text (el : element) : string :=
  trim (or_else (innerText el) (textContent el)).

Definition isVisible (el : element) : bool :=
  if negb (nodeType el =? 1)%nat then false
  else if String.eqb (style_display el) "none"
          || String.eqb (style_visibility el) "hidden"
          || String.eqb (style_opacity el) "0" then false
  else if (r_width (el_rect el) <=? 0)%Z || (r_height (el_rect el) <=? 0)%Z
  then false
  else true.

Definition getLabelFromLabelFor (doc : document) (el : element)
  : option string :=
  match getAttribute el "id" with
  | None => None
  | Some id =>
      if negb (truthy id) then None
      else
        let t := match label_for doc id with
                 | Some lab => node_text lab
                 | None => ""
                 end in
        if truthy t then Some t else None
  end.

Definition getLabelFromAriaLabelledBy (doc : document) (el : element)
  : option string :=
  let ids := attr_or_empty el "aria-labelledby" in
  if negb (truthy ids) then None
  else
    let parts := String.words ids in
    let texts :=
      filter (λ t, Is_true (truthy t))
        (map (λ pid, match getElementById doc pid with
                     | Some node => node_text node
                     | None => ""
                     end) parts) in
    let r := trim (join " " texts) in
    if truthy r then Some r else None.

Definition is_text_input_tag (tag : string) : bool :=
  String.eqb tag "input" || String.eqb tag "textarea".

Definition accessibleName (doc : document) (el : element) : string :=
  if negb (nodeType el =? 1)%nat then ""
  else
    let aria := attr_or_empty el "aria-label" in
    if truthy (trim aria) then trim aria
    else match getLabelFromAriaLabelledBy doc el with
    | Some labelled => labelled
    | None =>
    match getLabelFromLabelFor doc el with
    | Some labFor => labFor
    | None =>
    let alt := attr_or_empty el "alt" in
    if truthy (trim alt) then trim alt
    else
    let title := attr_or_empty el "title" in
    if truthy (trim title) then trim title
    else
    let tag := toLowerCase (tagName el) in
    let from_input :=
      if is_text_input_tag tag then
        let ph := attr_or_empty el "placeholder" in
        if truthy (trim ph) then Some (trim ph)
        else
          let val := trim (el_value el) in
          if truthy val && (String.length val <=? 80)%nat then Some val
          else None
      else None in
    match from_input with
    | Some n => n
    | None =>
        let txt := collapse_ws (node_text el) in
        if truthy txt then slice0 120 txt else tag
    end
    end
    end.

Definition isSensitiveInput (el : element) : bool :=
  if negb (nodeType el =? 1)%nat then false
  else
    let tag := toLowerCase (tagName el) in
    if negb (is_text_input_tag tag) then false
    else
      let type := toLowerCase (attr_or_empty el "type") in
      if String.eqb type "password" then true
      else
        let name := toLowerCase (attr_or_empty el "name") in
        let ac := toLowerCase (attr_or_empty el "autocomplete") in
        if includes name "password" || includes name "passcode" then true
        else if includes ac "cc-" || includes ac "credit"
                || includes ac "card" then true
        else false.


(** [safeAttrs]: the allow-listed attributes that are present with a
    non-empty value of at most 200 characters. *)
Definition safe_keys : list string :=
  ["id"; "name"; "type"; "role"; "aria-label"; "aria-labelledby";
   "aria-describedby"; "placeholder"; "href"; "value"; "data-testid"].

Fixpoint safeAttrs_in (el : element) (keys : list string)
  : list (string * string) :=
  match keys with
  | [] => []
  | k :: rest =>
      match getAttribute el k with
      | Some v => if truthy v && (String.length v <=? 200)%nat
                  then (k, v) :: safeAttrs_in el rest
                  else safeAttrs_in el rest
      | None => safeAttrs_in el rest
      end
  end.
Definition safeAttrs (el : element) : list (string * string) :=
  if negb (nodeType el =? 1)%nat then [] else safeAttrs_in el safe_keys.

(** [x || undefined] on an attribute or a name. *)
Definition truthy_opt (s : string) : option string :=
  if truthy s then Some s else None.

(** [elementRef(el)].  The selectors, the nearby text and the viewport
    geometry need the DOM tree around [el]; they are not part of this
    embedding.  No property below reads them. *)
Record element_ref := ElementRef {
  ref_tag : string;
  ref_attrs : list (string * string);
  ref_name : option string;
  ref_role : option string;
  ref_bbox : rect
}.

Definition elementRef (doc : document) (el : element) : option element_ref :=
  if negb (nodeType el =? 1)%nat then None
  else Some {| ref_tag := toLowerCase (tagName el);
               ref_attrs := safeAttrs el;
               ref_name := truthy_opt (accessibleName doc el);
               ref_role := truthy_opt (attr_or_empty el "role");
               ref_bbox := el_rect el |}.

(** One entry of the scan ([items.push({...})]), without its selectors. *)
Record item := Item {
  it_tag : string;
  it_type : option string;
  it_role : option string;
  it_label : string;
  it_disabled : bool;
  it_bbox : rect;
  it_attrs : list (string * string);
  in_viewport : bool
}.

Definition inViewport (doc : document) (r : rect) : bool :=
  (0 <=? r_bottom r)%Z && (0 <=? r_right r)%Z
  && (r_top r <=? innerHeight doc)%Z && (r_left r <=? innerWidth doc)%Z.

Definition make_item (doc : document) (el : element) (name : string) : item :=
  {| it_tag := toLowerCase (tagName el);
     it_type := truthy_opt (attr_or_empty el "type");
     it_role := truthy_opt (attr_or_empty el "role");
     it_label := slice0 140 (trim name);
     it_disabled :=
       el_disabled el
       || bool_decide (getAttribute el "aria-disabled" = Some "true");
     it_bbox := el_rect el;
     it_attrs := safeAttrs el;
     in_viewport := inViewport doc (el_rect el) |}.

(** The test [!name || !name.trim()] of the scanning loop. *)
Definition name_filtered_out (name : string) : bool :=
  negb (truthy name) || negb (truthy (trim name)).

(** The scanning loop [for (const el of candidates) {...}]: [items] is
    the array built so far. *)
Fixpoint scan (doc : document) (limit : nat) (cands : list element)
  (items : list item) : list item :=
  match cands with
  | [] => items
  | el :: rest =>
      if negb (isVisible el) then scan doc limit rest items
      else
        let name := accessibleName doc el in
        if name_filtered_out name
        then scan doc limit rest items
        else
          let items' := (items ++ [make_item doc el name])%list in
          if (limit * 2 <=? length items')%nat then items'
          else scan doc limit rest items'
  end.

(** The comparator passed to [items.sort]. *)
Definition rank_cmp (a b : item) : Z :=
  if negb (Bool.eqb (in_viewport a) (in_viewport b))
  then (if in_viewport a then -1 else 1)
  else
    let dy := (r_y (it_bbox a) - r_y (it_bbox b))%Z in
    if (dy =? 0)%Z then (r_x (it_bbox a) - r_x (it_bbox b))%Z else dy.

(** [items.sort(...)] then [items.slice(0, limit)]. *)
Definition rank_and_trim (limit : nat) (items : list item) : list item :=
  take limit (Js.sort rank_cmp items).

(** The array [trimmed] of [listInteractables]. *)
Definition ranked (doc : document) (limit : nat) : list item :=
  rank_and_trim limit (scan doc limit (candidates doc) []).

Record dom_state := DomState {
  llm_representation : string;
  selector_map : list (string * item);
  elements_count : nat;
  interacted_element : option element_ref
}.

(** [trimmed.forEach((it, idx) => ...)], [idx] counting from [n]. *)
Fixpoint render (n : nat) (trimmed : list item)
  : list (string * item) * list string :=
  match trimmed with
  | [] => ([], [])
  | it :: rest =>
      let '(m, lines) := render (S n) rest in
      ((pretty (S n), it) :: m,
       ("[" +:+ pretty (S n) +:+ "] " +:+ it_label it) :: lines)
  end.

Definition newline : string := String (ascii_of_nat 10) "".

Definition listInteractables (doc : document) (limit : nat) : dom_state :=
  let trimmed := ranked doc limit in
  let '(m, lines) := render 0 trimmed in
  {| llm_representation := join newline lines;
     selector_map := m;
     elements_count := length trimmed;
     interacted_element := None |}.

Definition empty_dom_state : dom_state :=
  {| llm_representation := ""; selector_map := [];
     elements_count := 0; interacted_element := None |}.

(** [pageInfo()], the fields read from [window]; the page extents need
    the scroll sizes of the document and are left out. *)
Record page_info := PageInfo {
  viewport_width : Z;
  viewport_height : Z;
  pi_scroll_y : Z
}.

(** An observation as the content script builds it. *)
Record observation := Observation {
  obs_dom_state : dom_state;
  obs_url : option string;
  obs_title : option string;
  obs_frame_url : string;
  obs_is_top_frame : bool;
  obs_page_info : page_info
}.

Definition buildStateSummary (doc : document) (targetEl : option element)
  (captureDomState : bool) : observation :=
  let ds := if captureDomState then listInteractables doc 60
            else empty_dom_state in
  let ds' := match targetEl with
             | Some t =>
                 {| llm_representation := llm_representation ds;
                    selector_map := selector_map ds;
                    elements_count := elements_count ds;
                    interacted_element := elementRef doc t |}
             | None => ds
             end in
  {| obs_dom_state := ds';
     obs_url := if is_top_frame doc then Some (location_href doc) else None;
     obs_title := if is_top_frame doc then Some (doc_title doc) else None;
     obs_frame_url := location_href doc;
     obs_is_top_frame := is_top_frame doc;
     obs_page_info := {| viewport_width := innerWidth doc;
                         viewport_height := innerHeight doc;
                         pi_scroll_y := scroll_y doc |} |}.

(** The structured action of an event. *)
Inductive action :=
| ActClick (x y : Z) (target_ref : option element_ref)
| ActInput (target_ref : option element_ref) (value : string)
| ActSelect (target_ref : option element_ref) (option_value : option string)
| ActScroll (dx dy : Z)
| ActKey (keys : list string) (target_ref : option element_ref)
| ActUnknown.

Definition action_type (a : action) : string :=
  match a with
  | ActClick _ _ _ => "click"
  | ActInput _ _ => "input"
  | ActSelect _ _ => "select"
  | ActScroll _ _ => "scroll"
  | ActKey _ _ => "key"
  | ActUnknown => "unknown"
  end.

(** The payload of a [RECORDER_EVENT] message (without its clock
    readings [t_ms] and [t_iso]). *)
Record step_event := StepEvent {
  ev_action : action;
  ev_pre : observation
}.

(** A DOM event: its composed path and its target. *)
Record dom_event := DomEvent {
  composedPath : list element;
  ev_target : option element
}.

Definition resolveTargetFromEvent (e : dom_event) : option element :=
  match filter (λ n, nodeType n = 1%nat) (composedPath e) with
  | n :: _ => Some n
  | [] => match ev_target e with
          | Some t => if (nodeType t =? 1)%nat then Some t else None
          | None => None
          end
  end.

(** The module-level variables of the script. *)
Record capture_state := CaptureState {
  recorderEnabled : bool;
  focusEl : option element;
  focusPre : option observation
}.

Definition redacted : string := "<redacted>".

(** The value reported by [onChange] for a text-like target. *)
Definition input_value (target : element) : string :=
  if isSensitiveInput target then redacted
  else if isContentEditable target then slice0 2000 (trim (innerText target))
  else slice0 2000 (el_value target).

(** [onChange(e)]: the new module state and the message handed to
    [sendEvent], if any. *)
Definition onChange (doc : document) (st : capture_state) (e : dom_event)
  : capture_state * option step_event :=
  if negb (recorderEnabled st) then (st, None)
  else match resolveTargetFromEvent e with
  | None => (st, None)
  | Some target =>
      let tag := toLowerCase (tagName target) in
      let isSelect := String.eqb tag "select" in
      let isTextInput := is_text_input_tag tag || isContentEditable target in
      if negb isSelect && negb isTextInput then (st, None)
      else
        let same_focus :=
          match focusEl st with
          | Some f => (node_id f =? node_id target)%nat
          | None => false
          end in
        let pre :=
          match focusPre st with
          | Some p => if same_focus then p
                      else buildStateSummary doc (Some target) true
          | None => buildStateSummary doc (Some target) true
          end in
        let act :=
          if isSelect then
            ActSelect (elementRef doc target)
              (match selected_option target with
               | Some (v, t) => Some (trim (or_else v t))
               | None => None
               end)
          else ActInput (elementRef doc target) (input_value target) in
        ({| recorderEnabled := recorderEnabled st;
            focusEl := None; focusPre := None |},
         Some {| ev_action := act; ev_pre := pre |})
  end.

End Content.

(* ===================================================================== *)
(** * Part I.c  The service worker *)
(* ===================================================================== *)

Module Background.
Import Js Content.

(** ** Persisted data *)

(** The [options] object; a field is [None] when the key is absent. *)
Record options := Options {
  captureScreenshots : option bool;
  captureDomState : option bool
}.
Definition empty_options : options := Options None None.
Definition default_options : options := Options (Some true) (Some true).

(** [{...a, ...b}] *)
Definition merge_options (a b : options) : options :=
  {| captureScreenshots :=
       match captureScreenshots b with
       | Some v => Some v
       | None => captureScreenshots a
       end;
     captureDomState :=
       match captureDomState b with
       | Some v => Some v
       | None => captureDomState a
       end |}.

Definition flag (o : option bool) : bool := default false o.

Record settings := Settings {
  isRecording : bool;
  episodeId : option string;
  startedAt : option Z;
  stepCount : nat;
  lastMessage : string;
  options_of : options
}.

(** The object [{}] read as a settings record: every field is absent,
    which the code observes as [false], [null], [0] or [""] through
    [!st.isRecording], [!st.episodeId], [st.stepCount || 0]. *)
Definition blank_settings : settings :=
  {| isRecording := false; episodeId := None; startedAt := None;
     stepCount := 0; lastMessage := ""; options_of := empty_options |}.

(** [st?.episodeId] when truthy. *)
Definition active_episode (st : option settings) : option string :=
  match st with
  | Some s => match episodeId s with
              | Some e => if truthy e then Some e else None
              | None => None
              end
  | None => None
  end.

Record episode := Episode {
  episode_id : string;
  created_at : string;
  browser_name : string;
  origin_type : string;
  origin_build : string
}.

(** The result of [captureScreenshotForActiveWindow]. *)
Inductive shot := ShotOk (data_url b64 : string) | ShotErr (e : string).

Record screenshot_fields := ScreenshotFields {
  screenshot : option string;
  screenshot_data_url : option string;
  screenshot_error : option string
}.

Definition shot_fields (sh : shot) : screenshot_fields :=
  match sh with
  | ShotOk d b => {| screenshot := truthy_opt b;
                     screenshot_data_url := truthy_opt d;
                     screenshot_error := None |}
  | ShotErr e => {| screenshot := None; screenshot_data_url := None;
                    screenshot_error := truthy_opt e |}
  end.

(** What [chrome.tabs.get] answers; absent strings are [""]. *)
Record tab_info := TabInfo { tab_url : string; tab_title : string }.

(** A persisted observation ([pre] or [post] of a step). *)
Record bg_observation := BgObservation {
  bo_dom_state : dom_state;
  bo_url : string;
  bo_title : string;
  bo_tabs : list (string * string * string);
  bo_page_info : option page_info;
  bo_frame_url : option string;
  bo_is_top_frame : option bool;
  bo_shot : option screenshot_fields
}.

Record diff (A : Type) := Diff { before : A; after : A }.
Arguments Diff {A}.

Record derived := Derived {
  diff_url : option (diff string);
  diff_title : option (diff string);
  diff_scroll_y : option (diff (option Z))
}.

Record step_record := StepRecord {
  step_id : string;
  sr_step_number : nat;
  t_ms : option Z;
  t_iso : option string;
  pre : bg_observation;
  act : action;
  post : option bg_observation;
  derived_of : option derived
}.

(** A row of the [steps] object store. *)
Record row := Row {
  step_key : string;
  row_episode_id : string;
  step_number : nat;
  step : step_record
}.

(** [`${episodeId}:${stepNumber}`] *)
Definition make_key (episodeId : string) (stepNumber : nat) : string :=
  episodeId +:+ ":" +:+ pretty stepNumber.

(** The three object stores.  [settings] holds one record, under the
    key ["recorder_state"]. *)
Record store := Store {
  episodes : gmap string episode;
  steps : gmap string row;
  settings_of : option settings
}.

Definition empty_store : store :=
  {| episodes := ∅; steps := ∅; settings_of := None |}.

(** [rows.sort((a,b) => a.step_number - b.step_number)] *)
Definition step_cmp (a b : row) : Z :=
  (Z.of_nat (step_number a) - Z.of_nat (step_number b))%Z.

(** [idbGetStepsForEpisode]: the rows of the index [by_episode] for one
    episode, sorted by step number.  The browser lists the rows in key
    order before the sort; the embedding lists them in the order of
    [map_to_list]. *)
Definition rows_of (eid : string) (m : gmap string row) : list row :=
  filter (λ r, row_episode_id r = eid) (map_to_list m).*2.

Definition idbGetStepsForEpisode (eid : string) (m : gmap string row)
  : list row :=
  Js.sort step_cmp (rows_of eid m).

(** ** Scheduled work *)

(** The closure handed to [setTimeout] by the step handler: the
    variables [st.episodeId], [stepNumber], [tabId] and [pre] that it
    captures. *)
Record timer := Timer {
  tm_episode : string;
  tm_step : nat;
  tm_tab : nat;
  tm_pre : bg_observation;
  tm_delay : nat
}.

(** ** Asynchronous procedures

    An [async] function is a tree of its [await]ed operations: each
    node is one operation on the database or one call of a browser API,
    followed by the rest of the function.  Control may pass to another
    handler at every node. *)
Inductive proc (R : Type) : Type :=
| Ret (r : R)
| Throw (e : string)
| Await (k : proc R)
| GetSettings (k : option settings → proc R)
| SetSettings (v : settings) (k : proc R)
| PutEpisode (e : episode) (k : proc R)
| GetEpisode (id : string) (k : option episode → proc R)
| DeleteEpisode (id : string) (k : proc R)
| PutStep (r : row) (k : proc R)
| GetStep (key : string) (k : option row → proc R)
| DeleteStep (key : string) (k : proc R)
| GetStepsForEpisode (eid : string) (k : list row → proc R)
| SetTimeout (t : timer) (k : proc R).
Arguments Ret {R}.
Arguments Throw {R}.
Arguments Await {R}.
Arguments GetSettings {R}.
Arguments SetSettings {R}.
Arguments PutEpisode {R}.
Arguments GetEpisode {R}.
Arguments DeleteEpisode {R}.
Arguments PutStep {R}.
Arguments GetStep {R}.
Arguments DeleteStep {R}.
Arguments GetStepsForEpisode {R}.
Arguments SetTimeout {R}.

Fixpoint bind {R S : Type} (p : proc R) (f : R → proc S) : proc S :=
  match p with
  | Ret r => f r
  | Throw e => Throw e
  | Await k => Await (bind k f)
  | GetSettings k => GetSettings (λ x, bind (k x) f)
  | SetSettings v k => SetSettings v (bind k f)
  | PutEpisode e k => PutEpisode e (bind k f)
  | GetEpisode id k => GetEpisode id (λ x, bind (k x) f)
  | DeleteEpisode id k => DeleteEpisode id (bind k f)
  | PutStep r k => PutStep r (bind k f)
  | GetStep key k => GetStep key (λ x, bind (k x) f)
  | DeleteStep key k => DeleteStep key (bind k f)
  | GetStepsForEpisode eid k => GetStepsForEpisode eid (λ x, bind (k x) f)
  | SetTimeout t k => SetTimeout t (bind k f)
  end.

(** [.catch(e => ...)] *)
Fixpoint catch {R : Type} (p : proc R) (h : string → R) : proc R :=
  match p with
  | Ret r => Ret r
  | Throw e => Ret (h e)
  | Await k => Await (catch k h)
  | GetSettings k => GetSettings (λ x, catch (k x) h)
  | SetSettings v k => SetSettings v (catch k h)
  | PutEpisode e k => PutEpisode e (catch k h)
  | GetEpisode id k => GetEpisode id (λ x, catch (k x) h)
  | DeleteEpisode id k => DeleteEpisode id (catch k h)
  | PutStep r k => PutStep r (catch k h)
  | GetStep key k => GetStep key (λ x, catch (k x) h)
  | DeleteStep key k => DeleteStep key (catch k h)
  | GetStepsForEpisode eid k => GetStepsForEpisode eid (λ x, catch (k x) h)
  | SetTimeout t k => SetTimeout t (catch k h)
  end.

Notation "'let*' x ':=' p 'in' q" := (bind p (λ x, q))
  (at level 10, x name, p at level 100, q at level 200).
Notation "'do' p 'then' q" := (bind p (λ _, q))
  (at level 10, p at level 100, q at level 200).

Definition getSettings : proc (option settings) := GetSettings Ret.
Definition setSettings (v : settings) : proc unit := SetSettings v (Ret tt).
Definition await : proc unit := Await (Ret tt).

(** ** One operation, and a whole procedure without interruption *)

Definition set_settings (v : settings) (s : store) : store :=
  {| episodes := episodes s; steps := steps s; settings_of := Some v |}.
Definition set_steps (m : gmap string row) (s : store) : store :=
  {| episodes := episodes s; steps := m; settings_of := settings_of s |}.
Definition set_episodes (m : gmap string episode) (s : store) : store :=
  {| episodes := m; steps := steps s; settings_of := settings_of s |}.

(** The head operation of [p] on the store: the rest of the procedure,
    the new store and the timers it registered. *)
Definition step1 {R : Type} (p : proc R) (s : store)
  : proc R * store * list timer :=
  match p with
  | Ret r => (Ret r, s, [])
  | Throw e => (Throw e, s, [])
  | Await k => (k, s, [])
  | GetSettings k => (k (settings_of s), s, [])
  | SetSettings v k => (k, set_settings v s, [])
  | PutEpisode e k =>
      (k, set_episodes (<[episode_id e := e]> (episodes s)) s, [])
  | GetEpisode id k => (k (episodes s !! id), s, [])
  | DeleteEpisode id k => (k, set_episodes (delete id (episodes s)) s, [])
  | PutStep r k => (k, set_steps (<[step_key r := r]> (steps s)) s, [])
  | GetStep key k => (k (steps s !! key), s, [])
  | DeleteStep key k => (k, set_steps (delete key (steps s)) s, [])
  | GetStepsForEpisode eid k =>
      (k (idbGetStepsForEpisode eid (steps s)), s, [])
  | SetTimeout t k => (k, s, [t])
  end.

(** The outcome of a procedure: its value or the error thrown. *)
Definition result (R : Type) : Type := R + string.

Fixpoint run {R : Type} (p : proc R) (s : store)
  : result R * store * list timer :=
  match p with
  | Ret r => (inl r, s, [])
  | Throw e => (inr e, s, [])
  | Await k => run k s
  | GetSettings k => run (k (settings_of s)) s
  | SetSettings v k => run k (set_settings v s)
  | PutEpisode e k =>
      run k (set_episodes (<[episode_id e := e]> (episodes s)) s)
  | GetEpisode id k => run (k (episodes s !! id)) s
  | DeleteEpisode id k => run k (set_episodes (delete id (episodes s)) s)
  | PutStep r k => run k (set_steps (<[step_key r := r]> (steps s)) s)
  | GetStep key k => run (k (steps s !! key)) s
  | DeleteStep key k => run k (set_steps (delete key (steps s)) s)
  | GetStepsForEpisode eid k =>
      run (k (idbGetStepsForEpisode eid (steps s))) s
  | SetTimeout t k =>
      let '(r, s', ts) := run k s in (r, s', t :: ts)
  end.

Definition exec {R : Type} (p : proc R) (s : store) : store :=
  (run p s).1.2.

(** Handlers in flight at the same time: [sched] names, turn by turn,
    the handler that performs its next operation. *)
Fixpoint interleave {R : Type} (sched : list nat) (threads : list (proc R))
  (s : store) (ts : list timer) : list (proc R) * store * list timer :=
  match sched with
  | [] => (threads, s, ts)
  | i :: sched' =>
      match threads !! i with
      | Some p =>
          let '(p', s', new) := step1 p s in
          interleave sched' (<[i := p']> threads) s' (ts ++ new)%list
      | None => interleave sched' threads s ts
      end
  end.


(** ** The browser seen from one handler

    The answers of the browser APIs that a handler awaits. *)
Inductive inject_result := Injected | InjectFailed (error : string).
Inductive post_reply :=
| PostOk (o : observation)      (* [resp.post] *)
| PostNull                      (* no [post] in the reply *)
| PostErr (e : string).         (* [sendMessage] failed: [{error}] *)

Record env := Env {
  env_uuid : string;                 (* [crypto.randomUUID()] *)
  env_now_iso : string;              (* [new Date().toISOString()] *)
  env_now : Z;                       (* [Date.now()] *)
  env_active_tab : option nat;       (* [activeTab?.id] *)
  env_injected : inject_result;      (* [ensureContentScript] *)
  env_tab : string + tab_info;       (* [chrome.tabs.get], or its error *)
  env_shot : shot;                   (* [captureScreenshotForActiveWindow] *)
  env_post : post_reply              (* [requestPostState] *)
}.

(** ** Messages and responses *)

Record bg_event := BgEvent {
  be_action : option action;
  be_pre : option observation;
  be_t_ms : option Z;
  be_t_iso : option string
}.

Inductive message :=
| RECORDER_GET_STATUS
| RECORDER_START (opts : option options)
| RECORDER_STOP
| RECORDER_CLEAR
| RECORDER_SET_OPTIONS (opts : option options)
| RECORDER_EXPORT
| RECORDER_EVENT (sender_tab : option nat) (event : bg_event)
| OTHER_MESSAGE.

Record episode_out := EpisodeOut {
  out_episode_id : string;
  out_created_at : string;
  out_browser : string;
  out_origin : string * string;
  out_options : options;
  out_steps : list step_record
}.

Inductive response :=
| RSettings (st : option settings)          (* [st || {}] *)
| RStarted (episodeId : string) (stepCount : nat) (lastMessage : string)
| RNoEpisode
| RExport (ep : episode_out) (episodeId : string) (stepCount : nat)
    (lastMessage : string)
| RStep (stepNumber : nat)
| RError (error : string).

(** ** The functions of the service worker *)

Definition cleared_settings : settings :=
  {| isRecording := false; episodeId := None; startedAt := None;
     stepCount := 0; lastMessage := "Cleared.";
     options_of := default_options |}.

Definition initial_settings : settings :=
  {| isRecording := false; episodeId := None; startedAt := None;
     stepCount := 0; lastMessage := "";
     options_of := default_options |}.

(** [for (const s of steps) await idbDelete("steps", s.step_key)] *)
Fixpoint delete_each {R : Type} (rows : list row) (k : proc R) : proc R :=
  match rows with
  | [] => k
  | r :: rest => DeleteStep (step_key r) (delete_each rest k)
  end.

Definition clearAll : proc unit :=
  let* st := getSettings in
  do (match active_episode st with
      | Some e =>
          GetStepsForEpisode e (λ rows,
            delete_each rows (DeleteEpisode e (Ret tt)))
      | None => Ret tt
      end)
  then setSettings cleared_settings.

Definition init : proc unit :=
  let* st := getSettings in
  match st with
  | None => setSettings initial_settings
  | Some _ => Ret tt
  end.

Definition started_message : string := "Recording started.".
Definition inject_warning (error : string) : string :=
  "Recording started, but could not access the active tab: " +:+ error.

Definition startRecording (w : env) (opts : option options) : proc response :=
  let episodeId := env_uuid w in
  let episode := {| episode_id := episodeId; created_at := env_now_iso w;
                    browser_name := "chromium";
                    origin_type := "extension_mvp";
                    origin_build := "0.1.0" |} in
  PutEpisode episode (
  let* st := getSettings in
  let mergedOptions :=
    merge_options (from_option options_of empty_options st)
                  (default empty_options opts) in
  do await (* getActiveTab *) then
  let* lastMessage :=
    (match env_active_tab w with
     | Some (S _) =>
         do await (* ensureContentScript *) then
         Ret (match env_injected w with
              | Injected => started_message
              | InjectFailed error => inject_warning error
              end)
     | _ => Ret started_message
     end) in
  do setSettings {| isRecording := true; episodeId := Some episodeId;
                    startedAt := Some (env_now w); stepCount := 0;
                    lastMessage := lastMessage;
                    options_of := mergedOptions |} then
  do await (* setBadge *) then
  do await (* broadcastEnabled *) then
  Ret (RStarted episodeId 0 started_message)).

Definition with_message (st : settings) (rec : bool) (count : nat)
  (m : string) : settings :=
  {| isRecording := rec; episodeId := episodeId st;
     startedAt := startedAt st; stepCount := count; lastMessage := m;
     options_of := options_of st |}.

Definition stopRecording : proc (option settings) :=
  let* st := getSettings in
  match st with
  | Some s =>
      if negb (isRecording s) then Ret st
      else
        do setSettings (with_message s false (stepCount s)
                          "Recording stopped.") then
        do await (* setBadge *) then
        do await (* broadcastEnabled *) then
        getSettings
  | None => Ret None
  end.

Definition setOptions (opts : option options) : proc (option settings) :=
  let* st := getSettings in
  let merged := merge_options (from_option options_of empty_options st)
                              (default empty_options opts) in
  let s := default blank_settings st in
  do setSettings {| isRecording := isRecording s; episodeId := episodeId s;
                    startedAt := startedAt s; stepCount := stepCount s;
                    lastMessage := "Options updated.";
                    options_of := merged |} then
  getSettings.

(** [await chrome.tabs.get(tabId)] *)
Definition tabs_get (w : env) : proc tab_info :=
  Await (match env_tab w with
         | inr tab => Ret tab
         | inl e => Throw e
         end).

(** The screenshot fields of an observation, when the option is set. *)
Definition capture (w : env) (enabled : bool)
  : proc (option screenshot_fields) :=
  if enabled then Await (Ret (Some (shot_fields (env_shot w))))
  else Ret None.

Definition tabs_entry (tab : tab_info) (tabId : nat)
  : list (string * string * string) :=
  [(tab_url tab, tab_title tab, pretty tabId)].

(** [a || b || ""] where [b] may be undefined. *)
Definition first_truthy (a : string) (b : option string) : string :=
  or_else a (default "" b).

(** The observation persisted with a step: what the content script sent,
    overlaid with the tab's URL and title.  It serves for [pre] (with the
    settings read by the listener) and for [post] (with the settings read
    at fire time).  An absent [dom_state] is the object [{}] in the code;
    it is written as the zero form here. *)
Definition make_observation (st : settings) (tab : tab_info) (tabId : nat)
  (preFromContent : option observation)
  (sh : option screenshot_fields) : bg_observation :=
  {| bo_dom_state :=
       if flag (captureDomState (options_of st))
       then from_option obs_dom_state empty_dom_state preFromContent
       else empty_dom_state;
     bo_url := first_truthy (tab_url tab) (preFromContent ≫= obs_url);
     bo_title := first_truthy (tab_title tab) (preFromContent ≫= obs_title);
     bo_tabs := tabs_entry tab tabId;
     bo_page_info := obs_page_info <$> preFromContent;
     bo_frame_url := obs_frame_url <$> preFromContent;
     bo_is_top_frame := obs_is_top_frame <$> preFromContent;
     bo_shot := sh |}.

Definition reply_observation (r : post_reply) : option observation :=
  match r with
  | PostOk o => Some o
  | PostNull | PostErr _ => None
  end.

Definition scroll_of (o : bg_observation) : option Z :=
  pi_scroll_y <$> bo_page_info o.

Definition make_derived (pre post : bg_observation) : derived :=
  {| diff_url :=
       if String.eqb (bo_url pre) (bo_url post) then None
       else Some (Diff (bo_url pre) (bo_url post));
     diff_title :=
       if String.eqb (bo_title pre) (bo_title post) then None
       else Some (Diff (bo_title pre) (bo_title post));
     diff_scroll_y :=
       if bool_decide (scroll_of pre = scroll_of post) then None
       else Some (Diff (scroll_of pre) (scroll_of post)) |}.

(** [row.step.post = post; row.step.derived = derived] *)
Definition finalize (r : row) (po : bg_observation) (d : derived) : row :=
  {| step_key := step_key r; row_episode_id := row_episode_id r;
     step_number := step_number r;
     step := {| step_id := step_id (step r);
                sr_step_number := sr_step_number (step r);
                t_ms := t_ms (step r); t_iso := t_iso (step r);
                pre := pre (step r); act := act (step r);
                post := Some po; derived_of := Some d |} |}.

(** The callback of [setTimeout]: the delayed post-capture of a step. *)
Definition post_capture (w : env) (t : timer) : proc unit :=
  let* st3 := getSettings in
  match active_episode st3, st3 with
  | Some e, Some s3 =>
      if negb (String.eqb e (tm_episode t)) then Ret tt
      else
        do await (* requestPostState *) then
        let postFromContent := reply_observation (env_post w) in
        let* tab2 := tabs_get w in
        let* sh := capture w (flag (captureScreenshots (options_of s3))) in
        let po := make_observation s3 tab2 (tm_tab t) postFromContent sh in
        let d := make_derived (tm_pre t) po in
        let* r := GetStep (make_key (tm_episode t) (tm_step t)) Ret in
        match r with
        | None => Ret tt
        | Some r => PutStep (finalize r po d) (Ret tt)
        end
  | _, _ => Ret tt
  end.

Definition recorded_message (n : nat) : string :=
  "Recorded step " +:+ pretty n +:+ ".".

(** The branch of the listener for [RECORDER_EVENT] with kind "step";
    [st] is the settings record read at the top of the listener. *)
Definition onStepEvent (w : env) (st : option settings)
  (sender_tab : option nat) (event : bg_event) : proc (option response) :=
  match st, active_episode st, sender_tab with
  | Some s, Some e, Some (S _ as tabId) =>
      if negb (isRecording s) then Ret None
      else
        let stepNumber := stepCount s in
        let stepId := env_uuid w in
        let* tab := tabs_get w in
        let* sh := capture w (flag (captureScreenshots (options_of s))) in
        let pre := make_observation s tab tabId (be_pre event) sh in
        let action := default ActUnknown (be_action event) in
        let stepRecord :=
          {| step_id := stepId; sr_step_number := stepNumber;
             t_ms := be_t_ms event; t_iso := be_t_iso event;
             pre := pre; act := action;
             post := None; derived_of := None |} in
        PutStep {| step_key := make_key e stepNumber;
                   row_episode_id := e;
                   step_number := stepNumber;
                   step := stepRecord |} (
        let delayMs := if String.eqb (action_type action) "scroll"
                       then 200 else 500 in
        SetTimeout {| tm_episode := e; tm_step := stepNumber;
                      tm_tab := tabId; tm_pre := pre;
                      tm_delay := delayMs |} (
        do setSettings (with_message s (isRecording s) (stepNumber + 1)
                          (recorded_message stepNumber)) then
        Ret (Some (RStep stepNumber))))
  | _, _, _ => Ret None
  end.

Definition export : proc (option response) :=
  let* st2 := getSettings in
  match active_episode st2, st2 with
  | Some e, Some s2 =>
      let* ep := GetEpisode e Ret in
      let* rows := GetStepsForEpisode e Ret in
      match ep with
      | None => Throw "TypeError: Cannot read properties of null"
      | Some ep =>
          Ret (Some (RExport
                 {| out_episode_id := episode_id ep;
                    out_created_at := created_at ep;
                    out_browser := browser_name ep;
                    out_origin := (origin_type ep, origin_build ep);
                    out_options := options_of s2;
                    out_steps := map step rows |}
                 e (length rows) "Exported."))
      end
  | _, _ => Ret (Some RNoEpisode)
  end.

(** The listener of [chrome.runtime.onMessage]. *)
Definition onMessage (w : env) (msg : message) : proc (option response) :=
  catch
    (let* st := getSettings in
     match msg with
     | RECORDER_GET_STATUS => Ret (Some (RSettings st))
     | RECORDER_START opts =>
         let* resp := startRecording w opts in Ret (Some resp)
     | RECORDER_STOP =>
         let* resp := stopRecording in Ret (Some (RSettings resp))
     | RECORDER_CLEAR =>
         do clearAll then
         let* resp := getSettings in Ret (Some (RSettings resp))
     | RECORDER_SET_OPTIONS opts =>
         let* resp := setOptions opts in Ret (Some (RSettings resp))
     | RECORDER_EXPORT => export
     | RECORDER_EVENT sender_tab event => onStepEvent w st sender_tab event
     | OTHER_MESSAGE => Ret None
     end)
    (λ e, Some (RError e)).

(** The listener of [chrome.webNavigation.onCommitted]. *)
Definition onCommitted (frameId : nat) (url : string) : proc unit :=
  let* st := getSettings in
  match st with
  | Some s =>
      if negb (isRecording s) then Ret tt
      else if negb (frameId =? 0)%nat then Ret tt
      else setSettings (with_message s (isRecording s) (stepCount s)
                          ("Navigation: " +:+ url))
  | None => Ret tt
  end.

(** ** The worker as a whole, one handler at a time *)

Record system := System {
  sys_store : store;
  sys_timers : list timer
}.

Inductive occurrence :=
| Message (w : env) (msg : message)
| TimerFires (w : env) (i : nat)       (* the [i]-th pending timer *)
| Navigation (frameId : nat) (url : string).

Definition handle {R : Type} (p : proc R) (pending : list timer)
  (sys : system) : system :=
  let '(_, s', ts) := run p (sys_store sys) in
  {| sys_store := s'; sys_timers := (pending ++ ts)%list |}.

Definition occur (o : occurrence) (sys : system) : system :=
  match o with
  | Message w msg => handle (onMessage w msg) (sys_timers sys) sys
  | TimerFires w i =>
      match sys_timers sys !! i with
      | Some t => handle (post_capture w t) (delete i (sys_timers sys)) sys
      | None => sys
      end
  | Navigation frameId url =>
      handle (onCommitted frameId url) (sys_timers sys) sys
  end.

(** [crypto.randomUUID()] returns a non-empty identifier that no stored
    record carries. *)
Definition fresh_uuid (u : string) (s : store) : Prop :=
  u ≠ "" ∧ episodes s !! u = None
  ∧ ∀ k r, steps s !! k = Some r → row_episode_id r ≠ u.

Definition admissible (o : occurrence) (sys : system) : Prop :=
  match o with
  | Message w (RECORDER_START _) => fresh_uuid (env_uuid w) (sys_store sys)
  | _ => True
  end.

(** The worker after [await init()]. *)
Definition boot : system :=
  {| sys_store := exec init empty_store; sys_timers := [] |}.

Inductive reachable : system → Prop :=
| reach_boot : reachable boot
| reach_occur o sys :
    reachable sys → admissible o sys → reachable (occur o sys).

End Background.

(* ===================================================================== *)
(** * Part I.d  The rest of the content script *)
(* ===================================================================== *)

Module ContentRest.
Import Js Content.

(** The double quote character. *)
Definition dquote : string := String (ascii_of_nat 34) "".

(** ** Pointer and keyboard events *)

(** The fields of a pointer or keyboard event that the script reads. *)
Record ui_event := UiEvent {
  ui_dom : dom_event;
  button : nat;
  clientX : Z;
  clientY : Z;
  altKey : bool;
  ctrlKey : bool;
  metaKey : bool;
  shiftKey : bool;
  key : string;
  code : string
}.

(** [[e.altKey ? "Alt" : null, ...].filter(Boolean)] *)
Definition modifier (held : bool) (name : string) : list string :=
  if held then [name] else [].
Definition modifiers (e : ui_event) : list string :=
  (modifier (altKey e) "Alt" ++ modifier (ctrlKey e) "Ctrl"
   ++ modifier (metaKey e) "Meta" ++ modifier (shiftKey e) "Shift")%list.

Record pointer_info := PointerInfo {
  ptr_x : Z;
  ptr_y : Z;
  ptr_button : nat;
  ptr_modifiers : list string
}.

Record key_info := KeyInfo {
  ki_key : string;
  ki_code : string;
  ki_modifiers : list string
}.

Definition pointerInfo (e : ui_event) : pointer_info :=
  {| ptr_x := clientX e; ptr_y := clientY e; ptr_button := button e;
     ptr_modifiers := modifiers e |}.

Definition keyInfo (e : ui_event) : key_info :=
  {| ki_key := key e; ki_code := code e; ki_modifiers := modifiers e |}.

(** [["Enter","Escape","Tab"].includes(e.key)] *)
Definition shouldRecordKey (e : ui_event) : bool :=
  String.eqb (key e) "Enter" || String.eqb (key e) "Escape"
  || String.eqb (key e) "Tab".

(** The actions built by the pointer, key and scroll listeners, with all
    their fields. *)
Inductive sent_action :=
| SentClick (pointer : pointer_info) (target_ref : option element_ref)
| SentScroll (dx dy : Z)
| SentKey (keys : list string) (target_ref : option element_ref)
    (info : key_info).

Record sent_event := SentEvent {
  sent_action_of : sent_action;
  sent_pre : observation
}.

(** [sendEvent(payload)]: the message that leaves the page, if any. *)
Definition sendEvent {A : Type} (enabled : bool) (payload : A) : option A :=
  if enabled then Some payload else None.

Definition onPointerDown (doc : document) (st : capture_state) (e : ui_event)
  : option sent_event :=
  if negb (recorderEnabled st) then None
  else if negb (button e =? 0)%nat then None
  else match resolveTargetFromEvent (ui_dom e) with
  | None => None
  | Some target =>
      let pre := buildStateSummary doc (Some target) true in
      sendEvent (recorderEnabled st)
        {| sent_action_of := SentClick (pointerInfo e) (elementRef doc target);
           sent_pre := pre |}
  end.

Definition onKeyDown (doc : document) (st : capture_state) (e : ui_event)
  : option sent_event :=
  if negb (recorderEnabled st) then None
  else if negb (shouldRecordKey e) then None
  else
    let target := resolveTargetFromEvent (ui_dom e) in
    let pre := buildStateSummary doc target false in
    sendEvent (recorderEnabled st)
      {| sent_action_of :=
           SentKey [key e] (target ≫= elementRef doc) (keyInfo e);
         sent_pre := pre |}.

(** [onFocusIn(e)]: the eager snapshot for text-like targets. *)
Definition onFocusIn (doc : document) (st : capture_state) (e : dom_event)
  : capture_state :=
  if negb (recorderEnabled st) then st
  else match resolveTargetFromEvent e with
  | None => st
  | Some target =>
      let tag := toLowerCase (tagName target) in
      if negb (String.eqb tag "input" || String.eqb tag "textarea"
               || String.eqb tag "select")
         && negb (isContentEditable target)
      then st
      else {| recorderEnabled := recorderEnabled st;
              focusEl := Some target;
              focusPre := Some (buildStateSummary doc (Some target) true) |}
  end.

(** The listener of [chrome.runtime.onMessage] in the page. *)
Inductive page_message :=
| RECORDER_SET_ENABLED (enabled : bool)
| RECORDER_CAPTURE_POST (captureDomState : bool)
| OTHER_PAGE_MESSAGE.

Inductive page_reply :=
| ReplyEnabled (enabled : bool)
| ReplyPost (post : observation).

Definition onPageMessage (doc : document) (st : capture_state)
    (msg : page_message) : capture_state * option page_reply :=
  match msg with
  | RECORDER_SET_ENABLED enabled =>
      ({| recorderEnabled := enabled; focusEl := focusEl st;
          focusPre := focusPre st |}, Some (ReplyEnabled enabled))
  | RECORDER_CAPTURE_POST captureDomState =>
      (st, Some (ReplyPost (buildStateSummary doc None captureDomState)))
  | OTHER_PAGE_MESSAGE => (st, None)
  end.

(** ** Scrolling

    The variables [__scrollTimer] and [__lastScrollY], with the timeouts of
    the window that the scroll listener registered: identifier and
    deadline, in milliseconds.  [next_timer] is the identifier that
    [setTimeout] hands out next; identifiers are positive. *)
Record scroll_state := ScrollState {
  scrollTimer : option nat;
  lastScrollY : Z;
  timeouts : list (nat * nat);
  next_timer : nat
}.

(** [clearTimeout(id)] *)
Definition clearTimeout (id : nat) (table : list (nat * nat))
  : list (nat * nat) :=
  filter (λ p, p.1 ≠ id) table.

(** [onScroll(e)] at time [now] *)
Definition onScroll (enabled : bool) (now : nat) (st : scroll_state)
  : scroll_state :=
  if negb enabled then st
  else
    let table := match scrollTimer st with
                 | Some (S _ as id) => clearTimeout id (timeouts st)
                 | _ => timeouts st
                 end in
    {| scrollTimer := Some (next_timer st);
       lastScrollY := lastScrollY st;
       timeouts := (table ++ [(next_timer st, now + 250)])%list;
       next_timer := S (next_timer st) |}.

(** The callback of the timeout [id], run by the window at time [now]: it
    runs only when the timeout is registered and due.  [enabled] and [doc]
    are the flag and the page at that time. *)
Definition scrollFired (doc : document) (enabled : bool) (id now : nat)
    (st : scroll_state) : option (scroll_state * option sent_event) :=
  match list_find (λ p, p.1 = id) (timeouts st) with
  | Some (_, (_, deadline)) =>
      if (deadline <=? now)%nat then
        let dy := (scroll_y doc - lastScrollY st)%Z in
        let pre := buildStateSummary doc None false in
        Some ({| scrollTimer := scrollTimer st;
                 lastScrollY := scroll_y doc;
                 timeouts := clearTimeout id (timeouts st);
                 next_timer := next_timer st |},
              sendEvent enabled
                {| sent_action_of := SentScroll 0 dy; sent_pre := pre |})
      else None
  | None => None
  end.

(** ** Nearby text *)

(** [push(node)] *)
Definition nearby_of (node : option element) : list string :=
  match node with
  | Some n =>
      let t := collapse_ws (node_text n) in
      if truthy t then [slice0 200 t] else []
  | None => []
  end.

(** [Array.from(new Set(out))]: the first occurrence of each string, in
    order. *)
Fixpoint dedupe (seen : list string) (l : list string) : list string :=
  match l with
  | [] => []
  | x :: rest =>
      if bool_decide (x ∈ seen) then dedupe seen rest
      else x :: dedupe (x :: seen) rest
  end.

(** [nearbyText(el)]; [parent], [prev] and [next] are
    [el.parentElement], [el.previousElementSibling] and
    [el.nextElementSibling]. *)
Definition nearbyText (el : element) (parent prev next : option element)
  : list string :=
  take 5 (dedupe [] (nearby_of (Some el) ++ nearby_of parent
                     ++ nearby_of prev ++ nearby_of next)%list).

(** ** Positional selector *)

(** One level of the walk [cur = cur.parentElement]: what the walk reads
    of [cur].  A chain lists the element, its parent, and so on. *)
Record level := Level {
  lv_tag : string;            (* [cur.tagName] *)
  lv_id : string;             (* [cur.id], [""] when there is none *)
  lv_prev_same_tag : nat      (* previous siblings with the tag of [cur] *)
}.

Definition id_segment (cur : level) : string :=
  "//*[@id=" +:+ dquote +:+ lv_id cur +:+ dquote +:+ "]".

Definition index_segment (cur : level) : string :=
  "/" +:+ toLowerCase (lv_tag cur) +:+ "["
  +:+ pretty (S (lv_prev_same_tag cur)) +:+ "]".

(** [segments.join("")] *)
Definition concat_segments (segments : list string) : string :=
  foldr String.app "" segments.

(** The loop of [xpathSelector]; [room] is [8 - segments.length]. *)
Fixpoint xpath_walk (room : nat) (segments : list string)
    (chain : list level) : option string :=
  match room, chain with
  | S room', cur :: up =>
      if truthy (lv_id cur)
      then Some (concat_segments (id_segment cur :: segments))
      else xpath_walk room' (index_segment cur :: segments) up
  | _, _ =>
      match segments with
      | [] => None
      | _ => Some (concat_segments segments)
      end
  end.

(** [xpathSelector(el)], on the chain of [el]; the empty chain stands for
    a node that is not an element. *)
Definition xpathSelector (chain : list level) : option string :=
  xpath_walk 8 [] chain.

(** ** Page geometry *)

(** What [pageInfo] reads of the document, the body and the window. *)
Record page_metrics := PageMetrics {
  doc_scrollWidth : Z;
  doc_scrollHeight : Z;
  doc_clientWidth : Z;
  doc_clientHeight : Z;
  body_scroll : option (Z * Z);   (* [scrollWidth], [scrollHeight] *)
  win_innerWidth : Z;
  win_innerHeight : Z;
  win_scrollX : Z;
  win_scrollY : Z
}.

Record page_geometry := PageGeometry {
  pg_viewport_width : Z;
  pg_viewport_height : Z;
  page_width : Z;
  page_height : Z;
  pg_scroll_x : Z;
  pg_scroll_y : Z;
  pixels_above : Z;
  pixels_below : Z;
  pixels_left : Z;
  pixels_right : Z
}.

Definition pageInfo (m : page_metrics) : page_geometry :=
  let pageW := Z.max (Z.max (doc_scrollWidth m)
                        (from_option fst 0%Z (body_scroll m)))
                     (doc_clientWidth m) in
  let pageH := Z.max (Z.max (doc_scrollHeight m)
                        (from_option snd 0%Z (body_scroll m)))
                     (doc_clientHeight m) in
  let vw := win_innerWidth m in
  let vh := win_innerHeight m in
  let sx := win_scrollX m in
  let sy := win_scrollY m in
  {| pg_viewport_width := vw; pg_viewport_height := vh;
     page_width := pageW; page_height := pageH;
     pg_scroll_x := sx; pg_scroll_y := sy;
     pixels_above := sy;
     pixels_below := Z.max 0 (pageH - (sy + vh));
     pixels_left := sx;
     pixels_right := Z.max 0 (pageW - (sx + vw)) |}.

End ContentRest.

(* ===================================================================== *)
(** * Part I.e  The screenshot of the service worker *)
(* ===================================================================== *)

Module BackgroundRest.
Import Js Content Background.

(** The text after the first comma of [s], if [s] has a comma. *)
Fixpoint after_comma (s : string) : option string :=
  match s with
  | "" => None
  | String c s' => if Ascii.eqb c "," then Some s' else after_comma s'
  end.

(** The text of [s] before its first comma. *)
Fixpoint before_comma (s : string) : string :=
  match s with
  | "" => ""
  | String c s' => if Ascii.eqb c "," then "" else String c (before_comma s')
  end.

(** [dataUrl.includes(",") ? dataUrl.split(",", 2)[1] : dataUrl] *)
Definition strip_prefix (dataUrl : string) : string :=
  match after_comma dataUrl with
  | Some rest => before_comma rest
  | None => dataUrl
  end.

(** [captureScreenshotForActiveWindow], on the answer of
    [chrome.tabs.captureVisibleTab]: a data URL or an error. *)
Definition captureScreenshotForActiveWindow (answer : string + string) : shot :=
  match answer with
  | inr dataUrl => ShotOk dataUrl (strip_prefix dataUrl)
  | inl e => ShotErr e
  end.

End BackgroundRest.

(* ===================================================================== *)
(** * Part II.a  Facts about the JavaScript primitives *)
(* ===================================================================== *)

Module JsFacts.
Import Js.

Lemma truthy_true (s : string) : truthy s = true ↔ s ≠ "".
Proof.
  unfold truthy. destruct (String.eqb_spec s ""); simpl; split; congruence.
Qed.

Lemma truthy_false (s : string) : truthy s = false ↔ s = "".
Proof.
  unfold truthy. destruct (String.eqb_spec s ""); simpl; split; congruence.
Qed.

(** A string that starts with a character that is not whitespace. *)
Definition solid (s : string) : Prop :=
  ∃ c r, s = String c r ∧ Ascii.is_space c = false.

Lemma solid_nonempty s : solid s → s ≠ "".
Proof. intros (c & r & -> & _). discriminate. Qed.

Lemma trimStart_shape s : trimStart s = "" ∨ solid (trimStart s).
Proof.
  induction s as [|c s IH]; simpl; [by left|].
  destruct (Ascii.is_space c) eqn:Hc; [exact IH|].
  right. by exists c, s.
Qed.

Lemma trimStart_solid s : solid s → trimStart s = s.
Proof. intros (c & r & -> & Hc). simpl. by rewrite Hc. Qed.

Lemma trimEnd_solid s : solid s → solid (trimEnd s).
Proof.
  intros (c & r & -> & Hc). simpl.
  destruct (trimEnd r) as [|c' t]; rewrite ?Hc; by eexists _, _.
Qed.

Lemma trim_shape s : trim s = "" ∨ solid (trim s).
Proof.
  unfold trim. destruct (trimStart_shape s) as [-> | Hs]; [by left|].
  right. by apply trimEnd_solid.
Qed.

Lemma trim_solid s : solid s → solid (trim s).
Proof.
  intros Hs. unfold trim. rewrite trimStart_solid by done.
  by apply trimEnd_solid.
Qed.

Lemma truthy_trim_solid s : truthy (trim s) = true → solid (trim s).
Proof.
  intros H%truthy_true. by destruct (trim_shape s).
Qed.

Lemma collapse_solid s : solid s → solid (collapse_ws s).
Proof.
  intros (c & r & -> & Hc). unfold collapse_ws. simpl. rewrite Hc.
  by eexists _, _.
Qed.

Lemma slice0_solid n s : solid s → solid (slice0 (S n) s).
Proof. intros (c & r & -> & Hc). simpl. by eexists _, _. Qed.

Lemma lower_ascii_space c : Ascii.is_space (lower_ascii c) = Ascii.is_space c.
Proof. by destruct c as [[] [] [] [] [] [] [] []]. Qed.

Lemma toLowerCase_solid s : solid s → solid (toLowerCase s).
Proof.
  intros (c & r & -> & Hc). simpl. eexists _, _. split; [done|].
  by rewrite lower_ascii_space.
Qed.

Lemma solid_truthy s : solid s → truthy s = true.
Proof. intros H. by apply truthy_true, solid_nonempty. Qed.

Lemma slice0_truthy n s : truthy (slice0 (S n) s) = truthy s.
Proof. by destruct s. Qed.

(** ** The stable sort *)
Section SortFacts.
Context {A : Type} (cmp : A → A → Z).
Let le (a b : A) : Prop := (cmp a b <= 0)%Z.
Hypothesis cmp_total : ∀ a b, le a b ∨ le b a.
Hypothesis cmp_trans : ∀ a b c, le a b → le b c → le a c.

Lemma sort_insert_perm a l : sort_insert cmp a l ≡ₚ a :: l.
Proof.
  induction l as [|b l IH]; simpl; [done|].
  destruct (cmp a b <=? 0)%Z; [done|].
  rewrite IH. apply Permutation_swap.
Qed.

Lemma sort_perm l : Js.sort cmp l ≡ₚ l.
Proof.
  induction l as [|a l IH]; simpl; [done|].
  by rewrite sort_insert_perm, IH.
Qed.

Lemma sort_insert_sorted a l :
  StronglySorted le l → StronglySorted le (sort_insert cmp a l).
Proof using cmp_total cmp_trans.
  induction l as [|b l IH]; intros Hs; simpl.
  { repeat constructor. }
  apply StronglySorted_inv in Hs as [Hl Hb].
  destruct (Z.leb_spec (cmp a b) 0) as [Hab|Hab].
  - constructor; [by constructor|].
    constructor; [done|].
    eapply Forall_impl; [exact Hb|]. intros c Hc. by eapply cmp_trans.
  - constructor; [by apply IH|].
    rewrite sort_insert_perm. constructor; [|done].
    destruct (cmp_total a b) as [H|H]; [unfold le in H; lia|done].
Qed.

Lemma sort_sorted l : StronglySorted le (Js.sort cmp l).
Proof using cmp_total cmp_trans.
  induction l as [|a l IH]; simpl; [constructor|].
  by apply sort_insert_sorted.
Qed.
End SortFacts.

Lemma StronglySorted_take {A} (R : relation A) n l :
  StronglySorted R l → StronglySorted R (take n l).
Proof.
  revert n. induction l as [|a l IH]; intros [|n] Hs; simpl;
    try constructor.
  - apply IH. by apply StronglySorted_inv in Hs as [? _].
  - apply StronglySorted_inv in Hs as [_ Ha].
    rewrite Forall_forall in Ha |- *. intros x Hx. apply Ha.
    apply elem_of_take in Hx as (i & Hi & _).
    by eapply list_elem_of_lookup_2.
Qed.

Lemma StronglySorted_lookup {A} (R : relation A) l i j a b :
  StronglySorted R l → l !! i = Some a → l !! j = Some b → i < j → R a b.
Proof.
  intros Hs. revert i j. induction Hs as [|x l Hs IH Hx]; intros i j.
  { by rewrite lookup_nil. }
  destruct i as [|i], j as [|j]; simpl; intros Hi Hj Hlt; try lia.
  - injection Hi as ->. rewrite Forall_forall in Hx. apply Hx.
    by eapply list_elem_of_lookup_2.
  - eapply IH; eauto with lia.
Qed.

End JsFacts.

(* ===================================================================== *)
(** * Part II.b  Properties of the content script *)
(* ===================================================================== *)

Module ContentProps.
Import Js JsFacts Content.

(** ** The accessible name, as the specification words it

    The candidates in their order of precedence; the first one that is
    not empty is the name. *)

Definition referenced_text (doc : document) (pid : string) : string :=
  match getElementById doc pid with
  | Some node => node_text node
  | None => ""
  end.

(** The labels referenced through the id list, joined with spaces. *)
Definition labelledby_candidate (doc : document) (el : element) : string :=
  trim (join " "
          (filter (λ t, t ≠ "")
             (map (referenced_text doc)
                (String.words (attr_or_empty el "aria-labelledby"))))).

(** The text of the label associated through [for]. *)
Definition labelfor_candidate (doc : document) (el : element) : string :=
  match getAttribute el "id" with
  | Some id =>
      if decide (id = "") then ""
      else match label_for doc id with
           | Some lab => node_text lab
           | None => ""
           end
  | None => ""
  end.

Definition text_input_like (el : element) : bool :=
  bool_decide (toLowerCase (tagName el) = "input"
               ∨ toLowerCase (tagName el) = "textarea").

Definition placeholder_candidate (el : element) : string :=
  if text_input_like el then trim (attr_or_empty el "placeholder") else "".

Definition value_candidate (el : element) : string :=
  if text_input_like el
  then (if decide (String.length (trim (el_value el)) ≤ 80)%nat
        then trim (el_value el) else "")
  else "".

Definition text_candidate (el : element) : string :=
  slice0 120 (collapse_ws (node_text el)).

Definition name_candidates (doc : document) (el : element) : list string :=
  [ trim (attr_or_empty el "aria-label");
    labelledby_candidate doc el;
    labelfor_candidate doc el;
    trim (attr_or_empty el "alt");
    trim (attr_or_empty el "title");
    placeholder_candidate el;
    value_candidate el;
    text_candidate el;
    toLowerCase (tagName el) ].

Fixpoint first_non_empty (l : list string) : string :=
  match l with
  | [] => ""
  | x :: rest => if decide (x = "") then first_non_empty rest else x
  end.

Definition accessibleName_spec (doc : document) (el : element) : string :=
  first_non_empty (name_candidates doc el).

(** ** Sensitive fields, as the specification words them *)

Definition is_input_or_textarea (el : element) : Prop :=
  nodeType el = 1
  ∧ (toLowerCase (tagName el) = "input"
     ∨ toLowerCase (tagName el) = "textarea").

(** The criteria on the attributes [type], [name] and [autocomplete]. *)
Definition sensitive_attrs (type name ac : string) : Prop :=
  type = "password"
  ∨ includes name "password" = true ∨ includes name "passcode" = true
  ∨ includes ac "cc-" = true ∨ includes ac "credit" = true
  ∨ includes ac "card" = true.

(** The criteria read on the attributes as they are written. *)
Definition sensitive_as_written (el : element) : Prop :=
  is_input_or_textarea el
  ∧ sensitive_attrs (attr_or_empty el "type") (attr_or_empty el "name")
                    (attr_or_empty el "autocomplete").

(** The criteria read without regard to letter case. *)
Definition sensitive_any_case (el : element) : Prop :=
  is_input_or_textarea el
  ∧ sensitive_attrs (toLowerCase (attr_or_empty el "type"))
                    (toLowerCase (attr_or_empty el "name"))
                    (toLowerCase (attr_or_empty el "autocomplete")).

(** ** The ranking, as the specification words it *)

Definition top_of (a : item) : Z := r_y (it_bbox a).
Definition left_of (a : item) : Z := r_x (it_bbox a).

(** [a] may stand before [b]: in-viewport before out-of-viewport, then
    ascending top, then ascending left. *)
Definition ranks_before (a b : item) : Prop :=
  (in_viewport a = true ∧ in_viewport b = false)
  ∨ (in_viewport a = in_viewport b
     ∧ ((top_of a < top_of b)%Z
        ∨ (top_of a = top_of b ∧ (left_of a <= left_of b)%Z))).

(** The same document with another document order of its candidates. *)
Definition with_candidates (doc : document) (cands : list element)
  : document :=
  {| getElementById := getElementById doc; label_for := label_for doc;
     candidates := cands;
     innerWidth := innerWidth doc; innerHeight := innerHeight doc;
     location_href := location_href doc; doc_title := doc_title doc;
     is_top_frame := is_top_frame doc; scroll_y := scroll_y doc |}.

(** What the scan records for a candidate. *)
Definition item_of (doc : document) (el : element) : item :=
  make_item doc el (accessibleName doc el).

(** ** Auxiliary facts *)

Lemma first_non_empty_cons x rest :
  first_non_empty (x :: rest) = if truthy x then x else first_non_empty rest.
Proof.
  simpl. destruct (decide (x = "")) as [->|Hx]; [done|].
  apply truthy_true in Hx. by rewrite Hx.
Qed.

Lemma self_or_empty s :
  (if truthy s then s else first_non_empty []) = s.
Proof. simpl. destruct (truthy s) eqn:H; [done|]. by apply truthy_false in H. Qed.

Lemma labelledby_agrees doc el :
  getLabelFromAriaLabelledBy doc el = truthy_opt (labelledby_candidate doc el).
Proof.
  unfold getLabelFromAriaLabelledBy, labelledby_candidate, truthy_opt.
  destruct (truthy (attr_or_empty el "aria-labelledby")) eqn:Hids; simpl.
  - erewrite (list_filter_iff (λ t, Is_true (truthy t)) (λ t, t ≠ "")).
    + done.
    + intros t. rewrite Is_true_true. apply truthy_true.
  - apply truthy_false in Hids. rewrite Hids. done.
Qed.

Lemma labelfor_agrees doc el :
  getLabelFromLabelFor doc el = truthy_opt (labelfor_candidate doc el).
Proof.
  unfold getLabelFromLabelFor, labelfor_candidate, truthy_opt.
  destruct (getAttribute el "id") as [id|]; [|done].
  destruct (decide (id = "")) as [->|Hid]; [done|].
  apply truthy_true in Hid. by rewrite Hid.
Qed.

Lemma text_input_like_agrees el :
  is_text_input_tag (toLowerCase (tagName el)) = text_input_like el.
Proof.
  unfold is_text_input_tag, text_input_like.
  destruct (String.eqb_spec (toLowerCase (tagName el)) "input") as [->|H1];
    [done|].
  destruct (String.eqb_spec (toLowerCase (tagName el)) "textarea")
    as [->|H2]; [done|].
  simpl. symmetry. apply bool_decide_eq_false. tauto.
Qed.

(** C7.  For every element the accessible name computed by the script is
    the first non-empty candidate in the order: explicit label
    attribute, labels referenced through the id list joined with spaces,
    text of the associated label-for element, alt, title, for input and
    textarea the placeholder then the current value when it has at most
    80 characters, the rendered text trimmed, collapsed and cut at 120
    characters, and last the tag name. *)
Theorem C7_accessible_name_order (doc : document) (el : element) :
  nodeType el = 1 →
  accessibleName doc el = accessibleName_spec doc el.
Proof.
  intros Hel.
  unfold accessibleName, accessibleName_spec, name_candidates.
  rewrite Hel. simpl negb. cbv iota.
  rewrite !first_non_empty_cons.
  destruct (truthy (trim (attr_or_empty el "aria-label"))); [done|].
  rewrite labelledby_agrees. unfold truthy_opt at 1.
  destruct (truthy (labelledby_candidate doc el)); [done|].
  rewrite labelfor_agrees. unfold truthy_opt at 1.
  destruct (truthy (labelfor_candidate doc el)); [done|].
  destruct (truthy (trim (attr_or_empty el "alt"))); [done|].
  destruct (truthy (trim (attr_or_empty el "title"))); [done|].
  rewrite text_input_like_agrees.
  unfold placeholder_candidate, value_candidate, text_candidate.
  destruct (text_input_like el).
  - destruct (truthy (trim (attr_or_empty el "placeholder"))); [done|].
    destruct (decide (String.length (trim (el_value el)) ≤ 80)%nat) as [Hle|Hgt].
    + apply Nat.leb_le in Hle. rewrite Hle, andb_true_r.
      destruct (truthy (trim (el_value el))); [done|].
      rewrite slice0_truthy.
      by rewrite self_or_empty.
    + apply Nat.leb_nle in Hgt. rewrite Hgt, andb_false_r.
      simpl (truthy ""). cbv iota.
      rewrite slice0_truthy.
      by rewrite self_or_empty.
  - simpl (truthy ""). cbv iota.
    rewrite slice0_truthy.
    by rewrite self_or_empty.
Qed.

(** ** The name is never empty *)

Lemma isVisible_element el : isVisible el = true → nodeType el = 1.
Proof.
  unfold isVisible. destruct (Nat.eqb_spec (nodeType el) 1); [done|].
  simpl. discriminate.
Qed.

Lemma truthy_opt_Some s t : truthy_opt s = Some t → t = s ∧ truthy s = true.
Proof. unfold truthy_opt. destruct (truthy s); naive_solver. Qed.

Lemma labelfor_shape doc el :
  labelfor_candidate doc el = "" ∨ solid (labelfor_candidate doc el).
Proof.
  unfold labelfor_candidate.
  destruct (getAttribute el "id") as [id|]; [|by left].
  destruct (decide (id = "")); [by left|].
  destruct (label_for doc id); [apply trim_shape|by left].
Qed.

Lemma accessibleName_solid doc el :
  nodeType el = 1 → solid (tagName el) → solid (accessibleName doc el).
Proof.
  intros Hel Htag. unfold accessibleName. rewrite Hel. simpl negb. cbv iota.
  destruct (truthy (trim (attr_or_empty el "aria-label"))) eqn:H1;
    [by apply truthy_trim_solid|].
  rewrite labelledby_agrees.
  destruct (truthy_opt (labelledby_candidate doc el)) as [l|] eqn:H2.
  { apply truthy_opt_Some in H2 as [-> H2]. by apply truthy_trim_solid. }
  rewrite labelfor_agrees.
  destruct (truthy_opt (labelfor_candidate doc el)) as [l|] eqn:H3.
  { apply truthy_opt_Some in H3 as [-> H3%truthy_true].
    by destruct (labelfor_shape doc el). }
  destruct (truthy (trim (attr_or_empty el "alt"))) eqn:H4;
    [by apply truthy_trim_solid|].
  destruct (truthy (trim (attr_or_empty el "title"))) eqn:H5;
    [by apply truthy_trim_solid|].
  assert (solid (if truthy (collapse_ws (node_text el))
                 then slice0 120 (collapse_ws (node_text el))
                 else toLowerCase (tagName el))) as Hlast.
  { destruct (truthy (collapse_ws (node_text el))) eqn:H6;
      [|by apply toLowerCase_solid].
    apply slice0_solid, collapse_solid.
    destruct (trim_shape (or_else (innerText el) (textContent el)))
      as [He|Hs]; [|done].
    unfold node_text in H6. by rewrite He in H6. }
  destruct (is_text_input_tag (toLowerCase (tagName el))); [|done].
  destruct (truthy (trim (attr_or_empty el "placeholder"))) eqn:H7;
    [by apply truthy_trim_solid|].
  destruct (truthy (trim (el_value el))) eqn:H8; [|done].
  destruct (String.length (trim (el_value el)) <=? 80)%nat; [|done].
  by apply truthy_trim_solid.
Qed.

Lemma solid_not_filtered name : solid name → name_filtered_out name = false.
Proof.
  intros Hs. unfold name_filtered_out.
  by rewrite (solid_truthy name), (solid_truthy (trim name))
    by auto using trim_solid.
Qed.

(** The loop stops once [2 * limit] entries were collected; the test
    follows a push, so at least one entry is collected. *)
Definition scan_bound (limit : nat) : nat := Nat.max 1 (2 * limit).

Lemma scan_keeps_visible doc limit cands items :
  Forall (λ el, solid (tagName el)) cands →
  length items < scan_bound limit →
  scan doc limit cands items =
    take (scan_bound limit)
      (items ++ (item_of doc <$> filter (λ el, isVisible el = true) cands))%list.
Proof.
  intros Hcands. revert items.
  induction Hcands as [|el rest Htag _ IH]; intros items Hlen.
  { simpl. rewrite app_nil_r, take_ge; [done|lia]. }
  simpl scan. rewrite filter_cons.
  destruct (isVisible el) eqn:Hvis; simpl negb; cbv iota.
  2:{ rewrite decide_False by done. by apply IH. }
  rewrite decide_True by done.
  pose proof (accessibleName_solid doc el (isVisible_element el Hvis) Htag)
    as Hname.
  rewrite (solid_not_filtered _ Hname).
  rewrite fmap_cons. fold (item_of doc el).
  set (tl := item_of doc <$> filter (λ c, isVisible c = true) rest).
  replace (items ++ item_of doc el :: tl)%list
    with ((items ++ [item_of doc el]) ++ tl)%list
    by (by rewrite <- app_assoc).
  destruct (Nat.leb_spec (limit * 2) (length (items ++ [item_of doc el])))
    as [Hfull|Hroom].
  - rewrite take_app_length'; [done|].
    rewrite length_app in *. simpl in *. unfold scan_bound in *. lia.
  - apply IH. unfold scan_bound. lia.
Qed.

(** C9.  For every element node (with a well-formed tag name: not empty,
    not starting with whitespace) the accessible name is not empty, also
    after trimming; so the test of the scan that drops candidates with an
    empty name never holds for a visible candidate, and the scan collects
    every visible candidate, up to its bound. *)
Theorem C9_name_never_empty (doc : document) (el : element)
    (limit : nat) (cands : list element) :
  nodeType el = 1 → solid (tagName el) →
  Forall (λ c, solid (tagName c)) cands →
  (accessibleName doc el ≠ "" ∧ trim (accessibleName doc el) ≠ ""
   ∧ name_filtered_out (accessibleName doc el) = false)
  ∧ scan doc limit cands [] =
      take (scan_bound limit)
        (item_of doc <$> filter (λ c, isVisible c = true) cands).
Proof.
  intros Hel Htag Hcands. split.
  - pose proof (accessibleName_solid doc el Hel Htag) as Hs.
    split_and!.
    + by apply solid_nonempty.
    + by apply solid_nonempty, trim_solid.
    + by apply solid_not_filtered.
  - rewrite (scan_keeps_visible doc limit cands []); [done|done|].
    unfold scan_bound. simpl. lia.
Qed.

(** ** Redaction of sensitive fields *)

Lemma prefix_toLowerCase p s :
  String.prefix p s = true →
  String.prefix (toLowerCase p) (toLowerCase s) = true.
Proof.
  revert s. induction p as [|a p IH]; intros [|b s]; simpl; try done.
  destruct (ascii_dec a b) as [->|]; [|done].
  intros H. destruct (ascii_dec (lower_ascii b) (lower_ascii b)); [|done].
  by apply IH.
Qed.

Lemma includes_toLowerCase s p :
  includes s p = true → includes (toLowerCase s) (toLowerCase p) = true.
Proof.
  induction s as [|c s IH].
  - simpl. rewrite !orb_false_r. apply (prefix_toLowerCase p "").
  - cbn [includes]. intros [H|H]%orb_true_iff; apply orb_true_iff.
    + left. by apply (prefix_toLowerCase p (String c s)).
    + right. by apply IH.
Qed.

Lemma sensitive_written_any_case el :
  sensitive_as_written el → sensitive_any_case el.
Proof.
  intros [Hel Hattrs]. split; [done|]. unfold sensitive_attrs in *.
  destruct Hattrs as [->|[H|[H|[H|[H|H]]]]];
    [by left|right..];
    apply includes_toLowerCase in H; tauto.
Qed.

Lemma isSensitiveInput_spec el :
  isSensitiveInput el = true ↔ sensitive_any_case el.
Proof.
  unfold isSensitiveInput, sensitive_any_case, is_input_or_textarea,
    sensitive_attrs, is_text_input_tag.
  destruct (Nat.eqb_spec (nodeType el) 1) as [Hel|Hel]; simpl;
    [|split; [done|tauto]].
  destruct (String.eqb_spec (toLowerCase (tagName el)) "input") as [Hi|Hi];
    destruct (String.eqb_spec (toLowerCase (tagName el)) "textarea")
      as [Ht|Ht]; simpl;
    try (split; [done|tauto]).
  all: destruct (String.eqb_spec (toLowerCase (attr_or_empty el "type"))
                   "password") as [Hp|Hp]; [tauto|].
  all: destruct (includes (toLowerCase (attr_or_empty el "name")) "password");
    simpl; [tauto|].
  all: destruct (includes (toLowerCase (attr_or_empty el "name")) "passcode");
    simpl; [tauto|].
  all: destruct (includes (toLowerCase (attr_or_empty el "autocomplete"))
                   "cc-"); simpl; [tauto|].
  all: destruct (includes (toLowerCase (attr_or_empty el "autocomplete"))
                   "credit"); simpl; [tauto|].
  all: destruct (includes (toLowerCase (attr_or_empty el "autocomplete"))
                   "card"); simpl; [tauto|].
  all: split; [done|]; intros [_ [?|[?|[?|[?|[?|?]]]]]]; congruence.
Qed.

(** The [value] field of an emitted action, when it is an input action. *)
Definition emitted_value (out : option step_event) : option string :=
  match out with
  | Some {| ev_action := ActInput _ v |} => Some v
  | _ => None
  end.

(** The property as the specification states it, with the criteria read
    on the attributes as they are written. *)
Definition redaction_as_written : Prop :=
  ∀ doc st e target,
    recorderEnabled st = true →
    resolveTargetFromEvent e = Some target →
    (sensitive_as_written target →
     emitted_value (onChange doc st e).2 = Some redacted)
    ∧ (¬ sensitive_as_written target → isSensitiveInput target = false).

(** A field whose name is written in capitals. *)
Definition capital_password_field : element :=
  {| node_id := 1; nodeType := 1; tagName := "INPUT";
     attributes := [("name", "PASSWORD")];
     el_value := "hunter2"; innerText := ""; textContent := "";
     isContentEditable := false; el_disabled := false;
     selected_option := None;
     style_display := "block"; style_visibility := "visible";
     style_opacity := "1";
     el_rect := Rect 0 0 100 20 |}.

(** C2, counterexample.  An input named PASSWORD meets none of the
    criteria as they are written, and is detected as sensitive: the
    script lowers the attributes before it matches them. *)
Lemma C2_counterexample : ¬ redaction_as_written.
Proof.
  intros H.
  pose (doc := Document (λ _, None) (λ _, None) [] 800 600 "u" "t" true 0).
  destruct (H doc (CaptureState true None None)
              (DomEvent [capital_password_field] None)
              capital_password_field eq_refl eq_refl) as [_ Hfalse].
  assert (isSensitiveInput capital_password_field = true) as Htrue
    by reflexivity.
  rewrite Hfalse in Htrue; [discriminate|].
  intros [_ Hattrs]. unfold sensitive_attrs in Hattrs.
  vm_compute in Hattrs. intuition discriminate.
Qed.

(** C2, amended.  For every change event whose target is an input or
    textarea that is sensitive (type equal to password, or name
    containing password or passcode, or autocomplete containing cc-,
    credit or card, all compared after lowering the attribute, so without
    regard to letter case; this covers the criteria as written), the
    emitted action is an input action whose value field is the marker
    "<redacted>", whatever was typed; and the detection returns true
    exactly for these targets, so false for every other one. *)
Theorem C2_redaction (doc : document) (st : capture_state) (e : dom_event)
    (target : element) :
  recorderEnabled st = true →
  resolveTargetFromEvent e = Some target →
  (sensitive_any_case target →
     emitted_value (onChange doc st e).2 = Some "<redacted>")
  ∧ (sensitive_as_written target → sensitive_any_case target)
  ∧ (¬ sensitive_any_case target → isSensitiveInput target = false).
Proof.
  intros Hen Htarget. split_and!.
  - intros Hs. pose proof Hs as [[_ Htag] _].
    apply isSensitiveInput_spec in Hs.
    unfold onChange. rewrite Hen, Htarget. simpl negb. cbv iota.
    assert (is_text_input_tag (toLowerCase (tagName target)) = true) as Hti.
    { unfold is_text_input_tag. destruct Htag as [-> | ->]; done. }
    assert (String.eqb (toLowerCase (tagName target)) "select" = false)
      as Hsel.
    { destruct Htag as [-> | ->]; done. }
    rewrite Hti, Hsel. simpl. unfold input_value. by rewrite Hs.
  - apply sensitive_written_any_case.
  - intros Hn. destruct (isSensitiveInput target) eqn:Hs; [|done].
    by apply isSensitiveInput_spec in Hs.
Qed.

(** The typed text of a sensitive field with no label and no placeholder
    is its accessible name, and so travels in the [name] of the target
    reference of the same action. *)
Example typed_text_in_target_ref :
  let doc := Document (λ _, None) (λ _, None) [] 800 600 "u" "t" true 0 in
  (onChange doc (CaptureState true None None)
     (DomEvent [capital_password_field] None)).2
  = Some {| ev_action :=
              ActInput (Some {| ref_tag := "input";
                                ref_attrs := [("name", "PASSWORD")];
                                ref_name := Some "hunter2";
                                ref_role := None;
                                ref_bbox := Rect 0 0 100 20 |})
                       "<redacted>";
            ev_pre := buildStateSummary doc (Some capital_password_field)
                        true |}.
Proof. reflexivity. Qed.

(** ** Ranking of the scan *)

Lemma rank_cmp_spec a b : (rank_cmp a b <= 0)%Z ↔ ranks_before a b.
Proof.
  unfold rank_cmp, ranks_before, top_of, left_of.
  destruct (in_viewport a), (in_viewport b); simpl;
    destruct (Z.eqb_spec (r_y (it_bbox a) - r_y (it_bbox b)) 0);
    split; intros H; try lia;
    try (destruct H as [[? ?]|[? ?]]; (discriminate || lia));
    right; (split; [done|lia]).
Qed.

Lemma rank_cmp_total a b : (rank_cmp a b <= 0)%Z ∨ (rank_cmp b a <= 0)%Z.
Proof.
  unfold rank_cmp.
  destruct (in_viewport a), (in_viewport b); simpl;
    destruct (Z.eqb_spec (r_y (it_bbox a) - r_y (it_bbox b)) 0);
    destruct (Z.eqb_spec (r_y (it_bbox b) - r_y (it_bbox a)) 0); lia.
Qed.

Lemma rank_cmp_trans a b c :
  (rank_cmp a b <= 0)%Z → (rank_cmp b c <= 0)%Z → (rank_cmp a c <= 0)%Z.
Proof.
  unfold rank_cmp.
  destruct (in_viewport a), (in_viewport b), (in_viewport c); simpl;
    destruct (Z.eqb_spec (r_y (it_bbox a) - r_y (it_bbox b)) 0);
    destruct (Z.eqb_spec (r_y (it_bbox b) - r_y (it_bbox c)) 0);
    destruct (Z.eqb_spec (r_y (it_bbox a) - r_y (it_bbox c)) 0); lia.
Qed.

Lemma ranking_sorted (l : list item) :
  StronglySorted ranks_before (Js.sort rank_cmp l).
Proof.
  pose proof (sort_sorted rank_cmp rank_cmp_total rank_cmp_trans l) as Hs.
  induction Hs as [|x l' _ IH Hx]; constructor; [done|].
  eapply Forall_impl; [exact Hx|]. intros y. apply rank_cmp_spec.
Qed.

Lemma rank_and_trim_sorted limit items :
  StronglySorted ranks_before (rank_and_trim limit items).
Proof. unfold rank_and_trim. apply StronglySorted_take, ranking_sorted. Qed.

(** An item in the viewport is not cut from the output while one out of
    the viewport is kept. *)
Lemma in_viewport_kept_first limit items x y :
  x ∈ items → y ∈ rank_and_trim limit items →
  in_viewport x = true → in_viewport y = false →
  x ∈ rank_and_trim limit items.
Proof.
  intros Hx Hy Hvx Hvy. unfold rank_and_trim in *.
  set (all := Js.sort rank_cmp items) in *.
  assert (x ∈ all) as Hxa by (unfold all; by rewrite (sort_perm rank_cmp)).
  apply list_elem_of_lookup in Hxa as [i Hi].
  apply elem_of_take in Hy as (j & Hj & Hlt).
  apply elem_of_take. exists i. split; [done|].
  destruct (decide (i < j)) as [|Hge]; [lia|]. exfalso.
  destruct (decide (i = j)) as [->|Hne]; [congruence|].
  assert (ranks_before y x) as [[? ?]|[? _]]; [|congruence..].
  eapply (StronglySorted_lookup _ all j i); eauto using ranking_sorted.
  lia.
Qed.

Lemma render_items n l : (render n l).1.*2 = l.
Proof.
  revert n. induction l as [|it l IH]; intros n; simpl; [done|].
  specialize (IH (S n)). destruct (render (S n) l) as [m lines] eqn:E.
  simpl in *. by f_equal.
Qed.

Lemma listInteractables_items doc limit :
  (selector_map (listInteractables doc limit)).*2 = ranked doc limit.
Proof.
  unfold listInteractables.
  pose proof (render_items 0 (ranked doc limit)) as H.
  destruct (render 0 (ranked doc limit)) as [m lines]. exact H.
Qed.

(** Two candidates, one in the viewport and one below the fold. *)
Lemma ranked_pair doc a b :
  isVisible a = true → isVisible b = true →
  solid (tagName a) → solid (tagName b) →
  inViewport doc (el_rect a) = true →
  (innerHeight doc < r_top (el_rect b))%Z →
  ranked (with_candidates doc [a; b]) 60 = [item_of doc a; item_of doc b]
  ∧ ranked (with_candidates doc [b; a]) 60 = [item_of doc a; item_of doc b].
Proof.
  intros Ha Hb Hta Htb Hin Hfold.
  assert (inViewport doc (el_rect b) = false) as Hout.
  { unfold inViewport. apply andb_false_iff. left.
    apply andb_false_iff. right. apply Z.leb_gt. lia. }
  assert (rank_cmp (item_of doc a) (item_of doc b) = (-1)%Z) as Hab.
  { unfold rank_cmp, item_of, make_item. simpl. by rewrite Hin, Hout. }
  assert (rank_cmp (item_of doc b) (item_of doc a) = 1%Z) as Hba.
  { unfold rank_cmp, item_of, make_item. simpl. by rewrite Hin, Hout. }
  unfold ranked, rank_and_trim. split.
  - rewrite (scan_keeps_visible _ 60 [a; b] []);
      [|by repeat constructor|unfold scan_bound; simpl; lia].
    rewrite !filter_cons, filter_nil, !decide_True by done.
    change (take (scan_bound 60) _)
      with [item_of doc a; item_of doc b].
    simpl. by rewrite Hab.
  - rewrite (scan_keeps_visible _ 60 [b; a] []);
      [|by repeat constructor|unfold scan_bound; simpl; lia].
    rewrite !filter_cons, filter_nil, !decide_True by done.
    change (take (scan_bound 60) _)
      with [item_of doc b; item_of doc a].
    simpl. by rewrite Hba.
Qed.

(** C4.  For every array of scan candidates that enters the ranking, the
    output is the ranked array cut at the limit: every entry may stand
    before every later entry in the order "in-viewport before
    out-of-viewport, then ascending top, then ascending left", so no
    out-of-viewport entry precedes an in-viewport one, and the cut never
    drops an in-viewport candidate while it keeps an out-of-viewport one;
    the order is total and transitive and the output is a function of
    the array.  The scan ranks the candidates that its loop collected and
    numbers them in this order; the limit is 60 in every observation.  On
    a page whose candidates are two visible elements, one in the viewport
    and one below the fold, the one in the viewport comes first in both
    document orders. *)
Theorem C4_ranking (items : list item) (limit : nat) :
  let out := rank_and_trim limit items in
  StronglySorted ranks_before out
  ∧ (∀ i j x y, out !! i = Some x → out !! j = Some y → i < j →
       ranks_before x y ∧ (in_viewport y = true → in_viewport x = true))
  ∧ (∃ all, all ≡ₚ items
       ∧ StronglySorted ranks_before all ∧ out = take limit all)
  ∧ (length out ≤ limit)%nat
  ∧ (∀ x y, x ∈ items → y ∈ out →
       in_viewport x = true → in_viewport y = false → x ∈ out)
  ∧ (∀ x y, ranks_before x y ∨ ranks_before y x)
  ∧ (∀ x y z, ranks_before x y → ranks_before y z → ranks_before x z)
  ∧ (∀ doc,
       ranked doc limit
         = rank_and_trim limit (scan doc limit (candidates doc) [])
       ∧ (selector_map (listInteractables doc limit)).*2 = ranked doc limit
       ∧ obs_dom_state (buildStateSummary doc None true)
         = listInteractables doc 60)
  ∧ (∀ doc a b,
       isVisible a = true → isVisible b = true →
       solid (tagName a) → solid (tagName b) →
       r_width (el_rect a) = r_width (el_rect b) →
       r_height (el_rect a) = r_height (el_rect b) →
       inViewport doc (el_rect a) = true →
       (innerHeight doc < r_top (el_rect b))%Z →
       ranked (with_candidates doc [a; b]) 60
         = [item_of doc a; item_of doc b]
       ∧ ranked (with_candidates doc [b; a]) 60
         = [item_of doc a; item_of doc b]).
Proof.
  intros out. split_and!.
  - apply rank_and_trim_sorted.
  - intros i j x y Hi Hj Hij.
    pose proof (StronglySorted_lookup _ _ _ _ _ _
                  (rank_and_trim_sorted limit items) Hi Hj Hij) as Hxy.
    split; [done|]. intros Hy.
    destruct Hxy as [[_ Hn]|[Heq _]]; congruence.
  - exists (Js.sort rank_cmp items).
    split_and!; [apply sort_perm|apply ranking_sorted|done].
  - unfold out, rank_and_trim. rewrite length_take. lia.
  - apply in_viewport_kept_first.
  - intros x y. rewrite <- !rank_cmp_spec. apply rank_cmp_total.
  - intros x y z. rewrite <- !rank_cmp_spec. apply rank_cmp_trans.
  - intros doc. split_and!; [done|apply listInteractables_items|done].
  - intros doc a b Ha Hb Hta Htb _ _ Hin Hfold. by apply ranked_pair.
Qed.

(** ** A sample page *)

Definition button (id : nat) (text : string) (r : rect) : element :=
  {| node_id := id; nodeType := 1; tagName := "BUTTON";
     attributes := []; el_value := ""; innerText := text;
     textContent := text; isContentEditable := false;
     el_disabled := false; selected_option := None;
     style_display := "block"; style_visibility := "visible";
     style_opacity := "1"; el_rect := r |}.

Definition search_button : element := button 2 "Search" (Rect 10 40 80 24).
Definition footer_button : element := button 3 "Help" (Rect 10 900 80 24).

Definition sample_page : document :=
  {| getElementById := λ _, None; label_for := λ _, None;
     candidates := [footer_button; capital_password_field; search_button];
     innerWidth := 800; innerHeight := 600;
     location_href := "https://example.test/"; doc_title := "Example";
     is_top_frame := true; scroll_y := 0 |}.

Lemma solid_button_tag : solid "BUTTON".
Proof. by exists "B"%char, "UTTON". Defined.

Lemma solid_input_tag : solid "INPUT".
Proof. by exists "I"%char, "NPUT". Defined.

Lemma C7_witness :
  accessibleName sample_page search_button
  = accessibleName_spec sample_page search_button.
Proof. apply C7_accessible_name_order. reflexivity. Defined.

Lemma C9_witness :
  (accessibleName sample_page capital_password_field ≠ ""
   ∧ trim (accessibleName sample_page capital_password_field) ≠ ""
   ∧ name_filtered_out (accessibleName sample_page capital_password_field)
     = false)
  ∧ scan sample_page 60 (candidates sample_page) [] =
      take (scan_bound 60)
        (item_of sample_page
           <$> filter (λ c, isVisible c = true) (candidates sample_page)).
Proof.
  apply C9_name_never_empty.
  - reflexivity.
  - exact solid_input_tag.
  - repeat constructor;
      [exact solid_button_tag|exact solid_input_tag|exact solid_button_tag].
Defined.

Lemma C2_witness :
  emitted_value
    (onChange sample_page (CaptureState true None None)
       (DomEvent [capital_password_field] None)).2 = Some "<redacted>".
Proof.
  refine (proj1 (C2_redaction sample_page (CaptureState true None None)
                   (DomEvent [capital_password_field] None)
                   capital_password_field eq_refl eq_refl) _).
  split; [split; [reflexivity|left; reflexivity]|].
  right. left. reflexivity.
Defined.

Lemma C4_witness :
  ranked (with_candidates sample_page [search_button; footer_button]) 60
    = [item_of sample_page search_button; item_of sample_page footer_button]
  ∧ ranked (with_candidates sample_page [footer_button; search_button]) 60
    = [item_of sample_page search_button; item_of sample_page footer_button].
Proof.
  refine (proj2 (proj2 (proj2 (proj2 (proj2 (proj2 (proj2 (proj2
            (C4_ranking
               (item_of sample_page <$> [footer_button; search_button])
               60))))))))
            sample_page search_button footer_button _ _ _ _ _ _ _ _);
    try reflexivity; exact solid_button_tag.
Defined.

End ContentProps.

(* ===================================================================== *)
(** * Part II.c  Properties of the service worker *)
(* ===================================================================== *)

Module BackgroundProps.
Import Js JsFacts Content Background.

(** ** Running procedures *)

Lemma run_bind {R S : Type} (p : proc R) (f : R → proc S) (s : store) :
  run (bind p f) s =
    match run p s with
    | (inl r, s1, ts1) =>
        let '(r2, s2, ts2) := run (f r) s1 in (r2, s2, (ts1 ++ ts2)%list)
    | (inr e, s1, ts1) => (inr e, s1, ts1)
    end.
Proof.
  revert s. induction p as [r|e|k IH|k IH|v k IH|ep k IH|id k IH|id k IH
                            |r k IH|key k IH|key k IH|eid k IH|t k IH];
    intros s; simpl; try done.
  - by destruct (run (f r) s) as [[r2 s2] ts2].
  - rewrite IH. destruct (run k s) as [[[r|e] s1] ts1]; [|done].
    by destruct (run (f r) s1) as [[r2 s2] ts2].
Qed.

Lemma run_catch {R : Type} (p : proc R) (h : string → R) (s : store) :
  run (catch p h) s =
    match run p s with
    | (inl r, s1, ts1) => (inl r, s1, ts1)
    | (inr e, s1, ts1) => (inl (h e), s1, ts1)
    end.
Proof.
  revert s. induction p as [r|e|k IH|k IH|v k IH|ep k IH|id k IH|id k IH
                            |r k IH|key k IH|key k IH|eid k IH|t k IH];
    intros s; simpl; try done.
  rewrite IH. by destruct (run k s) as [[[r|e] s1] ts1].
Qed.

(** The procedure that is left when a handler has finished. *)
Definition finished {R : Type} (res : result R) : proc R :=
  match res with
  | inl r => Ret r
  | inr e => Throw e
  end.

Ltac one_turn n Hn := exists (S n); simpl; rewrite app_nil_r; exact Hn.

(** [run] is the interleaving in which the handler is alone: given
    enough turns it performs all its operations, with the same outcome. *)
Lemma uninterrupted_run {R : Type} (p : proc R) (s : store) (ts0 : list timer) :
  ∃ n, interleave (replicate n 0) [p] s ts0
       = ([finished (run p s).1.1], (run p s).1.2, (ts0 ++ (run p s).2)%list).
Proof.
  revert s ts0.
  induction p as [r|e|k IH|k IH|v k IH|ep k IH|id k IH|id k IH
                  |r k IH|key k IH|key k IH|eid k IH|t k IH]; intros s ts0.
  - exists 0. simpl. by rewrite app_nil_r.
  - exists 0. simpl. by rewrite app_nil_r.
  - destruct (IH s ts0) as [n Hn]. by one_turn n Hn.
  - destruct (IH (settings_of s) s ts0) as [n Hn]. by one_turn n Hn.
  - destruct (IH (set_settings v s) ts0) as [n Hn]. by one_turn n Hn.
  - destruct (IH (set_episodes (<[episode_id ep := ep]> (episodes s)) s) ts0)
      as [n Hn]. by one_turn n Hn.
  - destruct (IH (episodes s !! id) s ts0) as [n Hn]. by one_turn n Hn.
  - destruct (IH (set_episodes (delete id (episodes s)) s) ts0) as [n Hn].
    by one_turn n Hn.
  - destruct (IH (set_steps (<[step_key r := r]> (steps s)) s) ts0) as [n Hn].
    by one_turn n Hn.
  - destruct (IH (steps s !! key) s ts0) as [n Hn]. by one_turn n Hn.
  - destruct (IH (set_steps (delete key (steps s)) s) ts0) as [n Hn].
    by one_turn n Hn.
  - destruct (IH (idbGetStepsForEpisode eid (steps s)) s ts0) as [n Hn].
    by one_turn n Hn.
  - destruct (IH s (ts0 ++ [t])%list) as [n Hn]. exists (S n). simpl.
    rewrite Hn. destruct (run k s) as [[res s'] ts]. simpl.
    by rewrite <- app_assoc.
Qed.

(** The rows removed by the loop of [clearAll]. *)
Definition delete_rows (rows : list row) (m : gmap string row)
  : gmap string row :=
  foldl (λ acc r, delete (step_key r) acc) m rows.

Lemma run_delete_each {R : Type} (rows : list row) (k : proc R) (s : store) :
  run (delete_each rows k) s
  = run k (set_steps (delete_rows rows (steps s)) s).
Proof.
  revert s. induction rows as [|r rows IH]; intros s; simpl.
  - by destruct s.
  - by rewrite IH.
Qed.

Lemma lookup_delete_rows rows (m : gmap string row) k :
  delete_rows rows m !! k
  = if decide (k ∈ step_key <$> rows) then None else m !! k.
Proof.
  revert m. induction rows as [|r rows IH]; intros m.
  { case_decide as Hin; [|done]. by apply elem_of_nil in Hin. }
  cbn [delete_rows foldl]. fold (delete_rows rows (delete (step_key r) m)).
  rewrite IH, lookup_delete, fmap_cons.
  destruct (decide (k ∈ step_key <$> rows)) as [Hin|Hnin].
  - rewrite decide_True; [done|]. apply elem_of_cons. by right.
  - destruct (decide (step_key r = k)) as [Heq|Hne].
    + rewrite decide_True; [done|]. apply elem_of_cons. by left.
    + rewrite decide_False; [done|].
      intros [?|?]%elem_of_cons; congruence.
Qed.

(** The store after [clearAll]. *)
Definition cleared_store (s : store) : store :=
  match active_episode (settings_of s) with
  | Some e =>
      {| episodes := delete e (episodes s);
         steps := delete_rows (idbGetStepsForEpisode e (steps s)) (steps s);
         settings_of := Some cleared_settings |}
  | None => set_settings cleared_settings s
  end.

Lemma run_clearAll s : run clearAll s = (inl tt, cleared_store s, []).
Proof.
  unfold clearAll, cleared_store. simpl.
  destruct (active_episode (settings_of s)) as [e|]; simpl; [|done].
  change (bind (delete_each ?rows ?k) ?f)
    with (bind (delete_each rows k) f).
  rewrite run_bind, run_delete_each. done.
Qed.

(** ** Keys of the step store *)

(** The part of a string before its last colon. *)
Fixpoint before_last_colon (s : string) : option string :=
  match s with
  | "" => None
  | String c s' =>
      match before_last_colon s' with
      | Some p => Some (String c p)
      | None => if Ascii.eqb c ":" then Some "" else None
      end
  end.

Lemma digits_no_colon x s :
  before_last_colon s = None → before_last_colon (pretty_N_go x s) = None.
Proof.
  revert s. induction (N.lt_wf_0 x) as [x _ IH]; intros s Hs.
  assert (x = 0 ∨ 0 < x)%N as [->|Hpos] by lia.
  { by rewrite pretty_N_go_0. }
  rewrite pretty_N_go_step by done. apply IH.
  { by apply N.div_lt. }
  simpl. rewrite Hs. unfold pretty_N_char. by repeat case_match.
Qed.

Lemma pretty_nat_no_colon (n : nat) : before_last_colon (pretty n) = None.
Proof.
  unfold pretty, pretty_nat, pretty, pretty_N.
  case_decide; [done|]. by apply digits_no_colon.
Qed.

Lemma before_last_colon_key e p :
  before_last_colon p = None →
  before_last_colon (e +:+ ":" +:+ p) = Some e.
Proof.
  intros Hp. induction e as [|c e IH].
  - change ("" +:+ ":" +:+ p) with (String ":" p). simpl. by rewrite Hp.
  - change (String c e +:+ ":" +:+ p) with (String c (e +:+ ":" +:+ p)).
    simpl. by rewrite IH.
Qed.

Lemma make_key_inj e1 n1 e2 n2 :
  make_key e1 n1 = make_key e2 n2 → e1 = e2 ∧ n1 = n2.
Proof.
  intros H. unfold make_key in H.
  assert (e1 = e2) as ->.
  { apply (f_equal before_last_colon) in H.
    rewrite !before_last_colon_key in H by apply pretty_nat_no_colon.
    congruence. }
  split; [done|].
  apply (inj (String.app e2)) in H. apply (inj (String.app ":")) in H.
  by apply (inj pretty) in H.
Qed.

(** ** Consistency of the stored rows

    Every row sits under its own key, and its key is the one built from
    its episode and its step number: what [idbPut] with the key path
    [step_key] and the step handler maintain. *)
Definition row_ok (k : string) (r : row) : Prop :=
  k = step_key r
  ∧ step_key r = make_key (row_episode_id r) (step_number r)
  ∧ sr_step_number (step r) = step_number r.

Definition rows_consistent (m : gmap string row) : Prop :=
  ∀ k r, m !! k = Some r → row_ok k r.

(** The counter of the active episode counts its rows. *)
Definition counter_consistent (s : store) : Prop :=
  ∀ st e, settings_of s = Some st → active_episode (Some st) = Some e →
    (∀ n, is_Some (steps s !! make_key e n) ↔ n < stepCount st)
    ∧ is_Some (episodes s !! e).

Definition invariant (s : store) : Prop :=
  rows_consistent (steps s) ∧ counter_consistent s.

Lemma elem_of_rows_of e (m : gmap string row) r :
  r ∈ rows_of e m ↔ (∃ k, m !! k = Some r) ∧ row_episode_id r = e.
Proof.
  unfold rows_of. rewrite list_elem_of_filter, list_elem_of_fmap.
  split.
  - intros [He ([k r'] & -> & Hin)]. split; [|done].
    exists k. by apply elem_of_map_to_list.
  - intros [[k Hk] He]. split; [done|].
    exists (k, r). split; [done|]. by apply elem_of_map_to_list.
Qed.

Lemma elem_of_idbGetStepsForEpisode e (m : gmap string row) r :
  r ∈ idbGetStepsForEpisode e m
  ↔ (∃ k, m !! k = Some r) ∧ row_episode_id r = e.
Proof.
  unfold idbGetStepsForEpisode. rewrite (sort_perm step_cmp).
  apply elem_of_rows_of.
Qed.

(** Under consistency the loop of [clearAll] removes exactly the rows of
    the episode. *)
Lemma lookup_cleared_rows e (m : gmap string row) k :
  rows_consistent m →
  delete_rows (idbGetStepsForEpisode e m) m !! k
  = match m !! k with
    | Some r => if decide (row_episode_id r = e) then None else Some r
    | None => None
    end.
Proof.
  intros Hm. rewrite lookup_delete_rows.
  destruct (m !! k) as [r|] eqn:Hk.
  - destruct (Hm k r Hk) as (-> & _ & _).
    case_decide as Hin; case_decide as He; try done.
    + apply list_elem_of_fmap in Hin as (r' & Hkey & Hr').
      apply elem_of_idbGetStepsForEpisode in Hr' as [[k' Hk'] He'].
      destruct (Hm k' r' Hk') as (-> & _ & _).
      rewrite <- Hkey in Hk'. congruence.
    + exfalso. apply Hin. apply list_elem_of_fmap. exists r.
      split; [done|]. apply elem_of_idbGetStepsForEpisode. eauto.
  - by case_decide.
Qed.

(** ** The effect of one handler on the store

    Every handler, run without interruption, leaves the store as it is
    or changes it in one of five ways.  [P] is what is known of the
    identifier of an episode that is started. *)
Inductive store_effect (P : string → Prop) (s : store) : store → Prop :=
| eff_none : store_effect P s s
| eff_settings v :
    active_episode (Some v) = active_episode (settings_of s) →
    stepCount v = stepCount (default blank_settings (settings_of s)) →
    store_effect P s (set_settings v s)
| eff_start ep v :
    P (episode_id ep) →
    episodeId v = Some (episode_id ep) → stepCount v = 0 →
    store_effect P s
      {| episodes := <[episode_id ep := ep]> (episodes s);
         steps := steps s; settings_of := Some v |}
| eff_clear : store_effect P s (cleared_store s)
| eff_pending st e r v :
    settings_of s = Some st → active_episode (Some st) = Some e →
    row_ok (make_key e (stepCount st)) r →
    row_episode_id r = e → step_number r = stepCount st →
    post (step r) = None →
    active_episode (Some v) = Some e → stepCount v = stepCount st + 1 →
    store_effect P s
      {| episodes := episodes s; steps := <[step_key r := r]> (steps s);
         settings_of := Some v |}
| eff_finalize e n r po d :
    active_episode (settings_of s) = Some e →
    steps s !! make_key e n = Some r →
    store_effect P s
      (set_steps (<[step_key r := finalize r po d]> (steps s)) s).

Lemma store_effect_mono (P Q : string → Prop) s s' :
  (∀ u, P u → Q u) → store_effect P s s' → store_effect Q s s'.
Proof. intros HPQ []; econstructor; eauto. Qed.

Lemma onMessage_effect w msg s :
  store_effect (λ u, ∃ opts, msg = RECORDER_START opts ∧ u = env_uuid w)
    s (exec (onMessage w msg) s).
Proof.
  unfold exec, onMessage. destruct msg as [|opts| | |opts| |tab ev|].
  - simpl. constructor.
  - simpl.
    destruct (env_active_tab w) as [[|tabId]|]; simpl;
      unfold set_settings, set_episodes; simpl;
      match goal with
      | |- store_effect _ _ {| episodes := <[?u := ?ep]> _ |} =>
          apply (eff_start _ s ep); simpl; eauto
      end.
  - simpl. destruct (settings_of s) as [st|] eqn:Hst; simpl;
      [|constructor].
    destruct (isRecording st); simpl; [|constructor].
    apply (eff_settings _ s); simpl; by rewrite Hst.
  - rewrite run_catch, run_bind. simpl (run getSettings s). cbv beta iota.
    rewrite run_bind, run_clearAll. simpl. constructor.
  - simpl. apply (eff_settings _ s); simpl; by destruct (settings_of s).
  - simpl. unfold export. simpl.
    destruct (active_episode (settings_of s)) as [e|]; simpl;
      [|constructor].
    destruct (settings_of s) as [st|]; simpl; [|constructor].
    destruct (episodes s !! e); simpl; constructor.
  - simpl. unfold onStepEvent.
    destruct (settings_of s) as [st|] eqn:Hst; simpl; [|constructor].
    destruct (episodeId st) as [e|] eqn:He; simpl; [|constructor].
    destruct (truthy e) eqn:Hte; simpl; [|constructor].
    destruct tab as [[|tabId]|]; simpl; try constructor.
    destruct (isRecording st) eqn:Hrec; simpl; [|constructor].
    destruct (env_tab w) as [err|tab]; simpl; [constructor|].
    destruct (flag (captureScreenshots (options_of st))); simpl;
      unfold set_settings, set_steps; simpl;
      match goal with
      | |- store_effect _ _ {| steps := <[_ := ?r]> _;
                               settings_of := Some ?v |} =>
          apply (eff_pending _ s st e r v); simpl;
            rewrite ?He, ?Hte; try done; lia
      end.
  - simpl. constructor.
Qed.

Lemma post_capture_effect P w t s :
  store_effect P s (exec (post_capture w t) s).
Proof.
  unfold exec, post_capture. simpl.
  destruct (active_episode (settings_of s)) as [e|] eqn:Hact; simpl;
    [|constructor].
  destruct (settings_of s) as [s3|] eqn:Hs3; simpl; [|constructor].
  destruct (String.eqb_spec e (tm_episode t)) as [->|Hne]; simpl;
    [|constructor].
  destruct (env_tab w) as [err|tab2]; simpl; [constructor|].
  destruct (flag (captureScreenshots (options_of s3))); simpl;
    destruct (steps s !! make_key (tm_episode t) (tm_step t)) as [r|] eqn:Hr;
    simpl; try constructor.
  all: eapply (eff_finalize _ s (tm_episode t) (tm_step t) r); eauto.
  all: by rewrite Hs3.
Qed.

Lemma onCommitted_effect P frameId url s :
  store_effect P s (exec (onCommitted frameId url) s).
Proof.
  unfold exec, onCommitted. simpl.
  destruct (settings_of s) as [st|] eqn:Hst; simpl; [|constructor].
  destruct (isRecording st); simpl; [|constructor].
  destruct frameId; simpl; [|constructor].
  apply (eff_settings _ s); simpl; by rewrite Hst.
Qed.

Definition started_by (o : occurrence) (u : string) : Prop :=
  ∃ w opts, o = Message w (RECORDER_START opts) ∧ u = env_uuid w.

Lemma handle_store {R} (p : proc R) pending sys :
  sys_store (handle p pending sys) = exec p (sys_store sys).
Proof.
  unfold handle, exec. by destruct (run p (sys_store sys)) as [[r s'] ts].
Qed.

Lemma occur_effect o sys :
  store_effect (started_by o) (sys_store sys) (sys_store (occur o sys)).
Proof.
  destruct o as [w msg|w i|frameId url]; simpl.
  - rewrite handle_store.
    eapply store_effect_mono; [|apply onMessage_effect].
    intros u (opts & -> & ->). by exists w, opts.
  - destruct (sys_timers sys !! i) as [t|]; [|constructor].
    rewrite handle_store. apply post_capture_effect.
  - rewrite handle_store. apply onCommitted_effect.
Qed.

Lemma admissible_fresh o sys u :
  admissible o sys → started_by o u → fresh_uuid u (sys_store sys).
Proof. intros Hadm (w & opts & -> & ->). exact Hadm. Qed.

(** ** Preservation of the consistency of the rows *)

Lemma row_ok_finalize k r po d : row_ok k r → row_ok k (finalize r po d).
Proof. intros (? & ? & ?). by split_and!. Qed.

Lemma rows_consistent_insert (m : gmap string row) r :
  rows_consistent m → row_ok (step_key r) r →
  rows_consistent (<[step_key r := r]> m).
Proof.
  intros Hm Hr k r'. rewrite lookup_insert. case_decide as Hk.
  - intros [= <-]. by rewrite <- Hk.
  - apply Hm.
Qed.

Lemma rows_consistent_cleared e (m : gmap string row) :
  rows_consistent m →
  rows_consistent (delete_rows (idbGetStepsForEpisode e m) m).
Proof.
  intros Hm k r. rewrite lookup_cleared_rows by done.
  destruct (m !! k) as [r'|] eqn:Hk; [|done].
  case_decide; [done|]. intros [= <-]. by apply Hm.
Qed.

Lemma effect_rows_consistent P s s' :
  store_effect P s s' →
  rows_consistent (steps s) → rows_consistent (steps s').
Proof.
  intros Heff Hm.
  destruct Heff as [ |v _ _|ep v _ _ _| |st e r v _ _ Hr _ _ _ _ _
                    |e n r po d _ Hr]; simpl; try done.
  - unfold cleared_store.
    destruct (active_episode (settings_of s)); simpl; [|done].
    by apply rows_consistent_cleared.
  - apply rows_consistent_insert; [done|].
    destruct Hr as (Hk & ? & ?). split_and!; try done.
  - pose proof (Hm _ _ Hr) as Hok.
    change (step_key r) with (step_key (finalize r po d)).
    apply rows_consistent_insert; [done|].
    apply row_ok_finalize. destruct Hok as (? & ? & ?). by split_and!.
Qed.

(** ** Records of an episode that is not the active one *)

(** The rows of one episode. *)
Definition episode_rows (e : string) (m : gmap string row)
  : gmap string row :=
  filter (λ kr, row_episode_id kr.2 = e) m.

Lemma episode_rows_eq e (m m' : gmap string row) :
  (∀ k r, row_episode_id r = e → m' !! k = Some r ↔ m !! k = Some r) →
  episode_rows e m' = episode_rows e m.
Proof.
  intros H. apply map_eq. intros k. apply option_eq. intros r.
  unfold episode_rows. rewrite !map_lookup_filter_Some. simpl.
  split; intros [Hk He]; (split; [|done]); by apply H.
Qed.

Lemma active_episode_of_id v u :
  episodeId v = Some u → active_episode (Some v) = Some u
                         ∨ active_episode (Some v) = None.
Proof. simpl. intros ->. destruct (truthy u); auto. Qed.

Lemma effect_frame e s s' :
  store_effect (λ u, u ≠ e) s s' →
  rows_consistent (steps s) →
  active_episode (settings_of s) ≠ Some e →
  episode_rows e (steps s') = episode_rows e (steps s)
  ∧ episodes s' !! e = episodes s !! e
  ∧ active_episode (settings_of s') ≠ Some e.
Proof.
  intros Heff Hm Hact.
  destruct Heff as [ |v Hv _|ep v Hu Hid _| |st a r v Hst Ha Hr Her _ _ Hv _
                    |a n r po d Ha Hr];
    cbn [steps episodes settings_of set_settings set_steps set_episodes].
  - done.
  - split_and!; try done. congruence.
  - split_and!; [done|by rewrite lookup_insert_ne|].
    destruct (active_episode_of_id v _ Hid) as [-> | ->]; congruence.
  - unfold cleared_store.
    destruct (active_episode (settings_of s)) as [a|] eqn:Ha; simpl;
      [|done].
    assert (a ≠ e) by congruence.
    split_and!; [|by rewrite lookup_delete_ne|done].
    apply episode_rows_eq. intros k r He.
    rewrite lookup_cleared_rows by done.
    destruct (steps s !! k) as [r'|]; [|done].
    case_decide; split; intros [=]; congruence.
  - assert (a ≠ e) by (rewrite Hst in Hact; congruence).
    split_and!; [|done|congruence].
    apply episode_rows_eq. intros k r' He.
    destruct Hr as (Hkey & _ & _).
    rewrite lookup_insert. case_decide as Hk; [|done].
    split; [intros [= <-]; congruence|].
    intros Hk'. destruct (Hm _ _ Hk') as (Hkk & Hkey' & _).
    rewrite <- Hkk, <- Hk, <- Hkey, He in Hkey'.
    apply make_key_inj in Hkey' as [? _]. congruence.
  - assert (a ≠ e) by congruence.
    split_and!; [|done|done].
    apply episode_rows_eq. intros k r' He.
    destruct (Hm _ _ Hr) as (Hkey & Hkey2 & _).
    rewrite Hkey2 in Hkey. apply make_key_inj in Hkey as [Hep _].
    rewrite lookup_insert. case_decide as Hk; [|done].
    split.
    + intros [= <-]. simpl in He. congruence.
    + intros Hk'. destruct (Hm _ _ Hr) as (Hkey & _).
      rewrite <- Hk, <- Hkey, Hr in Hk'. congruence.
Qed.

(** ** Preservation of the invariant *)

Lemma active_settings s e :
  active_episode (settings_of s) = Some e →
  ∃ st, settings_of s = Some st ∧ active_episode (Some st) = Some e.
Proof. destruct (settings_of s) as [st|]; [eauto|done]. Qed.

Lemma effect_invariant s s' :
  store_effect (λ u, fresh_uuid u s) s s' → invariant s → invariant s'.
Proof.
  intros Heff [Hm Hc]. split; [by eapply effect_rows_consistent|].
  unfold counter_consistent.
  destruct Heff as [ |v Hv Hn|ep v Hu Hid Hn| |st a r v Hst Ha Hr Her _ _ Hv Hn
                    |a n r po d Ha Hr];
    cbn [steps episodes settings_of set_settings set_steps set_episodes].
  - done.
  - intros st e [= <-] He. rewrite Hv in He.
    apply active_settings in He as (st0 & Hst0 & He).
    rewrite Hst0 in Hn. simpl in Hn. rewrite Hn. by apply Hc.
  - intros st e [= <-] He.
    destruct Hu as (_ & _ & Hrows).
    destruct (active_episode_of_id v _ Hid) as [Hact|Hact];
      rewrite Hact in He; [|done].
    injection He as <-. split; [|by rewrite lookup_insert_eq].
    intros n. rewrite Hn. split; [|lia].
    intros [r Hk]. destruct (Hm _ _ Hk) as (Hkk & Hkey & _).
    rewrite <- Hkk in Hkey. apply make_key_inj in Hkey as [Hep _].
    exfalso. by eapply Hrows.
  - unfold cleared_store.
    destruct (active_episode (settings_of s)); simpl; by intros st e [= <-].
  - intros st' e [= <-] He. rewrite Hv in He. injection He as <-.
    destruct (Hc _ _ Hst Ha) as [Hkeys Hep]. split; [|done].
    destruct Hr as (Hkey & _ & _). intros n. rewrite Hn, <- Hkey.
    rewrite lookup_insert. case_decide as Hk.
    + apply make_key_inj in Hk as [_ <-]. split; [lia|eauto].
    + rewrite Hkeys.
      assert (n ≠ stepCount st) by congruence. lia.
  - intros st e Hst He.
    destruct (Hc _ _ Hst He) as [Hkeys Hep]. split; [|done].
    intros n'. rewrite <- Hkeys.
    destruct (Hm _ _ Hr) as (Hkey & _). rewrite <- Hkey.
    rewrite lookup_insert. case_decide as Hk; [|done].
    rewrite <- Hk, Hr. split; eauto.
Qed.

Lemma boot_store :
  sys_store boot
  = {| episodes := ∅; steps := ∅; settings_of := Some initial_settings |}.
Proof. reflexivity. Qed.

Lemma reachable_invariant sys : reachable sys → invariant (sys_store sys).
Proof.
  induction 1 as [|o sys _ IH Hadm].
  - rewrite boot_store. split.
    + intros k r. simpl. by rewrite lookup_empty.
    + intros st e [= <-]. done.
  - eapply effect_invariant; [|exact IH].
    eapply store_effect_mono; [|apply occur_effect].
    intros u. by apply admissible_fresh.
Qed.

(** ** The rows of the active episode, sorted *)

Lemma step_cmp_total a b : (step_cmp a b <= 0)%Z ∨ (step_cmp b a <= 0)%Z.
Proof. unfold step_cmp. lia. Qed.

Lemma step_cmp_trans a b c :
  (step_cmp a b <= 0)%Z → (step_cmp b c <= 0)%Z → (step_cmp a c <= 0)%Z.
Proof. unfold step_cmp. lia. Qed.

Lemma sorted_seq a n : StronglySorted le (seq a n).
Proof.
  revert a. induction n as [|n IH]; intros a; simpl; constructor; [done|].
  apply Forall_forall. intros x Hx%elem_of_seq. lia.
Qed.

Lemma sorted_range (l : list nat) c :
  StronglySorted le l → NoDup l → (∀ n, n ∈ l ↔ n < c) → l = seq 0 c.
Proof.
  intros Hs Hnd Hin.
  apply (StronglySorted_unique le); [done|apply sorted_seq|].
  apply NoDup_Permutation; [done|apply NoDup_seq|].
  intros n. rewrite Hin, elem_of_seq. lia.
Qed.

Lemma rows_of_NoDup e (m : gmap string row) :
  rows_consistent m → NoDup (rows_of e m).
Proof.
  intros Hm. unfold rows_of. apply NoDup_filter.
  apply NoDup_fmap_2_strong; [|apply NoDup_map_to_list].
  intros [k1 r1] [k2 r2] H1%elem_of_map_to_list H2%elem_of_map_to_list.
  simpl. intros <-.
  destruct (Hm _ _ H1) as (-> & _), (Hm _ _ H2) as (-> & _). done.
Qed.

Lemma rows_of_numbers s st e :
  invariant s → settings_of s = Some st →
  active_episode (Some st) = Some e →
  step_number <$> idbGetStepsForEpisode e (steps s) = seq 0 (stepCount st).
Proof.
  intros [Hm Hc] Hst He. destruct (Hc _ _ Hst He) as [Hkeys _].
  apply sorted_range.
  - pose proof (sort_sorted step_cmp step_cmp_total step_cmp_trans
                  (rows_of e (steps s))) as Hs.
    fold (idbGetStepsForEpisode e (steps s)) in Hs.
    induction Hs as [|x l _ IH Hx]; simpl; constructor; [done|].
    apply Forall_fmap. eapply Forall_impl; [exact Hx|].
    intros y. unfold step_cmp. simpl. lia.
  - unfold idbGetStepsForEpisode. rewrite (sort_perm step_cmp).
    apply NoDup_fmap_2_strong; [|by apply rows_of_NoDup].
    intros r1 r2 [[k1 H1] He1]%elem_of_rows_of
      [[k2 H2] He2]%elem_of_rows_of Hn.
    destruct (Hm _ _ H1) as (-> & Hk1 & _), (Hm _ _ H2) as (-> & Hk2 & _).
    rewrite Hk1, He1, Hn, <- He2, <- Hk2, H2 in H1. congruence.
  - intros n. rewrite <- Hkeys, list_elem_of_fmap. split.
    + intros (r & -> & [[k Hk] Hr]%elem_of_idbGetStepsForEpisode).
      destruct (Hm _ _ Hk) as (-> & Hkey & _).
      rewrite <- Hr, <- Hkey. eauto.
    + intros [r Hk]. exists r.
      destruct (Hm _ _ Hk) as (Hkk & Hkey & _).
      rewrite <- Hkk in Hkey. apply make_key_inj in Hkey as [-> ->].
      split; [done|]. apply elem_of_idbGetStepsForEpisode. eauto.
Qed.

(** ** Clear *)

Lemma exec_clearAll s : exec clearAll s = cleared_store s.
Proof. unfold exec. by rewrite run_clearAll. Qed.

Lemma cleared_settings_of s :
  settings_of (cleared_store s) = Some cleared_settings.
Proof. unfold cleared_store. by destruct (active_episode (settings_of s)). Qed.

Lemma cleared_store_idem s : cleared_store (cleared_store s) = cleared_store s.
Proof.
  unfold cleared_store at 1. rewrite cleared_settings_of. simpl.
  pose proof (cleared_settings_of s) as H.
  destruct (cleared_store s). simpl in *. by rewrite H.
Qed.

Lemma run_clear_message w s :
  run (onMessage w RECORDER_CLEAR) s
  = (inl (Some (RSettings (Some cleared_settings))), cleared_store s, []).
Proof.
  unfold onMessage.
  rewrite run_catch, run_bind. simpl (run getSettings s). cbv beta iota.
  rewrite run_bind, run_clearAll. simpl. by rewrite cleared_settings_of.
Qed.

(** C5.  Calling clear twice in a row yields the same state both times:
    the second call changes nothing; after each call the settings are the
    non-recording default (not recording, no episode, zero steps, default
    options), both calls answer with these settings, and no step row and
    no episode record of the episode that was active remains. *)
Theorem C5_clear_idempotent (w1 w2 : env) (s : store) :
  rows_consistent (steps s) →
  let s1 := exec (onMessage w1 RECORDER_CLEAR) s in
  let s2 := exec (onMessage w2 RECORDER_CLEAR) s1 in
  s1 = exec clearAll s
  ∧ s2 = s1
  ∧ settings_of s1 = Some cleared_settings
  ∧ (isRecording cleared_settings = false
     ∧ episodeId cleared_settings = None
     ∧ stepCount cleared_settings = 0
     ∧ options_of cleared_settings = default_options)
  ∧ (run (onMessage w1 RECORDER_CLEAR) s).1.1
    = (run (onMessage w2 RECORDER_CLEAR) s1).1.1
  ∧ (∀ e, active_episode (settings_of s) = Some e →
       episode_rows e (steps s1) = ∅ ∧ rows_of e (steps s1) = []
       ∧ episodes s1 !! e = None).
Proof.
  intros Hm s1 s2. unfold s2, s1, exec.
  rewrite !run_clear_message, run_clearAll. simpl.
  split_and!; try done.
  - apply cleared_store_idem.
  - apply cleared_settings_of.
  - intros e He. unfold cleared_store. rewrite He. simpl.
    assert (∀ k r, delete_rows (idbGetStepsForEpisode e (steps s)) (steps s)
                     !! k = Some r → row_episode_id r ≠ e) as Hgone.
    { intros k r. rewrite lookup_cleared_rows by done.
      destruct (steps s !! k); [|done]. case_decide; congruence. }
    split_and!.
    + apply map_empty. intros k. apply eq_None_not_Some. intros [r Hr].
      apply map_lookup_filter_Some in Hr as [Hr Her]. by eapply Hgone.
    + apply elem_of_nil_inv. intros r [[k Hk] Her]%elem_of_rows_of.
      by eapply Hgone.
    + apply lookup_delete_eq.
Qed.

(** ** The delayed post-capture *)

(** C6.  When the active episode of the settings read at fire time is
    absent or is not the episode of the step, the post-capture returns
    at once, without an error: its first operation is its last, the
    store is unchanged (no row of any episode is created or changed) and
    no timer is registered. *)
Theorem C6_stale_post_capture (w : env) (t : timer) (s : store) :
  active_episode (settings_of s) ≠ Some (tm_episode t) →
  run (post_capture w t) s = (inl tt, s, [])
  ∧ step1 (post_capture w t) s = (Ret tt, s, [])
  ∧ (∀ sys i, sys_store sys = s → sys_timers sys !! i = Some t →
       occur (TimerFires w i) sys
       = {| sys_store := s; sys_timers := delete i (sys_timers sys) |}).
Proof.
  intros Hstale.
  assert (run (post_capture w t) s = (inl tt, s, [])
          ∧ step1 (post_capture w t) s = (Ret tt, s, [])) as [Hrun Hstep].
  { unfold post_capture. simpl.
    destruct (active_episode (settings_of s)) as [e|] eqn:Hact; [|done].
    destruct (settings_of s) as [s3|]; [|done].
    destruct (String.eqb_spec e (tm_episode t)) as [->|Hne]; [done|].
    done. }
  split_and!; try done.
  intros sys i <- Hi. simpl. rewrite Hi. unfold handle. rewrite Hrun.
  by rewrite app_nil_r.
Qed.

(** ** Start *)

(** C8.  When the injection of the capture script into the active tab
    fails, the start request still completes and is answered: the episode
    record is created, the persisted settings say recording, name the new
    episode and count zero steps, and their status message is the warning
    that carries the error, not the message of success; a status request
    then reports these settings.  (The answer to the start request itself
    is built with the fixed text of success.) *)
Theorem C8_injection_failure (w w' : env) (opts : option options)
    (s : store) (tabId : nat) (error : string) :
  env_active_tab w = Some (S tabId) →
  env_injected w = InjectFailed error →
  let s' := exec (onMessage w (RECORDER_START opts)) s in
  let st' :=
    {| isRecording := true; episodeId := Some (env_uuid w);
       startedAt := Some (env_now w); stepCount := 0;
       lastMessage := inject_warning error;
       options_of :=
         merge_options (from_option options_of empty_options (settings_of s))
                       (default empty_options opts) |} in
  s' = exec (startRecording w opts) s
  ∧ (run (onMessage w (RECORDER_START opts)) s).1.1
    = inl (Some (RStarted (env_uuid w) 0 started_message))
  ∧ settings_of s' = Some st'
  ∧ lastMessage st' ≠ started_message
  ∧ episodes s' !! env_uuid w
    = Some {| episode_id := env_uuid w; created_at := env_now_iso w;
              browser_name := "chromium"; origin_type := "extension_mvp";
              origin_build := "0.1.0" |}
  ∧ steps s' = steps s
  ∧ (run (onMessage w' RECORDER_GET_STATUS) s').1.1
    = inl (Some (RSettings (Some st'))).
Proof.
  intros Htab Hinj s' st'. unfold s', exec, onMessage, startRecording.
  simpl. rewrite Htab. simpl. rewrite Hinj.
  split_and!; try done.
  simpl. apply lookup_insert_eq.
Qed.

(** ** Episodes that are no longer active *)

Definition occur_all (os : list occurrence) (sys : system) : system :=
  foldl (λ acc o, occur o acc) sys os.

(** C10, amended.  When the handlers run one after the other, each to its
    end before the next starts: step rows and episode record of an
    episode that is not the active one are left unchanged by every
    handler (clear, start of another episode, stop, options, export, step
    events, post-captures, navigations), so by every sequence of them:
    they stay in the store.  Clear in particular removes rows and episode
    record of the active episode only. *)
Theorem C10_inactive_episode_kept (sys : system) (e : string)
    (os : list occurrence) :
  rows_consistent (steps (sys_store sys)) →
  active_episode (settings_of (sys_store sys)) ≠ Some e →
  Forall (λ o, ¬ started_by o e) os →
  let s := sys_store sys in
  let s' := sys_store (occur_all os sys) in
  episode_rows e (steps s') = episode_rows e (steps s)
  ∧ episodes s' !! e = episodes s !! e
  ∧ active_episode (settings_of s') ≠ Some e.
Proof.
  intros Hm Hact Hos. simpl.
  revert sys Hm Hact. induction Hos as [|o os Ho _ IH]; intros sys Hm Hact.
  { done. }
  simpl.
  assert (store_effect (λ u, u ≠ e) (sys_store sys) (sys_store (occur o sys)))
    as Heff.
  { eapply store_effect_mono; [|apply occur_effect].
    intros u Hu ->. by apply Ho. }
  destruct (effect_frame e _ _ Heff Hm Hact) as (Hr & He & Ha).
  destruct (IH (occur o sys)) as (Hr' & He' & Ha'); [|done|].
  { by eapply effect_rows_consistent. }
  split_and!; [by rewrite Hr'|by rewrite He'|done].
Qed.

(** ** Export *)

Lemma run_export w s st e ep :
  settings_of s = Some st → active_episode (Some st) = Some e →
  episodes s !! e = Some ep →
  run (onMessage w RECORDER_EXPORT) s
  = (inl (Some (RExport
            {| out_episode_id := episode_id ep;
               out_created_at := created_at ep;
               out_browser := browser_name ep;
               out_origin := (origin_type ep, origin_build ep);
               out_options := options_of st;
               out_steps := map step (idbGetStepsForEpisode e (steps s)) |}
            e (length (idbGetStepsForEpisode e (steps s))) "Exported.")),
     s, []).
Proof.
  intros Hst He Hep. unfold onMessage, export. simpl.
  rewrite Hst. rewrite He. simpl. by rewrite Hep.
Qed.

Lemma run_export_none w s :
  active_episode (settings_of s) = None →
  run (onMessage w RECORDER_EXPORT) s = (inl (Some RNoEpisode), s, []).
Proof.
  intros He. unfold onMessage, export. simpl. by rewrite He.
Qed.

(** C3, amended.  In every state that the worker reaches with its
    handlers run one after the other, each to its end before the next
    starts, the export of the active
    episode succeeds and leaves the store as it is; the step numbers of
    the exported steps are 0, 1, ..., stepCount - 1 in this order
    (strictly ascending, no gap, no duplicate), where stepCount is both
    the count of the response and the counter of the settings; and the
    exported steps are the steps of all the rows of the episode, so a
    pending step, whose post and derived are null, is among them. *)
Theorem C3_export_ordered (sys : system) (w : env) :
  reachable sys →
  let s := sys_store sys in
  match active_episode (settings_of s), settings_of s with
  | Some e, Some st =>
      ∃ ep,
        run (onMessage w RECORDER_EXPORT) s
        = (inl (Some (RExport ep e (stepCount st) "Exported.")), s, [])
        ∧ sr_step_number <$> out_steps ep = seq 0 (stepCount st)
        ∧ length (out_steps ep) = stepCount st
        ∧ (∀ sr, sr ∈ out_steps ep ↔
             ∃ k r, steps s !! k = Some r ∧ row_episode_id r = e
                    ∧ step r = sr)
  | _, _ =>
      run (onMessage w RECORDER_EXPORT) s = (inl (Some RNoEpisode), s, [])
  end.
Proof.
  intros Hreach s. pose proof (reachable_invariant sys Hreach) as Hinv.
  fold s in Hinv.
  destruct (active_episode (settings_of s)) as [e|] eqn:He;
    [|by apply run_export_none].
  destruct (active_settings _ _ He) as (st & Hst & He'). rewrite Hst.
  destruct Hinv as [Hm Hc].
  destruct (Hc _ _ Hst He') as [_ [ep Hep]].
  pose proof (rows_of_numbers s st e (conj Hm Hc) Hst He') as Hnum.
  assert (length (idbGetStepsForEpisode e (steps s)) = stepCount st) as Hlen.
  { rewrite <- (length_fmap step_number), Hnum. apply length_seq. }
  eexists. split_and!.
  - rewrite (run_export w s st e ep) by done. by rewrite Hlen.
  - simpl. rewrite <- Hnum, <- list_fmap_compose.
    apply Forall_fmap_ext. apply Forall_forall.
    intros r [[k Hk] _]%elem_of_idbGetStepsForEpisode. simpl.
    by destruct (Hm _ _ Hk) as (_ & _ & ?).
  - simpl. by rewrite length_map.
  - intros sr. simpl. rewrite list_elem_of_fmap. split.
    + intros (r & -> & [[k Hk] Hr]%elem_of_idbGetStepsForEpisode). eauto.
    + intros (k & r & Hk & Hr & <-). exists r. split; [done|].
      apply elem_of_idbGetStepsForEpisode. eauto.
Qed.

(** ** Step events handled one after the other *)

Lemma run_step_event w tab ev s n s' ts :
  run (onMessage w (RECORDER_EVENT tab ev)) s = (inl (Some (RStep n)), s', ts) →
  ∃ st e r t,
    settings_of s = Some st ∧ active_episode (Some st) = Some e
    ∧ n = stepCount st
    ∧ step_key r = make_key e n ∧ row_episode_id r = e ∧ step_number r = n
    ∧ post (step r) = None
    ∧ steps s' = <[make_key e n := r]> (steps s)
    ∧ (∃ st', settings_of s' = Some st' ∧ stepCount st' = n + 1
              ∧ active_episode (Some st') = Some e
              ∧ isRecording st' = isRecording st)
    ∧ ts = [t] ∧ tm_episode t = e ∧ tm_step t = n.
Proof.
  unfold onMessage, onStepEvent. simpl.
  destruct (settings_of s) as [st|] eqn:Hst; simpl; [|done].
  destruct (episodeId st) as [e|] eqn:He; simpl; [|done].
  destruct (truthy e) eqn:Hte; simpl; [|done].
  destruct tab as [[|tabId]|]; simpl; try done.
  destruct (isRecording st) eqn:Hrec; simpl; [|done].
  destruct (env_tab w) as [err|tab]; simpl; [done|].
  destruct (flag (captureScreenshots (options_of st))); simpl;
    intros [= <- <- <-]; eexists st, e, _, _; simpl;
    rewrite ?He, ?Hte; split_and!; try done; eauto with lia.
  all: eexists; split_and!; try done; simpl; by rewrite ?He, ?Hte.
Qed.

(** Two step events handled one after the other get consecutive numbers
    and two rows. *)
Lemma sequential_steps_distinct w1 w2 tab1 tab2 ev1 ev2 s n1 n2 s1 s2 ts1 ts2 :
  run (onMessage w1 (RECORDER_EVENT tab1 ev1)) s
    = (inl (Some (RStep n1)), s1, ts1) →
  run (onMessage w2 (RECORDER_EVENT tab2 ev2)) s1
    = (inl (Some (RStep n2)), s2, ts2) →
  n2 = n1 + 1
  ∧ ∃ e r1 r2, steps s2 !! make_key e n1 = Some r1
               ∧ steps s2 !! make_key e n2 = Some r2
               ∧ step_number r1 = n1 ∧ step_number r2 = n2.
Proof.
  intros (st & e & r1 & t1 & Hst & He & -> & _ & _ & Hn1 & _ & Hsteps1
          & (st1 & Hst1 & Hc1 & He1 & _) & _)%run_step_event
         (st' & e' & r2 & t2 & Hst' & He' & -> & _ & _ & Hn2 & _ & Hsteps2
          & _)%run_step_event.
  rewrite Hst1 in Hst'. injection Hst' as <-.
  rewrite He1 in He'. injection He' as <-.
  split; [done|]. exists e, r1, r2. rewrite Hsteps2, Hsteps1, Hc1.
  split_and!; try done.
  - rewrite lookup_insert_ne, lookup_insert_eq; [done|].
    intros [_ ?]%make_key_inj. lia.
  - by rewrite lookup_insert_eq.
  - by rewrite Hn2.
Qed.

(** ** A sample session *)

Definition sample_tab : tab_info :=
  {| tab_url := "https://example.test/"; tab_title := "Example" |}.

Definition world (uuid : string) : env :=
  {| env_uuid := uuid; env_now_iso := "2024-01-01T00:00:00.000Z";
     env_now := 0; env_active_tab := Some 7; env_injected := Injected;
     env_tab := inr sample_tab; env_shot := ShotErr "no window";
     env_post := PostNull |}.

Definition click_event : bg_event :=
  {| be_action := Some (ActClick 10 20 None); be_pre := None;
     be_t_ms := Some 100%Z; be_t_iso := None |}.
Definition key_event : bg_event :=
  {| be_action := Some (ActKey ["Enter"] None); be_pre := None;
     be_t_ms := Some 130%Z; be_t_iso := None |}.

(** Recording of episode A has started. *)
Definition recording : system :=
  occur (Message (world "A") (RECORDER_START None)) boot.

(** The two events, each handled to its end before the next. *)
Definition after_click : system :=
  occur (Message (world "s1") (RECORDER_EVENT (Some 7) click_event)) recording.
Definition after_key : system :=
  occur (Message (world "s2") (RECORDER_EVENT (Some 7) key_event)) after_click.
(** The post-capture of the click has run; the one of the key has not. *)
Definition one_finalized : system :=
  occur (TimerFires (world "") 0) after_key.

(** Episode A is cleared and episode B is started while the
    post-capture of the click is still pending. *)
Definition restarted : system :=
  occur (Message (world "B") (RECORDER_START None))
    (occur (Message (world "") RECORDER_CLEAR) after_click).

(** The listeners of the two events, both in flight. *)
Definition two_handlers : list (proc (option response)) :=
  [ onMessage (world "s1") (RECORDER_EVENT (Some 7) click_event);
    onMessage (world "s2") (RECORDER_EVENT (Some 7) key_event) ].

(** The second listener reads the settings before the first has written
    them back. *)
Definition close_schedule : list nat := [0; 1; 0; 0; 0; 0; 0; 1; 1; 1; 1; 1].

(** C1, on the code.  Two step events of the same episode whose handling
    interleaves: both listeners read the counter 0, both answer with step
    number 0, and the row of the second replaces the row of the first
    under the key A:0; one row is left and the counter is 1. *)
Theorem C1_close_events_collide :
  let '(threads, s', ts) :=
    interleave close_schedule two_handlers (sys_store recording) [] in
  threads = [Ret (Some (RStep 0)); Ret (Some (RStep 0))]
  ∧ (map_to_list (steps s')).*1 = ["A:0"]
  ∧ (step_id ∘ step) <$> steps s' !! "A:0" = Some "s2"
  ∧ stepCount <$> settings_of s' = Some 1
  ∧ tm_step <$> ts = [0; 0].
Proof. vm_compute. by repeat split. Qed.

(** The same two events handled one after the other. *)
Example one_after_the_other :
  (map_to_list (steps (sys_store after_key))).*1 = ["A:1"; "A:0"]
  ∧ stepCount <$> settings_of (sys_store after_key) = Some 2.
Proof. vm_compute. by repeat split. Qed.

(** ** The properties on the sample session *)

Lemma fresh_on_boot u : u ≠ "" → fresh_uuid u (sys_store boot).
Proof.
  intros Hu. split_and!; [done|done|].
  intros k r. rewrite boot_store. simpl. by rewrite lookup_empty.
Qed.

Lemma recording_reachable : reachable recording.
Proof. apply reach_occur; [apply reach_boot|]. by apply fresh_on_boot. Defined.

Lemma one_finalized_reachable : reachable one_finalized.
Proof.
  repeat (apply reach_occur; [|exact I]). exact recording_reachable.
Defined.

(** ** Handlers that overlap: the export *)

(** A listener of a message that the worker may receive in [sys]. *)
Definition listener_in (sys : system) (p : proc (option response)) : Prop :=
  ∃ w msg, p = onMessage w msg ∧ admissible (Message w msg) sys.

(** C3 as the claim is written.  Nothing in it restricts how the handlers
    in flight take their turns: in a state that the worker has reached,
    with listeners in flight under any schedule, an export that is
    answered lists the step numbers 0, 1, ..., c - 1 for some count c. *)
Definition export_as_written : Prop :=
  ∀ sys threads sched i out e n m,
    reachable sys →
    Forall (listener_in sys) threads →
    (interleave sched threads (sys_store sys) []).1.1 !! i
      = Some (Ret (Some (RExport out e n m))) →
    ∃ c, sr_step_number <$> out_steps out = seq 0 c.

(** A clear and an export, both in flight on the two steps of episode A. *)
Definition clear_and_export : list (proc (option response)) :=
  [ onMessage (world "") RECORDER_CLEAR;
    onMessage (world "") RECORDER_EXPORT ].

(** The clear reads the settings (in the listener and in [clearAll]),
    reads the rows and deletes the row of step 0; then the export reads
    the settings twice, the episode record and the rows, and answers. *)
Definition lockstep_schedule : list nat := [0; 0; 0; 0; 1; 1; 1; 1].

Lemma after_key_reachable : reachable after_key.
Proof.
  repeat (apply reach_occur; [|exact I]). exact recording_reachable.
Qed.

Lemma lockstep_export :
  ∃ out,
    (interleave lockstep_schedule clear_and_export (sys_store after_key) [])
      .1.1 !! 1
    = Some (Ret (Some (RExport out "A" 1 "Exported.")))
    ∧ sr_step_number <$> out_steps out = [1].
Proof. vm_compute. eexists. split; reflexivity. Qed.

(** C3, counterexample.  Episode A has the steps 0 and 1.  An export
    that runs while a clear is deleting the rows reads the rows after
    step 0 was deleted and before step 1 is: it answers with the one
    step 1 and the count 1, so the exported step numbers do not start
    at 0. *)
Lemma C3_counterexample : ¬ export_as_written.
Proof.
  intros H. destruct lockstep_export as (out & Hanswer & Hnumbers).
  destruct (H after_key clear_and_export lockstep_schedule 1 out "A" 1
              "Exported." after_key_reachable) as [c Hc].
  - apply Forall_cons_2; [|apply Forall_cons_2; [|apply Forall_nil_2]];
      eexists _, _; (split; [reflexivity|exact I]).
  - exact Hanswer.
  - rewrite Hnumbers in Hc. by destruct c.
Qed.

Lemma C3_witness :
  ∃ ep,
    run (onMessage (world "") RECORDER_EXPORT) (sys_store one_finalized)
    = (inl (Some (RExport ep "A" 2 "Exported.")), sys_store one_finalized, [])
    ∧ sr_step_number <$> out_steps ep = [0; 1]
    ∧ length (out_steps ep) = 2
    ∧ (∀ sr, sr ∈ out_steps ep ↔
         ∃ k r, steps (sys_store one_finalized) !! k = Some r
                ∧ row_episode_id r = "A" ∧ step r = sr).
Proof.
  exact (C3_export_ordered one_finalized (world "") one_finalized_reachable).
Defined.

(** In the export of the sample session the first step is finalized and
    the second is pending. *)
Example pending_step_exported :
  match (run (onMessage (world "") RECORDER_EXPORT)
           (sys_store one_finalized)).1.1 with
  | inl (Some (RExport ep _ _ _)) =>
      (λ sr, (sr_step_number sr, bool_decide (post sr = None)))
        <$> out_steps ep = [(0, false); (1, true)]
  | _ => False
  end.
Proof. vm_compute. done. Qed.

Lemma rows_consistent_after_key :
  rows_consistent (steps (sys_store after_key)).
Proof.
  apply reachable_invariant.
  repeat (apply reach_occur; [|exact I]). exact recording_reachable.
Defined.

Lemma C5_witness :
  let s := sys_store after_key in
  let s1 := exec (onMessage (world "") RECORDER_CLEAR) s in
  let s2 := exec (onMessage (world "") RECORDER_CLEAR) s1 in
  s1 = exec clearAll s
  ∧ s2 = s1
  ∧ settings_of s1 = Some cleared_settings
  ∧ (isRecording cleared_settings = false
     ∧ episodeId cleared_settings = None
     ∧ stepCount cleared_settings = 0
     ∧ options_of cleared_settings = default_options)
  ∧ (run (onMessage (world "") RECORDER_CLEAR) s).1.1
    = (run (onMessage (world "") RECORDER_CLEAR) s1).1.1
  ∧ (∀ e, active_episode (settings_of s) = Some e →
       episode_rows e (steps s1) = ∅ ∧ rows_of e (steps s1) = []
       ∧ episodes s1 !! e = None).
Proof.
  exact (C5_clear_idempotent (world "") (world "") (sys_store after_key)
           rows_consistent_after_key).
Defined.

(** The timer registered by the click of episode A. *)
Definition click_timer : timer :=
  default (Timer "" 0 0 (make_observation blank_settings sample_tab 0 None None) 0)
          (sys_timers restarted !! 0).

Lemma C6_witness :
  tm_episode click_timer = "A"
  ∧ active_episode (settings_of (sys_store restarted)) = Some "B"
  ∧ run (post_capture (world "") click_timer) (sys_store restarted)
    = (inl tt, sys_store restarted, [])
  ∧ rows_of "B" (steps (sys_store (occur (TimerFires (world "") 0) restarted)))
    = [].
Proof.
  assert (active_episode (settings_of (sys_store restarted))
          ≠ Some (tm_episode click_timer)) as Hstale
    by (vm_compute; discriminate).
  destruct (C6_stale_post_capture (world "") click_timer
              (sys_store restarted) Hstale) as (Hrun & _ & Hsys).
  split_and!; [reflexivity|reflexivity|exact Hrun|].
  rewrite (Hsys restarted 0 eq_refl eq_refl). reflexivity.
Defined.

Lemma C8_witness :
  let w := {| env_uuid := "A"; env_now_iso := "2024-01-01T00:00:00.000Z";
              env_now := 0; env_active_tab := Some 7;
              env_injected := InjectFailed "Cannot access a chrome:// URL";
              env_tab := inr sample_tab; env_shot := ShotErr "no window";
              env_post := PostNull |} in
  let s' := exec (onMessage w (RECORDER_START None)) (sys_store boot) in
  (isRecording <$> settings_of s') = Some true
  ∧ (episodeId <$> settings_of s') = Some (Some "A")
  ∧ (stepCount <$> settings_of s') = Some 0
  ∧ (lastMessage <$> settings_of s')
    = Some "Recording started, but could not access the active tab: Cannot access a chrome:// URL"
  ∧ is_Some (episodes s' !! "A").
Proof.
  intros w s'.
  destruct (C8_injection_failure w (world "") None (sys_store boot) 6
              "Cannot access a chrome:// URL" eq_refl eq_refl)
    as (_ & _ & Hst & _ & Hep & _).
  fold s' in Hst, Hep. rewrite Hst. split_and!; try reflexivity.
  eexists. exact Hep.
Defined.

(** ** Handlers that overlap: an episode that is no longer active *)

(** C10 as the claim is written.  Nothing in it restricts how the
    handlers in flight take their turns: with listeners in flight under
    any schedule, none of which starts the episode [e] again, once [e] is
    not the active episode its rows and its record stay as they are,
    whatever the listeners do from then on. *)
Definition inactive_kept_as_written : Prop :=
  ∀ sys threads before after e,
    reachable sys →
    Forall (λ p, ∃ w msg, p = onMessage w msg
                          ∧ ¬ started_by (Message w msg) e) threads →
    let r1 := interleave before threads (sys_store sys) [] in
    let s1 := r1.1.2 in
    let s2 := (interleave after r1.1.1 s1 r1.2).1.2 in
    active_episode (settings_of s1) ≠ Some e →
    episode_rows e (steps s2) = episode_rows e (steps s1)
    ∧ episodes s2 !! e = episodes s1 !! e.

(** A start of episode B and a key event, both in flight while episode A
    is recorded. *)
Definition start_and_event : list (proc (option response)) :=
  [ onMessage (world "B") (RECORDER_START None);
    onMessage (world "s2") (RECORDER_EVENT (Some 7) key_event) ].

(** The listener of the event reads the settings, which name episode A;
    then the start runs to its end. *)
Definition start_overtakes : list nat := [1; 0; 0; 0; 0; 0; 0; 0; 0; 0; 0].
(** Then the listener of the event runs to its end. *)
Definition event_resumes : list nat := [1; 1; 1; 1; 1; 1; 1].

Lemma after_click_reachable : reachable after_click.
Proof.
  repeat (apply reach_occur; [|exact I]). exact recording_reachable.
Qed.

(** C10, counterexample.  Episode A has one step when episode B is
    started.  A listener of a step event that read the settings before
    the start completed goes on after it: it puts a second row of A and
    writes its copy of the settings back, which makes A the active
    episode again.  The rows of A have changed after A had ceased to be
    active, and not by a clear. *)
Lemma C10_counterexample : ¬ inactive_kept_as_written.
Proof.
  intros H.
  pose proof (H after_click start_and_event start_overtakes event_resumes
                "A" after_click_reachable) as H'.
  cbv zeta in H'. destruct H' as [Hrows _].
  - apply Forall_cons_2; [|apply Forall_cons_2; [|apply Forall_nil_2]];
      eexists _, _; (split; [reflexivity|]);
      intros (w & opts & Ho & Hu);
      [injection Ho as <- _; discriminate Hu|discriminate Ho].
  - vm_compute. discriminate.
  - apply (f_equal size) in Hrows. vm_compute in Hrows. discriminate.
Qed.

Lemma C10_witness :
  episode_rows "A" (steps (sys_store
     (occur_all [Message (world "") RECORDER_CLEAR;
                 Message (world "s9") (RECORDER_EVENT (Some 7) key_event);
                 TimerFires (world "") 0]
        (occur (Message (world "B") (RECORDER_START None)) after_key))))
  = episode_rows "A" (steps (sys_store after_key))
  ∧ size (episode_rows "A" (steps (sys_store after_key))) = 2.
Proof.
  split; [|reflexivity].
  refine (proj1 (C10_inactive_episode_kept
            (occur (Message (world "B") (RECORDER_START None)) after_key)
            "A" [Message (world "") RECORDER_CLEAR;
                 Message (world "s9") (RECORDER_EVENT (Some 7) key_event);
                 TimerFires (world "") 0] _ _ _)).
  - eapply effect_rows_consistent; [apply occur_effect|].
    exact rows_consistent_after_key.
  - vm_compute. discriminate.
  - repeat constructor; intros (w & opts & Ho & _); discriminate.
Defined.

End BackgroundProps.

(* ===================================================================== *)
(** * Part II.d  Further properties of the content script *)
(* ===================================================================== *)

Module ContentRestProps.
Import Js JsFacts Content ContentProps ContentRest.

(** ** Captured attributes *)

Lemma elem_of_safeAttrs_in el keys k v :
  (k, v) ∈ safeAttrs_in el keys
  ↔ k ∈ keys ∧ getAttribute el k = Some v ∧ v ≠ ""
    ∧ (String.length v ≤ 200)%nat.
Proof.
  induction keys as [|k' keys IH]; simpl.
  { rewrite elem_of_nil. split; [done|]. intros [[]%elem_of_nil _]. }
  assert ((k, v) ∈ safeAttrs_in el keys ∨
          (k = k' ∧ getAttribute el k = Some v ∧ v ≠ ""
           ∧ (String.length v ≤ 200)%nat)
          ↔ k ∈ k' :: keys ∧ getAttribute el k = Some v ∧ v ≠ ""
            ∧ (String.length v ≤ 200)%nat) as Hsplit.
  { rewrite IH, elem_of_cons. tauto. }
  rewrite <- Hsplit. clear Hsplit IH.
  destruct (getAttribute el k') as [v'|] eqn:Hk'.
  - destruct (truthy v') eqn:Ht; simpl.
    + destruct (Nat.leb_spec (String.length v') 200) as [Hle|Hgt].
      * rewrite elem_of_cons. apply truthy_true in Ht.
        split; [intros [[= -> ->]|?]; eauto|].
        intros [?|(-> & Hv & _)]; [by right|]. left. congruence.
      * split; [by left|]. intros [?|(-> & Hv & _ & Hlen)]; [done|].
        rewrite Hk' in Hv. injection Hv as ->. lia.
    + apply truthy_false in Ht. split; [by left|].
      intros [?|(-> & Hv & Hne & _)]; [done|]. congruence.
  - split; [by left|]. intros [?|(-> & Hv & _)]; [done|]. congruence.
Qed.

Lemma safeAttrs_in_keys el keys : sublist (safeAttrs_in el keys).*1 keys.
Proof.
  induction keys as [|k keys IH]; simpl; [constructor|].
  destruct (getAttribute el k) as [v|]; [|by constructor].
  destruct (truthy v && (String.length v <=? 200)%nat); simpl;
    by constructor.
Qed.

(** X1.  The captured attributes of an element are exactly the attributes
    of the allow-list that are present with a non-empty value of at most
    200 characters, each with its value; they follow the order of the
    allow-list, each name once.  Nothing is captured of a node that is not
    an element. *)
Theorem X1_safeAttrs_exact (el : element) :
  (∀ k v, (k, v) ∈ safeAttrs el
          ↔ nodeType el = 1 ∧ k ∈ safe_keys ∧ getAttribute el k = Some v
            ∧ v ≠ "" ∧ (String.length v ≤ 200)%nat)
  ∧ sublist (safeAttrs el).*1 safe_keys
  ∧ NoDup (safeAttrs el).*1.
Proof.
  unfold safeAttrs.
  destruct (Nat.eqb_spec (nodeType el) 1) as [Hel|Hel]; simpl negb; cbv iota.
  - split_and!.
    + intros k v. rewrite elem_of_safeAttrs_in. tauto.
    + apply safeAttrs_in_keys.
    + apply (sublist_NoDup _ safe_keys); [|apply safeAttrs_in_keys].
      apply (bool_decide_unpack _). by vm_compute.
  - split_and!.
    + intros k v. rewrite elem_of_nil. tauto.
    + apply sublist_nil_l.
    + constructor.
Qed.

(** ** Target resolution *)

Lemma resolved_is_element e t :
  resolveTargetFromEvent e = Some t → nodeType t = 1.
Proof.
  unfold resolveTargetFromEvent.
  destruct (filter (λ n, nodeType n = 1) (composedPath e)) as [|n l] eqn:Hf.
  - destruct (ev_target e) as [t'|]; [|done].
    destruct (Nat.eqb_spec (nodeType t') 1); [|done]. by intros [= <-].
  - intros [= <-].
    assert (n ∈ filter (λ n, nodeType n = 1) (composedPath e)) as Hin
      by (rewrite Hf; by left).
    by apply list_elem_of_filter in Hin as [? _].
Qed.

(** X2.  The resolved target of an event is always an element node.  The
    first element node of the composed path wins, whatever the event's
    own target is; the target is used only when the path holds no element
    node, and only when it is an element node itself. *)
Theorem X2_target_resolution (e : dom_event) :
  (∀ t, resolveTargetFromEvent e = Some t → nodeType t = 1)
  ∧ (∀ before t rest,
       composedPath e = (before ++ t :: rest)%list →
       Forall (λ n, nodeType n ≠ 1) before → nodeType t = 1 →
       resolveTargetFromEvent e = Some t)
  ∧ (Forall (λ n, nodeType n ≠ 1) (composedPath e) →
       resolveTargetFromEvent e
       = match ev_target e with
         | Some t => if (nodeType t =? 1)%nat then Some t else None
         | None => None
         end).
Proof.
  split_and!; [|unfold resolveTargetFromEvent..].
  - intros t. apply resolved_is_element.
  - intros before t rest -> Hbefore Ht.
    rewrite filter_app, filter_cons, decide_True by done.
    assert (filter (λ n, nodeType n = 1) before = []) as ->; [|done].
    induction Hbefore as [|n l Hn _ IH]; [done|].
    by rewrite filter_cons, decide_False.
  - intros Hnone.
    assert (filter (λ n, nodeType n = 1) (composedPath e) = []) as ->; [|done].
    induction Hnone as [|n l Hn _ IH]; [done|].
    by rewrite filter_cons, decide_False.
Qed.

(** ** The listing of the scan *)

Lemma slice0_length n s : (String.length (slice0 n s) ≤ n)%nat.
Proof.
  revert s. induction n as [|n IH]; intros [|c s]; simpl; try lia.
  specialize (IH s). lia.
Qed.

(** What the loop of the scan keeps of a candidate. *)
Definition kept (doc : document) (el : element) : Prop :=
  isVisible el = true ∧ name_filtered_out (accessibleName doc el) = false.

Lemma scan_provenance doc limit cands items :
  ∃ els, sublist els cands ∧ Forall (kept doc) els
         ∧ scan doc limit cands items = (items ++ (item_of doc <$> els))%list.
Proof.
  revert items. induction cands as [|el rest IH]; intros items.
  { exists []. simpl. by rewrite app_nil_r. }
  simpl scan. destruct (isVisible el) eqn:Hvis; simpl negb; cbv iota.
  2:{ destruct (IH items) as (els & Hsub & Hkept & Heq).
      exists els. split_and!; [by constructor|done|done]. }
  destruct (name_filtered_out (accessibleName doc el)) eqn:Hname.
  { destruct (IH items) as (els & Hsub & Hkept & Heq).
    exists els. split_and!; [by constructor|done|done]. }
  fold (item_of doc el).
  destruct (limit * 2 <=? length (items ++ [item_of doc el]))%nat.
  - exists [el]. split_and!.
    + constructor. apply sublist_nil_l.
    + by repeat constructor.
    + done.
  - destruct (IH (items ++ [item_of doc el])%list) as (els & Hsub & Hkept & Heq).
    exists (el :: els). split_and!.
    + by constructor.
    + by constructor.
    + rewrite Heq, <- app_assoc. done.
Qed.

Lemma scan_length doc limit cands items :
  (length items < scan_bound limit)%nat →
  (length (scan doc limit cands items) ≤ scan_bound limit)%nat.
Proof.
  revert items. induction cands as [|el rest IH]; intros items Hlen; simpl.
  { lia. }
  destruct (isVisible el); simpl; [|by apply IH].
  destruct (name_filtered_out (accessibleName doc el)); [by apply IH|].
  destruct (Nat.leb_spec (limit * 2) (length (items ++ [make_item doc el
             (accessibleName doc el)]))) as [Hfull|Hroom].
  - rewrite length_app in *. simpl in *. unfold scan_bound in *. lia.
  - apply IH. unfold scan_bound. lia.
Qed.

(** X3.  The scan collects at most twice the limit of candidates (one
    when the limit is zero), in document order, and only candidates that
    are visible and have a name; every entry of the listing describes such
    a candidate of the page, and its label is not empty and has at most
    140 characters. *)
Theorem X3_listed_items (doc : document) (limit : nat) :
  (length (scan doc limit (candidates doc) []) ≤ Nat.max 1 (2 * limit))%nat
  ∧ (∃ els, sublist els (candidates doc) ∧ Forall (kept doc) els
            ∧ scan doc limit (candidates doc) [] = item_of doc <$> els)
  ∧ (∀ k it, (k, it) ∈ selector_map (listInteractables doc limit) →
       (∃ el, el ∈ candidates doc ∧ kept doc el ∧ it = item_of doc el)
       ∧ it_label it ≠ ""
       ∧ (String.length (it_label it) ≤ 140)%nat).
Proof.
  destruct (scan_provenance doc limit (candidates doc) [])
    as (els & Hsub & Hkept & Heq).
  split_and!.
  - apply scan_length. unfold scan_bound. simpl. lia.
  - by exists els.
  - intros k it Hin.
    assert (it ∈ ranked doc limit) as Hit.
    { rewrite <- listInteractables_items. apply list_elem_of_fmap.
      by exists (k, it). }
    unfold ranked, rank_and_trim in Hit.
    apply elem_of_take in Hit as (i & Hi%list_elem_of_lookup_2 & _).
    rewrite (sort_perm rank_cmp), Heq in Hi.
    apply list_elem_of_fmap in Hi as (el & -> & Hel).
    rewrite Forall_forall in Hkept. pose proof (Hkept el Hel) as [Hvis Hname].
    split_and!.
    + exists el. split_and!; [|done|done].
      by eapply elem_of_sublist.
    + unfold item_of, make_item. cbn [it_label].
      unfold name_filtered_out in Hname.
      apply orb_false_iff in Hname as [_ Hname%negb_false_iff].
      apply truthy_true.
      by rewrite (slice0_truthy 139 (trim (accessibleName doc el))).
    + unfold item_of, make_item. cbn [it_label]. apply slice0_length.
Qed.

Definition line_of (entry : string * item) : string :=
  "[" +:+ entry.1 +:+ "] " +:+ it_label entry.2.

Lemma render_shape n l :
  (render n l).1.*1 = pretty <$> seq (S n) (length l)
  ∧ (render n l).2 = line_of <$> (render n l).1
  ∧ length (render n l).1 = length l.
Proof.
  revert n. induction l as [|it l IH]; intros n; simpl; [done|].
  destruct (IH (S n)) as (Hk & Hl & Hlen).
  destruct (render (S n) l) as [m lines]. simpl in *.
  split_and!; by f_equal.
Qed.

(** X4.  The two outputs of the scan agree: the keys of the selector map
    are the decimal numbers 1, 2, ..., n in this order, without
    repetition, n is the reported count and is at most the limit, and the
    text has one line per entry, the line of entry k with label l being
    [k] l. *)
Theorem X4_listing_consistent (doc : document) (limit : nat) :
  let ds := listInteractables doc limit in
  (selector_map ds).*1 = pretty <$> seq 1 (elements_count ds)
  ∧ NoDup (selector_map ds).*1
  ∧ elements_count ds = length (selector_map ds)
  ∧ (elements_count ds ≤ limit)%nat
  ∧ llm_representation ds = join newline (line_of <$> selector_map ds)
  ∧ interacted_element ds = None.
Proof.
  unfold listInteractables.
  destruct (render_shape 0 (ranked doc limit)) as (Hk & Hl & Hlen).
  destruct (render 0 (ranked doc limit)) as [m lines]. simpl in *.
  split_and!; try done.
  - rewrite Hk. apply NoDup_fmap; [apply _|apply NoDup_seq].
  - unfold ranked, rank_and_trim. rewrite length_take. lia.
  - by rewrite Hl.
Qed.

(** ** The change listener *)

(** A target for which the focus and change listeners act. *)
Definition text_like (target : element) : Prop :=
  toLowerCase (tagName target) = "input"
  ∨ toLowerCase (tagName target) = "textarea"
  ∨ toLowerCase (tagName target) = "select"
  ∨ isContentEditable target = true.

Lemma text_like_change target :
  text_like target →
  negb (String.eqb (toLowerCase (tagName target)) "select")
  && negb (is_text_input_tag (toLowerCase (tagName target))
           || isContentEditable target) = false.
Proof.
  unfold is_text_input_tag. intros [Ht|[Ht|[Ht|Ht]]]; rewrite Ht; try done.
  rewrite !orb_true_r. simpl. apply andb_false_r.
Qed.

(** X5.  Whenever the change listener sends an event, recording is
    enabled, the action is a select action exactly for a select target and
    an input action otherwise, its target reference is the one of the
    resolved target, the value of an input action has at most 2000
    characters, and the held focus snapshot is dropped. *)
Theorem X5_change_action (doc : document) (st st' : capture_state)
    (e : dom_event) (ev : step_event) :
  onChange doc st e = (st', Some ev) →
  recorderEnabled st = true
  ∧ st' = {| recorderEnabled := true; focusEl := None; focusPre := None |}
  ∧ ∃ target,
      resolveTargetFromEvent e = Some target
      ∧ if String.eqb (toLowerCase (tagName target)) "select"
        then ∃ v, ev_action ev = ActSelect (elementRef doc target) v
        else ∃ v, ev_action ev = ActInput (elementRef doc target) v
                  ∧ (String.length v ≤ 2000)%nat.
Proof.
  unfold onChange.
  destruct (recorderEnabled st) eqn:Hen; simpl negb; cbv iota; [|done].
  destruct (resolveTargetFromEvent e) as [target|]; [|done].
  destruct (negb (String.eqb (toLowerCase (tagName target)) "select")
            && negb (is_text_input_tag (toLowerCase (tagName target))
                     || isContentEditable target)); [done|].
  intros [= <- <-]. split_and!; try done. exists target. split; [done|].
  cbn [ev_action].
  destruct (String.eqb (toLowerCase (tagName target)) "select");
    eexists; [done|]. split; [done|].
  unfold input_value.
  destruct (isSensitiveInput target); [vm_compute; lia|].
  destruct (isContentEditable target); apply slice0_length.
Qed.

(** X6.  A change on the element that was focused is sent with the
    observation taken at focus time, whatever the page has become since;
    a change on another element is sent with a fresh observation of the
    page at change time. *)
Theorem X6_focus_snapshot (doc1 doc2 : document) (st : capture_state)
    (e1 e2 : dom_event) (t1 t2 : element) :
  recorderEnabled st = true →
  resolveTargetFromEvent e1 = Some t1 → text_like t1 →
  resolveTargetFromEvent e2 = Some t2 → text_like t2 →
  let focused := onFocusIn doc1 st e1 in
  ∃ ev, (onChange doc2 focused e2).2 = Some ev
        ∧ ev_pre ev = (if (node_id t1 =? node_id t2)%nat
                       then buildStateSummary doc1 (Some t1) true
                       else buildStateSummary doc2 (Some t2) true).
Proof.
  intros Hen Ht1 Hl1 Ht2 Hl2 focused.
  assert (focused = {| recorderEnabled := true; focusEl := Some t1;
                       focusPre := Some (buildStateSummary doc1 (Some t1) true) |})
    as ->.
  { unfold focused, onFocusIn. rewrite Hen, Ht1. simpl negb. cbv iota.
    destruct Hl1 as [Hl1|[Hl1|[Hl1|Hl1]]]; rewrite Hl1; try done.
    by rewrite andb_false_r. }
  unfold onChange. cbn [recorderEnabled focusEl focusPre negb].
  rewrite Ht2, (text_like_change t2 Hl2).
  eexists. split; [done|]. cbn [ev_pre].
  by destruct (node_id t1 =? node_id t2)%nat.
Qed.

(** ** The disabled recorder *)

(** X7.  After the page was told to disable recording, no listener sends
    anything and none changes the state of the script: not the pointer,
    key, focus and change listeners, not the scroll listener; a scroll
    timeout that fires then sends nothing either. *)
Theorem X7_disabled_is_silent (doc doc' : document) (st : capture_state)
    (ss : scroll_state) (e : ui_event) (now id : nat) :
  let off := (onPageMessage doc st (RECORDER_SET_ENABLED false)).1 in
  recorderEnabled off = false
  ∧ onPointerDown doc' off e = None
  ∧ onKeyDown doc' off e = None
  ∧ onFocusIn doc' off (ui_dom e) = off
  ∧ onChange doc' off (ui_dom e) = (off, None)
  ∧ onScroll (recorderEnabled off) now ss = ss
  ∧ (∀ r, scrollFired doc' (recorderEnabled off) id now ss = Some r →
          r.2 = None).
Proof.
  simpl. split_and!; try done.
  intros r. unfold scrollFired.
  destruct (list_find _ _) as [[? [? deadline]]|]; [|done].
  destruct (deadline <=? now)%nat; [|done]. by intros [= <-].
Qed.

(** ** Pointer and key listeners *)

Lemma elem_of_modifier held name x :
  x ∈ modifier held name ↔ x = name ∧ held = true.
Proof.
  destruct held; simpl.
  - rewrite list_elem_of_singleton. tauto.
  - rewrite elem_of_nil. split; [done|]. by intros [_ ?].
Qed.

(** X8.  A pointer event is sent only when recording is enabled, the
    button is the primary one and a target element resolves.  The click
    then carries the pointer position, a target reference that is never
    null, the same reference as interacted element of the observation,
    and the held modifier keys: each of Alt, Ctrl, Meta, Shift exactly
    when it is held, in this order. *)
Theorem X8_click_record (doc : document) (st : capture_state) (e : ui_event)
    (ev : sent_event) :
  onPointerDown doc st e = Some ev →
  recorderEnabled st = true ∧ button e = 0
  ∧ (∃ target ref,
       resolveTargetFromEvent (ui_dom e) = Some target
       ∧ elementRef doc target = Some ref
       ∧ sent_action_of ev
         = SentClick {| ptr_x := clientX e; ptr_y := clientY e;
                        ptr_button := 0; ptr_modifiers := modifiers e |}
                     (Some ref)
       ∧ interacted_element (obs_dom_state (sent_pre ev)) = Some ref
       ∧ selector_map (obs_dom_state (sent_pre ev))
         = selector_map (listInteractables doc 60))
  ∧ (∀ name, name ∈ modifiers e ↔
       (name = "Alt" ∧ altKey e = true) ∨ (name = "Ctrl" ∧ ctrlKey e = true)
       ∨ (name = "Meta" ∧ metaKey e = true)
       ∨ (name = "Shift" ∧ shiftKey e = true))
  ∧ sublist (modifiers e) ["Alt"; "Ctrl"; "Meta"; "Shift"].
Proof.
  unfold onPointerDown.
  destruct (recorderEnabled st) eqn:Hen; simpl negb; cbv iota; [|done].
  destruct (Nat.eqb_spec (button e) 0) as [Hb|Hb]; simpl negb; cbv iota;
    [|done].
  destruct (resolveTargetFromEvent (ui_dom e)) as [target|] eqn:Ht; [|done].
  intros [= <-]. split_and!; try done.
  - pose proof (resolved_is_element (ui_dom e) target Ht) as Hel.
    assert (∃ ref, elementRef doc target = Some ref) as [ref Href].
    { unfold elementRef. rewrite Hel. by eexists. }
    exists target, ref. cbn [sent_action_of sent_pre].
    unfold sendEvent, pointerInfo, buildStateSummary.
    cbn [obs_dom_state interacted_element selector_map].
    rewrite Href, Hb. by split_and!.
  - intros name. unfold modifiers.
    rewrite !elem_of_app, !elem_of_modifier. tauto.
  - unfold modifiers, modifier.
    destruct (altKey e), (ctrlKey e), (metaKey e), (shiftKey e); simpl;
      repeat first [apply sublist_nil_l | apply sublist_skip
                    | apply sublist_cons ].
Qed.

(** X9.  A key event is sent exactly when recording is enabled and the key
    is Enter, Escape or Tab, also when no target element resolves (the
    target reference is then null).  The observation sent with it holds no
    listing: no scan of the page is made for a key. *)
Theorem X9_key_record (doc : document) (st : capture_state) (e : ui_event) :
  (is_Some (onKeyDown doc st e)
   ↔ recorderEnabled st = true ∧ key e ∈ ["Enter"; "Escape"; "Tab"])
  ∧ (∀ ev, onKeyDown doc st e = Some ev →
       sent_action_of ev
       = SentKey [key e] (resolveTargetFromEvent (ui_dom e) ≫= elementRef doc)
                 {| ki_key := key e; ki_code := code e;
                    ki_modifiers := modifiers e |}
       ∧ selector_map (obs_dom_state (sent_pre ev)) = []
       ∧ llm_representation (obs_dom_state (sent_pre ev)) = ""
       ∧ elements_count (obs_dom_state (sent_pre ev)) = 0
       ∧ interacted_element (obs_dom_state (sent_pre ev))
         = resolveTargetFromEvent (ui_dom e) ≫= elementRef doc).
Proof.
  assert (shouldRecordKey e = true ↔ key e ∈ ["Enter"; "Escape"; "Tab"])
    as Hkey.
  { unfold shouldRecordKey. rewrite !orb_true_iff, !elem_of_cons, elem_of_nil.
    rewrite !String.eqb_eq. tauto. }
  unfold onKeyDown. split.
  - destruct (recorderEnabled st); simpl negb; cbv iota.
    + rewrite <- Hkey. destruct (shouldRecordKey e); simpl.
      * split; [done|]. by eexists.
      * split; [by intros [? ?]|]. by intros [_ ?].
    + split; [by intros [? ?]|]. by intros [? _].
  - intros ev. destruct (recorderEnabled st); simpl negb; cbv iota; [|done].
    destruct (shouldRecordKey e); simpl negb; cbv iota; [|done].
    intros [= <-]. cbn [sent_action_of sent_pre].
    unfold buildStateSummary, keyInfo.
    destruct (resolveTargetFromEvent (ui_dom e)); by split_and!.
Qed.

(** ** The debounce of scroll events *)

(** At most the timeout named by [__scrollTimer] is registered. *)
Definition one_timeout (st : scroll_state) : Prop :=
  timeouts st = []
  ∨ ∃ id deadline, scrollTimer st = Some (S id)
                   ∧ timeouts st = [(S id, deadline)].

(** A run of scroll events at the given times, recording enabled. *)
Definition burst (times : list nat) (st : scroll_state) : scroll_state :=
  foldl (λ acc t, onScroll true t acc) st times.

Lemma onScroll_one st t :
  one_timeout st → next_timer st ≠ 0 →
  onScroll true t st
  = {| scrollTimer := Some (next_timer st); lastScrollY := lastScrollY st;
       timeouts := [(next_timer st, t + 250)];
       next_timer := S (next_timer st) |}.
Proof.
  intros Hone Hnext. unfold onScroll. simpl negb. cbv iota.
  destruct Hone as [Hnone|(id & d & Hid & Htab)].
  - rewrite Hnone. by destruct (scrollTimer st) as [[|?]|].
  - rewrite Hid, Htab. unfold clearTimeout.
    rewrite filter_cons, decide_False; [done|]. simpl. by intros ?.
Qed.

Lemma burst_one times last st :
  one_timeout st → next_timer st ≠ 0 →
  ∃ id, burst (times ++ [last]) st
        = {| scrollTimer := Some (S id); lastScrollY := lastScrollY st;
             timeouts := [(S id, last + 250)]; next_timer := S (S id) |}.
Proof.
  revert st. induction times as [|t times IH]; intros st Hone Hnext.
  - simpl. rewrite onScroll_one by done.
    destruct (next_timer st) as [|id]; [done|]. by exists id.
  - simpl. rewrite onScroll_one by done.
    destruct (next_timer st) as [|id] eqn:Hn; [done|].
    destruct (IH {| scrollTimer := Some (S id); lastScrollY := lastScrollY st;
                    timeouts := [(S id, t + 250)];
                    next_timer := S (S id) |}) as [id' Hid'].
    + right. by exists id, (t + 250).
    + done.
    + exists id'. exact Hid'.
Qed.

(** X10.  However many scroll events arrive before a timeout fires, only
    the timeout of the last one is registered afterwards: it cannot fire
    before 250 ms have passed since the last event, and when it fires it
    sends one scroll action whose dy is the displacement since the last
    sent position, with an observation that holds no listing; no timeout
    is registered any more.  If recording was disabled in between, it
    sends nothing and still moves the position of reference. *)
Theorem X10_scroll_debounce (doc : document) (st : scroll_state)
    (times : list nat) (last now : nat) (enabled : bool) :
  one_timeout st → next_timer st ≠ 0 →
  let st' := burst (times ++ [last]) st in
  ∃ id,
    scrollTimer st' = Some id
    ∧ timeouts st' = [(id, last + 250)]
    ∧ lastScrollY st' = lastScrollY st
    ∧ (∀ id', id' ≠ id → scrollFired doc enabled id' now st' = None)
    ∧ ((now < last + 250)%nat → scrollFired doc enabled id now st' = None)
    ∧ ((last + 250 ≤ now)%nat →
       ∃ st'', scrollFired doc enabled id now st'
               = Some (st'',
                       if enabled
                       then Some {| sent_action_of :=
                                      SentScroll 0 (scroll_y doc - lastScrollY st);
                                    sent_pre := buildStateSummary doc None false |}
                       else None)
               ∧ timeouts st'' = [] ∧ lastScrollY st'' = scroll_y doc
               ∧ one_timeout st'' ∧ next_timer st'' ≠ 0).
Proof.
  intros Hone Hnext st'.
  destruct (burst_one times last st Hone Hnext) as [id Hid].
  unfold st'. rewrite Hid. exists (S id). cbn [scrollTimer timeouts lastScrollY].
  split_and!; try done.
  - intros id' Hne. unfold scrollFired. cbn [timeouts list_find fst].
    case_decide; [congruence|done].
  - intros Hearly. unfold scrollFired. cbn [timeouts list_find fst].
    case_decide; [|done].
    destruct (Nat.leb_spec (last + 250) now); [lia|done].
  - intros Hdue. unfold scrollFired. cbn [timeouts lastScrollY list_find fst].
    case_decide; [|done].
    destruct (Nat.leb_spec (last + 250) now); [|lia].
    eexists. split; [by destruct enabled|].
    cbn [timeouts lastScrollY next_timer]. unfold clearTimeout.
    rewrite filter_cons, decide_False by (simpl; by intros ?).
    split_and!; try done. by left.
Qed.

(** ** The positional selector *)

Lemma xpath_walk_nearest_id room segments before cur up up' :
  (length before < room)%nat → lv_id cur ≠ "" →
  xpath_walk room segments (before ++ cur :: up)
  = xpath_walk room segments (before ++ cur :: up').
Proof.
  revert room segments.
  induction before as [|p before IH]; intros [|room] segments Hlen Hid;
    simpl in Hlen; try lia; simpl.
  - apply truthy_true in Hid. by rewrite Hid.
  - destruct (truthy (lv_id p)); [done|]. apply IH; [lia|done].
Qed.

Lemma xpath_walk_take room segments chain :
  xpath_walk room segments chain = xpath_walk room segments (take room chain).
Proof.
  revert segments chain.
  induction room as [|room IH]; intros segments [|cur up]; simpl; try done.
  destruct (truthy (lv_id cur)); [done|]. apply IH.
Qed.

Lemma xpath_walk_no_id room segments chain :
  Forall (λ lv, lv_id lv = "") chain →
  xpath_walk room segments chain
  = match (reverse (index_segment <$> take room chain) ++ segments)%list with
    | [] => None
    | all => Some (concat_segments all)
    end.
Proof.
  intros Hno. revert room segments.
  induction Hno as [|cur up Hid _ IH]; intros room segments.
  - destruct room; simpl; by destruct segments.
  - destruct room as [|room]; simpl; [by destruct segments|].
    apply truthy_false in Hid. rewrite Hid, IH.
    by rewrite reverse_cons, <- app_assoc.
Qed.

Lemma xpath_walk_cons room segments cur up :
  xpath_walk (S room) segments (cur :: up)
  = if truthy (lv_id cur)
    then Some (concat_segments (id_segment cur :: segments))
    else xpath_walk room (index_segment cur :: segments) up.
Proof. done. Qed.

Lemma xpath_walk_some room segments chain :
  segments ≠ [] → is_Some (xpath_walk room segments chain).
Proof.
  revert room segments.
  induction chain as [|cur up IH]; intros [|room] segments Hne;
    try (destruct segments; [done|by eexists]).
  rewrite xpath_walk_cons. destruct (truthy (lv_id cur)); [by eexists|].
  by apply IH.
Qed.

Lemma concat_single s : concat_segments [s] = s.
Proof.
  unfold concat_segments. simpl.
  induction s as [|c s IH]; [done|].
  change (String c s +:+ "") with (String c (s +:+ "")). by rewrite IH.
Qed.

(** X11.  The positional selector of an element is never null.  When the
    element has an id it is the id selector alone.  It is determined by
    the first eight levels of the ancestor chain, and by the levels up to
    the nearest one that has an id: what lies above does not change it.
    When no level has an id it is the path of tag and same-tag ordinal
    segments, from the highest of the first eight levels down to the
    element. *)
Theorem X11_xpathSelector (chain : list level) :
  (chain ≠ [] → is_Some (xpathSelector chain))
  ∧ (∀ cur up, chain = cur :: up → lv_id cur ≠ "" →
       xpathSelector chain = Some (id_segment cur))
  ∧ xpathSelector chain = xpathSelector (take 8 chain)
  ∧ (∀ before cur up up', chain = (before ++ cur :: up)%list →
       (length before < 8)%nat → lv_id cur ≠ "" →
       xpathSelector chain = xpathSelector (before ++ cur :: up'))
  ∧ (Forall (λ lv, lv_id lv = "") chain → chain ≠ [] →
       xpathSelector chain
       = Some (concat_segments
                 (reverse (index_segment <$> take 8 chain)))).
Proof.
  unfold xpathSelector. split_and!.
  - destruct chain as [|cur up]; [done|]. intros _.
    rewrite xpath_walk_cons.
    destruct (truthy (lv_id cur)); [by eexists|].
    by apply xpath_walk_some.
  - intros cur up -> Hid. rewrite xpath_walk_cons.
    apply truthy_true in Hid. by rewrite Hid, concat_single.
  - apply xpath_walk_take.
  - intros before cur up up' -> Hlen Hid. by apply xpath_walk_nearest_id.
  - intros Hno Hne. rewrite xpath_walk_no_id, app_nil_r by done.
    destruct chain as [|cur up]; [done|].
    change (take 8 (cur :: up)) with (cur :: take 7 up).
    rewrite fmap_cons, reverse_cons.
    by destruct (reverse (index_segment <$> take 7 up)).
Qed.

(** ** Nearby text *)

Lemma dedupe_spec seen l :
  NoDup (dedupe seen l)
  ∧ (∀ x, x ∈ dedupe seen l ↔ x ∈ l ∧ x ∉ seen)
  ∧ (length (dedupe seen l) ≤ length l)%nat.
Proof.
  revert seen. induction l as [|y l IH]; intros seen; simpl.
  { split_and!; [constructor| |done].
    intros x. rewrite elem_of_nil. tauto. }
  case_bool_decide as Hy.
  - destruct (IH seen) as (Hnd & Hin & Hlen). split_and!; [done| |lia].
    intros x. rewrite Hin, elem_of_cons. split; [tauto|].
    intros [[->|?] ?]; tauto.
  - destruct (IH (y :: seen)) as (Hnd & Hin & Hlen). split_and!; [| |simpl; lia].
    + constructor; [|done]. rewrite Hin, elem_of_cons. tauto.
    + intros x. rewrite !elem_of_cons, Hin, elem_of_cons.
      destruct (decide (x = y)) as [->|]; tauto.
Qed.

Lemma nearby_of_spec node x :
  x ∈ nearby_of node → x ≠ "" ∧ (String.length x ≤ 200)%nat.
Proof.
  destruct node as [n|]; unfold nearby_of; [|by intros ?%elem_of_nil].
  destruct (truthy (collapse_ws (node_text n))) eqn:Ht;
    [|by intros ?%elem_of_nil].
  intros ->%list_elem_of_singleton. split; [|apply slice0_length].
  apply truthy_true. by rewrite (slice0_truthy 199).
Qed.

Lemma nearby_of_length node : (length (nearby_of node) ≤ 1)%nat.
Proof.
  destruct node as [n|]; unfold nearby_of; [|simpl; lia].
  destruct (truthy _); cbn [length]; lia.
Qed.

(** X12.  The nearby text of an element holds the texts of the element,
    its parent and its two neighbours, each trimmed, collapsed and cut at
    200 characters: every non-empty one of them once, in this order of
    first appearance, at most four entries, none empty; the cut at five
    entries never removes one. *)
Theorem X12_nearbyText (el : element) (parent prev next : option element) :
  let texts := (nearby_of (Some el) ++ nearby_of parent
                ++ nearby_of prev ++ nearby_of next)%list in
  nearbyText el parent prev next = dedupe [] texts
  ∧ NoDup (nearbyText el parent prev next)
  ∧ (length (nearbyText el parent prev next) ≤ 4)%nat
  ∧ (∀ x, x ∈ nearbyText el parent prev next ↔ x ∈ texts)
  ∧ (∀ x, x ∈ nearbyText el parent prev next →
          x ≠ "" ∧ (String.length x ≤ 200)%nat)
  ∧ (∀ t, nearby_of (Some el) = [t] →
          head (nearbyText el parent prev next) = Some t).
Proof.
  intros texts.
  destruct (dedupe_spec [] texts) as (Hnd & Hin & Hlen).
  assert (length texts ≤ 4)%nat as Hfour.
  { unfold texts. rewrite !length_app.
    pose proof (nearby_of_length (Some el)). pose proof (nearby_of_length parent).
    pose proof (nearby_of_length prev). pose proof (nearby_of_length next). lia. }
  assert (nearbyText el parent prev next = dedupe [] texts) as Heq.
  { unfold nearbyText. fold texts. apply take_ge. lia. }
  rewrite Heq. split_and!; try done.
  - lia.
  - intros x. rewrite Hin. split; [tauto|]. intros ?. split; [done|].
    apply not_elem_of_nil.
  - intros x [Hx _]%Hin. unfold texts in Hx.
    rewrite !elem_of_app in Hx.
    destruct Hx as [?|[?|[?|?]]]; by eapply nearby_of_spec.
  - intros t Ht. unfold texts. rewrite Ht.
    cbn [app dedupe head].
    rewrite bool_decide_eq_false_2; [done|]. apply not_elem_of_nil.
Qed.

(** ** Page geometry *)

(** X13.  In the page geometry the pixels below and to the right of the
    viewport are never negative, the page is at least as high as the
    document's client and scroll heights, and while the viewport lies
    within the page the pixels above, the viewport height and the pixels
    below add up to the page height (likewise for the width).  The pixels
    above and to the left are the scroll offsets as they are. *)
Theorem X13_pageInfo (m : page_metrics) :
  let g := pageInfo m in
  (0 <= pixels_below g)%Z ∧ (0 <= pixels_right g)%Z
  ∧ (doc_clientHeight m <= page_height g)%Z
  ∧ (doc_scrollHeight m <= page_height g)%Z
  ∧ (doc_clientWidth m <= page_width g)%Z
  ∧ pixels_above g = win_scrollY m ∧ pixels_left g = win_scrollX m
  ∧ ((win_scrollY m + win_innerHeight m <= page_height g)%Z →
       (pixels_above g + pg_viewport_height g + pixels_below g
        = page_height g)%Z)
  ∧ ((win_scrollX m + win_innerWidth m <= page_width g)%Z →
       (pixels_left g + pg_viewport_width g + pixels_right g
        = page_width g)%Z)
  ∧ ((page_height g <= win_scrollY m + win_innerHeight m)%Z →
       pixels_below g = 0%Z).
Proof.
  unfold pageInfo. simpl. split_and!; try done; lia.
Qed.

(** ** The properties on the sample page *)

Definition password_change : dom_event :=
  DomEvent [capital_password_field] None.

Definition search_click : ui_event :=
  {| ui_dom := DomEvent [search_button] None; button := 0;
     clientX := 20; clientY := 50;
     altKey := false; ctrlKey := true; metaKey := false; shiftKey := true;
     key := ""; code := "" |}.

(** The scroll variables when the script is loaded at the top of a page. *)
Definition scroll_loaded : scroll_state :=
  {| scrollTimer := None; lastScrollY := 0; timeouts := []; next_timer := 1 |}.

(** The sample page after the user has scrolled down by 480 pixels. *)
Definition scrolled_page : document :=
  {| getElementById := getElementById sample_page;
     label_for := label_for sample_page;
     candidates := candidates sample_page;
     innerWidth := 800; innerHeight := 600;
     location_href := location_href sample_page;
     doc_title := doc_title sample_page;
     is_top_frame := true; scroll_y := 480 |}.

Lemma X5_witness :
  recorderEnabled (CaptureState true None None) = true
  ∧ {| recorderEnabled := true; focusEl := None; focusPre := None |}
    = {| recorderEnabled := true; focusEl := None; focusPre := None |}
  ∧ ∃ target,
      resolveTargetFromEvent password_change = Some target
      ∧ if String.eqb (toLowerCase (tagName target)) "select"
        then ∃ v, ActInput (elementRef sample_page capital_password_field)
                    "<redacted>"
                  = ActSelect (elementRef sample_page target) v
        else ∃ v, ActInput (elementRef sample_page capital_password_field)
                    "<redacted>"
                  = ActInput (elementRef sample_page target) v
                  ∧ (String.length v ≤ 2000)%nat.
Proof.
  exact (X5_change_action sample_page (CaptureState true None None) _
           password_change
           {| ev_action := ActInput (elementRef sample_page
                                       capital_password_field) "<redacted>";
              ev_pre := buildStateSummary sample_page
                          (Some capital_password_field) true |}
           eq_refl).
Defined.

Lemma X6_witness :
  ∃ ev, (onChange scrolled_page
           (onFocusIn sample_page (CaptureState true None None) password_change)
           password_change).2 = Some ev
        ∧ ev_pre ev
          = buildStateSummary sample_page (Some capital_password_field) true.
Proof.
  refine (X6_focus_snapshot sample_page scrolled_page
            (CaptureState true None None) password_change password_change
            capital_password_field capital_password_field
            eq_refl eq_refl _ eq_refl _); by left.
Defined.

Lemma X8_witness :
  recorderEnabled (CaptureState true None None) = true
  ∧ button search_click = 0.
Proof.
  destruct (X8_click_record sample_page (CaptureState true None None)
              search_click
              {| sent_action_of :=
                   SentClick (pointerInfo search_click)
                     (elementRef sample_page search_button);
                 sent_pre := buildStateSummary sample_page
                               (Some search_button) true |}
              eq_refl) as (Hen & Hb & _).
  by split.
Defined.

Lemma X10_witness :
  ∃ id st'',
    timeouts (burst [0; 40; 90; 100] scroll_loaded) = [(id, 350)]
    ∧ scrollFired scrolled_page true id 349 (burst [0; 40; 90; 100] scroll_loaded)
      = None
    ∧ scrollFired scrolled_page true id 350 (burst [0; 40; 90; 100] scroll_loaded)
      = Some (st'', Some {| sent_action_of := SentScroll 0 480;
                            sent_pre := buildStateSummary scrolled_page
                                          None false |})
    ∧ timeouts st'' = [].
Proof.
  destruct (X10_scroll_debounce scrolled_page scroll_loaded [0; 40; 90] 100
              350 true) as (id & _ & Htab & _ & _ & Hearly & Hdue).
  { by left. }
  { done. }
  destruct (Hdue ltac:(simpl; lia)) as (st'' & Hfire & Hnone & _).
  exists id, st''. split_and!; [exact Htab| |exact Hfire|exact Hnone].
  destruct (X10_scroll_debounce scrolled_page scroll_loaded [0; 40; 90] 100
              349 true) as (id' & _ & Htab' & _ & _ & Hearly' & _).
  { by left. }
  { done. }
  simpl in Htab, Htab'. rewrite Htab in Htab'. injection Htab' as <-.
  apply Hearly'. simpl. lia.
Defined.

(** ** How far the redaction reaches *)

Lemma sensitive_is_text_input el :
  isSensitiveInput el = true →
  nodeType el = 1 ∧ is_text_input_tag (toLowerCase (tagName el)) = true.
Proof.
  unfold isSensitiveInput.
  destruct (Nat.eqb_spec (nodeType el) 1); [|done]. simpl negb. cbv iota.
  by destruct (is_text_input_tag (toLowerCase (tagName el))).
Qed.

Lemma name_is_value doc el :
  nodeType el = 1 →
  is_text_input_tag (toLowerCase (tagName el)) = true →
  trim (attr_or_empty el "aria-label") = "" →
  getLabelFromAriaLabelledBy doc el = None →
  getLabelFromLabelFor doc el = None →
  trim (attr_or_empty el "alt") = "" →
  trim (attr_or_empty el "title") = "" →
  trim (attr_or_empty el "placeholder") = "" →
  trim (el_value el) ≠ "" →
  (String.length (trim (el_value el)) ≤ 80)%nat →
  accessibleName doc el = trim (el_value el).
Proof.
  intros Hel Htag Haria Hby Hfor Halt Htitle Hph Hval Hlen.
  unfold accessibleName. rewrite Hel. simpl negb. cbv iota.
  rewrite Haria, Hby, Hfor, Halt, Htitle, Htag, Hph.
  change (truthy "") with false. cbv iota.
  apply truthy_true in Hval. apply Nat.leb_le in Hlen.
  by rewrite Hval, Hlen.
Qed.

(** X30.  The redaction of a sensitive input covers the value field of
    the action and nothing else.  When such an input has no label
    attribute, no referenced label, no label element, no alt, no title
    and no placeholder, and its text, trimmed, is not empty and has at
    most 80 characters, then the action sent for a change of it has the
    marker as its value and the typed text as the name of its target
    reference; when the pre-state is not a snapshot taken at focus, the
    interacted element of the pre-state carries the same reference. *)
Theorem X30_redaction_scope (doc : document) (st : capture_state)
    (e : dom_event) (target : element) :
  recorderEnabled st = true →
  resolveTargetFromEvent e = Some target →
  isSensitiveInput target = true →
  trim (attr_or_empty target "aria-label") = "" →
  getLabelFromAriaLabelledBy doc target = None →
  getLabelFromLabelFor doc target = None →
  trim (attr_or_empty target "alt") = "" →
  trim (attr_or_empty target "title") = "" →
  trim (attr_or_empty target "placeholder") = "" →
  trim (el_value target) ≠ "" →
  (String.length (trim (el_value target)) ≤ 80)%nat →
  ∃ ref pre,
    (onChange doc st e).2
    = Some {| ev_action := ActInput (Some ref) "<redacted>"; ev_pre := pre |}
    ∧ ref_name ref = Some (trim (el_value target))
    ∧ (focusEl st = None →
         interacted_element (obs_dom_state pre) = Some ref).
Proof.
  intros Hen Htarget Hsens Haria Hby Hfor Halt Htitle Hph Hval Hlen.
  destruct (sensitive_is_text_input target Hsens) as [Hel Htag].
  pose proof (name_is_value doc target Hel Htag Haria Hby Hfor Halt Htitle
                Hph Hval Hlen) as Hname.
  assert (String.eqb (toLowerCase (tagName target)) "select" = false) as Hsel.
  { unfold is_text_input_tag in Htag.
    apply orb_true_iff in Htag as [->%String.eqb_eq | ->%String.eqb_eq];
      done. }
  assert (elementRef doc target
          = Some {| ref_tag := toLowerCase (tagName target);
                    ref_attrs := safeAttrs target;
                    ref_name := Some (trim (el_value target));
                    ref_role := truthy_opt (attr_or_empty target "role");
                    ref_bbox := el_rect target |}) as Href.
  { unfold elementRef. rewrite Hel, Hname. simpl negb. cbv iota.
    unfold truthy_opt at 1. apply truthy_true in Hval. by rewrite Hval. }
  unfold onChange. rewrite Hen, Htarget. simpl negb. cbv iota.
  rewrite Hsel, Htag. simpl negb. simpl andb. cbv iota.
  rewrite Href. unfold input_value. rewrite Hsens.
  eexists _, _. split; [reflexivity|]. split; [done|].
  intros ->. cbn [snd ev_pre].
  destruct (focusPre st); unfold buildStateSummary;
    cbn [obs_dom_state interacted_element]; exact Href.
Qed.

Lemma X30_witness :
  let doc := Document (λ _, None) (λ _, None) [] 800 600 "u" "t" true 0 in
  ∃ ref pre,
    (onChange doc (CaptureState true None None) password_change).2
    = Some {| ev_action := ActInput (Some ref) "<redacted>"; ev_pre := pre |}
    ∧ ref_name ref = Some "hunter2".
Proof.
  intros doc.
  destruct (X30_redaction_scope doc (CaptureState true None None)
              password_change capital_password_field
              eq_refl eq_refl eq_refl eq_refl eq_refl eq_refl eq_refl
              eq_refl eq_refl)
    as (ref & pre & Hsent & Hname & _).
  - discriminate.
  - vm_compute. lia.
  - by exists ref, pre.
Defined.

End ContentRestProps.

(* ===================================================================== *)
(** * Part II.e  Further properties of the service worker *)
(* ===================================================================== *)

Module BackgroundRestProps.
Import Js JsFacts Content Background BackgroundRest BackgroundProps.

(** ** Start-up *)

(** X14.  The initialisation at start-up of the worker writes the default
    settings only when there are none: settings that exist are left as
    they are (a restart of the worker does not end a recording), rows and
    episode records are never touched, the settings exist afterwards, and
    a second initialisation changes nothing. *)
Theorem X14_init_preserves (s : store) :
  steps (exec init s) = steps s
  ∧ episodes (exec init s) = episodes s
  ∧ is_Some (settings_of (exec init s))
  ∧ (∀ st, settings_of s = Some st → run init s = (inl tt, s, []))
  ∧ (settings_of s = None →
       settings_of (exec init s) = Some initial_settings)
  ∧ exec init (exec init s) = exec init s.
Proof.
  unfold exec, init. simpl.
  destruct (settings_of s) as [st|] eqn:Hst; simpl; rewrite ?Hst;
    split_and!; try done; by eexists.
Qed.

(** ** Stop *)

Lemma run_stop w s :
  run (onMessage w RECORDER_STOP) s
  = match settings_of s with
    | Some st =>
        if isRecording st
        then let st' := with_message st false (stepCount st)
                          "Recording stopped." in
             (inl (Some (RSettings (Some st'))), set_settings st' s, [])
        else (inl (Some (RSettings (Some st))), s, [])
    | None => (inl (Some (RSettings None)), s, [])
    end.
Proof.
  unfold onMessage, stopRecording. simpl.
  destruct (settings_of s) as [st|]; simpl; [|done].
  by destruct (isRecording st).
Qed.

(** X15.  Stop changes nothing but the recording flag and the status
    message of the settings: rows, episode records, episode identifier,
    counter, start time and options stay, so the episode can still be
    exported.  When recording was not active the store is left as it is.
    Stop answers with the settings it leaves, and a second stop changes
    nothing more. *)
Theorem X15_stop_keeps_data (w w' : env) (s : store) :
  let s' := exec (onMessage w RECORDER_STOP) s in
  steps s' = steps s ∧ episodes s' = episodes s
  ∧ (run (onMessage w RECORDER_STOP) s).1.1
    = inl (Some (RSettings (settings_of s')))
  ∧ (run (onMessage w RECORDER_STOP) s).2 = []
  ∧ (settings_of s = None → s' = s)
  ∧ (∀ st, settings_of s = Some st →
       ∃ st', settings_of s' = Some st'
              ∧ isRecording st' = false
              ∧ episodeId st' = episodeId st ∧ stepCount st' = stepCount st
              ∧ startedAt st' = startedAt st ∧ options_of st' = options_of st
              ∧ (isRecording st = false → s' = s))
  ∧ exec (onMessage w' RECORDER_STOP) s' = s'.
Proof.
  intros s'. unfold s', exec. rewrite !run_stop.
  destruct (settings_of s) as [st|] eqn:Hst.
  - destruct (isRecording st) eqn:Hrec; simpl.
    + split_and!; try done. intros ? [= <-]. eexists.
      split_and!; try done. intros ?; congruence.
    + rewrite Hst, Hrec. simpl. split_and!; try done.
      intros ? [= <-]. exists st. by split_and!.
  - simpl. rewrite Hst. simpl. split_and!; try done.
Qed.

(** ** Step events *)

Lemma run_event_not_recording w tab ev s :
  (∀ st, settings_of s = Some st → isRecording st = false) →
  run (onMessage w (RECORDER_EVENT tab ev)) s = (inl None, s, []).
Proof.
  intros Hoff. unfold onMessage, onStepEvent. simpl.
  destruct (settings_of s) as [st|] eqn:Hst; simpl; [|done].
  rewrite (Hoff st eq_refl).
  destruct (episodeId st) as [e|]; simpl; [|done].
  destruct (truthy e); simpl; [|done].
  by destruct tab as [[|tabId]|].
Qed.

(** X16.  A step event is dropped without an answer, without a write and
    without a timer when recording is not active, when the settings name
    no episode, or when the sender is not a tab.  In particular no step
    event is recorded after stop or after clear. *)
Theorem X16_events_ignored (w w' : env) (tab : option nat) (ev : bg_event)
    (s : store) :
  ((∀ st, settings_of s = Some st → isRecording st = false) →
     run (onMessage w (RECORDER_EVENT tab ev)) s = (inl None, s, []))
  ∧ (active_episode (settings_of s) = None →
     run (onMessage w (RECORDER_EVENT tab ev)) s = (inl None, s, []))
  ∧ (tab = None ∨ tab = Some 0 →
     run (onMessage w (RECORDER_EVENT tab ev)) s = (inl None, s, []))
  ∧ (let stopped := exec (onMessage w' RECORDER_STOP) s in
     run (onMessage w (RECORDER_EVENT tab ev)) stopped
     = (inl None, stopped, []))
  ∧ (let cleared := exec (onMessage w' RECORDER_CLEAR) s in
     run (onMessage w (RECORDER_EVENT tab ev)) cleared
     = (inl None, cleared, [])).
Proof.
  split_and!.
  - apply run_event_not_recording.
  - intros Hnone. unfold onMessage, onStepEvent. simpl.
    destruct (settings_of s) as [st|] eqn:Hst; simpl; [|done].
    simpl in Hnone. destruct (episodeId st) as [e|]; simpl; [|done].
    by destruct (truthy e).
  - intros Htab. unfold onMessage, onStepEvent. simpl.
    destruct (settings_of s) as [st|] eqn:Hst; simpl; [|done].
    destruct (episodeId st) as [e|]; simpl; [|done].
    destruct (truthy e); simpl; [|done].
    by destruct Htab as [-> | ->].
  - intros stopped. apply run_event_not_recording.
    intros st. unfold stopped, exec. rewrite run_stop.
    destruct (settings_of s) as [st0|] eqn:Hst; [|simpl; by rewrite Hst].
    destruct (isRecording st0) eqn:Hrec; simpl.
    + by intros [= <-].
    + rewrite Hst. by intros [= <-].
  - intros cleared. apply run_event_not_recording.
    intros st. unfold cleared, exec. rewrite run_clear_message. simpl.
    rewrite cleared_settings_of. by intros [= <-].
Qed.

(** X17.  When the lookup of the sender's tab fails, a step event writes
    nothing and registers no timer: the store is as before.  An event
    that would have been recorded (recording is active, the settings name
    an episode, the sender is a tab) is answered with the error; any other
    is dropped without an answer, as always. *)
Theorem X17_tab_lookup_failure (w : env) (tab : option nat) (ev : bg_event)
    (s : store) (err : string) :
  env_tab w = inl err →
  ∃ answer, run (onMessage w (RECORDER_EVENT tab ev)) s = (inl answer, s, [])
            ∧ (answer = None ∨ answer = Some (RError err))
            ∧ (∀ st e tabId,
                 settings_of s = Some st → isRecording st = true →
                 active_episode (Some st) = Some e → tab = Some (S tabId) →
                 answer = Some (RError err)).
Proof.
  intros Herr. unfold onMessage, onStepEvent. simpl.
  destruct (settings_of s) as [st|] eqn:Hst; simpl;
    [|by eexists; split_and!; eauto].
  destruct (episodeId st) as [e|] eqn:He; simpl.
  2: { eexists; split_and!; eauto. intros ?? ? [= <-] _. simpl.
       by rewrite He. }
  destruct (truthy e) eqn:Hte; simpl.
  2: { eexists; split_and!; eauto. intros ?? ? [= <-] _. simpl.
       by rewrite He, Hte. }
  destruct tab as [[|tabId]|]; simpl; try (by eexists; split_and!; eauto).
  destruct (isRecording st) eqn:Hrec; simpl.
  - rewrite Herr. simpl. eexists; split_and!; eauto.
  - eexists; split_and!; eauto. intros ??? [= <-]. congruence.
Qed.

Definition offline (uuid : string) : env :=
  {| env_uuid := uuid; env_now_iso := "2024-01-01T00:00:00.000Z";
     env_now := 0; env_active_tab := Some 7; env_injected := Injected;
     env_tab := inl "Error: No tab with id: 7."; env_shot := ShotErr "no window";
     env_post := PostNull |}.

Lemma X17_witness :
  run (onMessage (offline "s1") (RECORDER_EVENT (Some 7) click_event))
      (sys_store recording)
  = (inl (Some (RError "Error: No tab with id: 7.")), sys_store recording, []).
Proof.
  destruct (X17_tab_lookup_failure (offline "s1") (Some 7) click_event
              (sys_store recording) "Error: No tab with id: 7." eq_refl)
    as (answer & Hrun & _ & Hans).
  rewrite Hrun. f_equal. f_equal. f_equal.
  by eapply (Hans _ "A" 6).
Defined.
(** ** A step event that is recorded *)

(** X18.  While recording, a step event from a tab whose lookup succeeds
    is answered with the current counter [n] and leaves exactly this: one
    row under the key of [n] (the rows under other keys and the episode
    records as before), the counter [n + 1] with recording, episode,
    start time and options as before, and one timer for the step.  The
    row is pending (post and derived are null) and carries the action of
    the event, or the unknown action when it has none.  Its pre-state has
    the listing of the event only when the option captureDomState is on,
    and the empty listing otherwise; it has screenshot fields exactly
    when the option captureScreenshots is on; the URL and the title of
    the tab win over those of the event when they are not empty.  The
    timer waits 200 ms after a scroll and 500 ms after anything else. *)
Theorem X18_pending_step (w : env) (tabId : nat) (ev : bg_event) (s : store)
    (st : settings) (e : string) (tab : tab_info) :
  settings_of s = Some st → isRecording st = true →
  active_episode (Some st) = Some e →
  env_tab w = inr tab →
  let n := stepCount st in
  ∃ r t st',
    run (onMessage w (RECORDER_EVENT (Some (S tabId)) ev)) s
    = (inl (Some (RStep n)),
       {| episodes := episodes s; steps := <[make_key e n := r]> (steps s);
          settings_of := Some st' |}, [t])
    ∧ (step_key r = make_key e n ∧ row_episode_id r = e ∧ step_number r = n
       ∧ sr_step_number (step r) = n ∧ step_id (step r) = env_uuid w)
    ∧ (post (step r) = None ∧ derived_of (step r) = None
       ∧ act (step r) = default ActUnknown (be_action ev)
       ∧ t_ms (step r) = be_t_ms ev ∧ t_iso (step r) = be_t_iso ev)
    ∧ (captureDomState (options_of st) ≠ Some true →
         bo_dom_state (pre (step r)) = empty_dom_state)
    ∧ (∀ o, captureDomState (options_of st) = Some true →
         be_pre ev = Some o → bo_dom_state (pre (step r)) = obs_dom_state o)
    ∧ (captureScreenshots (options_of st) ≠ Some true →
         bo_shot (pre (step r)) = None)
    ∧ (captureScreenshots (options_of st) = Some true →
         bo_shot (pre (step r)) = Some (shot_fields (env_shot w)))
    ∧ (tab_url tab ≠ "" → bo_url (pre (step r)) = tab_url tab)
    ∧ (tab_title tab ≠ "" → bo_title (pre (step r)) = tab_title tab)
    ∧ (∀ o, tab_url tab = "" → be_pre ev = Some o →
         bo_url (pre (step r)) = default "" (obs_url o))
    ∧ bo_tabs (pre (step r)) = [(tab_url tab, tab_title tab, pretty (S tabId))]
    ∧ (tm_episode t = e ∧ tm_step t = n ∧ tm_tab t = S tabId
       ∧ tm_pre t = pre (step r))
    ∧ (tm_delay t = match be_action ev with
                    | Some (ActScroll _ _) => 200
                    | _ => 500
                    end)
    ∧ (isRecording st' = true ∧ episodeId st' = episodeId st
       ∧ startedAt st' = startedAt st ∧ options_of st' = options_of st
       ∧ stepCount st' = n + 1 ∧ lastMessage st' = recorded_message n).
Proof.
  intros Hst Hrec He Htab n. unfold onMessage, onStepEvent. simpl.
  rewrite Hst. simpl. simpl in He.
  destruct (episodeId st) as [e'|] eqn:Hid; [|done].
  destruct (truthy e') eqn:Hte; [|done]. injection He as ->.
  simpl. rewrite Hrec, Htab. simpl.
  assert ((if String.eqb (action_type (default ActUnknown (be_action ev)))
              "scroll" then 200 else 500)
          = match be_action ev with
            | Some (ActScroll _ _) => 200
            | _ => 500
            end) as Hd.
  { by destruct (be_action ev) as [[]|]. }
  destruct (captureScreenshots (options_of st)) as [[|]|] eqn:Hshots;
    destruct (captureDomState (options_of st)) as [[|]|] eqn:Hdom; simpl;
    eexists _, _, _; (split; [reflexivity|]);
    cbn [step_key row_episode_id step_number step sr_step_number step_id
         post derived_of act t_ms t_iso pre bo_dom_state bo_shot bo_url
         bo_title bo_tabs tm_episode tm_step tm_tab tm_pre tm_delay
         make_observation isRecording episodeId startedAt options_of
         stepCount lastMessage with_message];
    rewrite ?Hdom, ?Hshots, ?Hid, ?Hrec; cbn [flag default];
    (split_and!; try done; try exact Hd;
     try (intros o _ ->; done); try (intros o ->; done);
     try (unfold first_truthy, or_else;
          intros ->%truthy_true; done)).
  all: try (intros o -> ->; done).
Qed.
Lemma X18_witness :
  ∃ r t st',
    run (onMessage (world "s1") (RECORDER_EVENT (Some 7) click_event))
        (sys_store recording)
    = (inl (Some (RStep 0)),
       {| episodes := episodes (sys_store recording);
          steps := <[make_key "A" 0 := r]> (steps (sys_store recording));
          settings_of := Some st' |}, [t])
    ∧ post (step r) = None ∧ tm_delay t = 500 ∧ stepCount st' = 1.
Proof.
  destruct (X18_pending_step (world "s1") 6 click_event (sys_store recording)
              (default blank_settings (settings_of (sys_store recording)))
              "A" sample_tab eq_refl eq_refl eq_refl eq_refl)
    as (r & t & st' & Hrun & _ & (Hpost & _) & _ & _ & _ & _ & _ & _ & _ & _
        & _ & Hdelay & (_ & _ & _ & _ & Hcount & _)).
  exists r, t, st'. split_and!; [exact Hrun|exact Hpost|exact Hdelay|exact Hcount].
Defined.

(** ** The delayed post-capture of a step *)

Lemma diff_entry {A : Type} (b : bool) (P : Prop) (v : diff A) :
  (b = true ↔ P) →
  ((if b then None else Some v) = None ↔ P)
  ∧ ∀ x, (if b then None else Some v) = Some x → x = v.
Proof.
  intros HP. destruct b; split.
  - split; [intros _; by apply HP|done].
  - done.
  - split; [done|]. intros HP'%HP. done.
  - by intros x [= <-].
Qed.

Lemma run_post_capture w t s st :
  settings_of s = Some st →
  active_episode (Some st) = Some (tm_episode t) →
  run (post_capture w t) s
  = match env_tab w with
    | inl err => (inr err, s, [])
    | inr tab =>
        let sh := if flag (captureScreenshots (options_of st))
                  then Some (shot_fields (env_shot w)) else None in
        let po := make_observation st tab (tm_tab t)
                    (reply_observation (env_post w)) sh in
        match steps s !! make_key (tm_episode t) (tm_step t) with
        | Some r =>
            (inl tt,
             set_steps (<[step_key r :=
                            finalize r po (make_derived (tm_pre t) po)]>
                          (steps s)) s, [])
        | None => (inl tt, s, [])
        end
    end.
Proof.
  intros Hst He. unfold post_capture. simpl. rewrite Hst, He.
  rewrite String.eqb_refl. simpl.
  destruct (env_tab w) as [err|tab]; simpl; [done|].
  destruct (flag (captureScreenshots (options_of st))); simpl;
    by destruct (steps s !! make_key (tm_episode t) (tm_step t)).
Qed.

(** X19.  When the timer of a step fires while the settings still name
    the episode of the step (recording may have been stopped meanwhile),
    the row of the step is finalised: the row under its key gets a post
    state and a derived record, and keeps its key, episode, numbers,
    identifier, clock readings, pre-state and action; no other row, no
    episode record and no setting changes, and no timer is registered.
    The post state is built with the options of the settings at fire
    time.  The derived record has a URL entry exactly when the URLs of
    the pre-state and the post state differ, and then holds both; the
    same for the title and for the vertical scroll position.  When the
    row is gone nothing is written; when the lookup of the tab fails the
    callback ends with the error and nothing is written. *)
Theorem X19_post_capture_finalises (w : env) (t : timer) (s : store)
    (st : settings) :
  settings_of s = Some st →
  active_episode (Some st) = Some (tm_episode t) →
  let key := make_key (tm_episode t) (tm_step t) in
  (∀ err, env_tab w = inl err → run (post_capture w t) s = (inr err, s, []))
  ∧ (∀ tab, env_tab w = inr tab → steps s !! key = None →
       run (post_capture w t) s = (inl tt, s, []))
  ∧ (∀ tab r, env_tab w = inr tab → steps s !! key = Some r →
       ∃ r' po d,
         run (post_capture w t) s
         = (inl tt,
            {| episodes := episodes s;
               steps := <[step_key r := r']> (steps s);
               settings_of := Some st |}, [])
         ∧ (step_key r' = step_key r ∧ row_episode_id r' = row_episode_id r
            ∧ step_number r' = step_number r
            ∧ step_id (step r') = step_id (step r)
            ∧ sr_step_number (step r') = sr_step_number (step r)
            ∧ t_ms (step r') = t_ms (step r)
            ∧ t_iso (step r') = t_iso (step r)
            ∧ pre (step r') = pre (step r) ∧ act (step r') = act (step r))
         ∧ post (step r') = Some po ∧ derived_of (step r') = Some d
         ∧ (captureDomState (options_of st) ≠ Some true →
              bo_dom_state po = empty_dom_state)
         ∧ (∀ o, captureDomState (options_of st) = Some true →
              env_post w = PostOk o → bo_dom_state po = obs_dom_state o)
         ∧ (bo_shot po = None ↔ captureScreenshots (options_of st) ≠ Some true)
         ∧ (tab_url tab ≠ "" → bo_url po = tab_url tab)
         ∧ (tab_title tab ≠ "" → bo_title po = tab_title tab)
         ∧ (bo_page_info po = None ↔ ∀ o, env_post w ≠ PostOk o)
         ∧ (diff_url d = None ↔ bo_url (tm_pre t) = bo_url po)
         ∧ (∀ x, diff_url d = Some x →
              x = Diff (bo_url (tm_pre t)) (bo_url po))
         ∧ (diff_title d = None ↔ bo_title (tm_pre t) = bo_title po)
         ∧ (∀ x, diff_title d = Some x →
              x = Diff (bo_title (tm_pre t)) (bo_title po))
         ∧ (diff_scroll_y d = None ↔ scroll_of (tm_pre t) = scroll_of po)
         ∧ (∀ x, diff_scroll_y d = Some x →
              x = Diff (scroll_of (tm_pre t)) (scroll_of po))).
Proof.
  intros Hst He key. rewrite (run_post_capture w t s st Hst He).
  split_and!.
  - by intros err ->.
  - intros tab -> Hk. fold key. by rewrite Hk.
  - intros tab r -> Hk. fold key. rewrite Hk. cbv zeta.
    eexists _, _, _. split.
    { unfold set_steps. rewrite Hst. reflexivity. }
    cbn [finalize step_key row_episode_id step_number step step_id
         sr_step_number t_ms t_iso pre act post derived_of].
    split; [done|]. split; [reflexivity|]. split; [reflexivity|].
    cbn [make_observation bo_dom_state bo_shot bo_url bo_title bo_page_info
         make_derived diff_url diff_title diff_scroll_y].
    split_and!.
    + intros Hoff.
      destruct (captureDomState (options_of st)) as [[|]|]; done.
    + by intros o -> ->.
    + destruct (captureScreenshots (options_of st)) as [[|]|]; simpl;
        split; try done.
    + unfold first_truthy, or_else. by intros ->%truthy_true.
    + unfold first_truthy, or_else. by intros ->%truthy_true.
    + destruct (env_post w) as [o| |err]; simpl; split; try done.
      intros Hno. by destruct (Hno o).
    + apply (diff_entry _ _ _ (String.eqb_eq _ _)).
    + apply (diff_entry _ _ _ (String.eqb_eq _ _)).
    + apply (diff_entry _ _ _ (String.eqb_eq _ _)).
    + apply (diff_entry _ _ _ (String.eqb_eq _ _)).
    + apply (diff_entry _ _ _ (bool_decide_eq_true _)).
    + apply (diff_entry _ _ _ (bool_decide_eq_true _)).
Qed.
(** Recording was stopped while the post-capture of the click was still
    pending. *)
Definition stopped_after_click : system :=
  occur (Message (world "") RECORDER_STOP) after_click.

Lemma X19_witness :
  let s := sys_store stopped_after_click in
  (isRecording <$> settings_of s) = Some false
  ∧ ∃ r r', steps s !! make_key "A" 0 = Some r
            ∧ post (step r) = None
            ∧ steps (exec (post_capture (world "") click_timer) s)
                !! step_key r = Some r'
            ∧ is_Some (post (step r')) ∧ pre (step r') = pre (step r).
Proof.
  intros s. split; [reflexivity|].
  destruct (X19_post_capture_finalises (world "") click_timer s
              (default blank_settings (settings_of s)) eq_refl eq_refl)
    as (_ & _ & Hfin).
  destruct (steps s !! make_key "A" 0) as [r|] eqn:Hr;
    [|by vm_compute in Hr].
  destruct (Hfin sample_tab r eq_refl Hr)
    as (r' & po & d & Hrun & Hkeep & Hpost & _).
  exists r, r'. split_and!.
  - reflexivity.
  - vm_compute in Hr. by injection Hr as <-.
  - unfold exec. rewrite Hrun. apply lookup_insert_eq.
  - rewrite Hpost. by eexists.
  - apply Hkeep.
Defined.

(** ** Options *)

Lemma run_setOptions w opts s :
  run (onMessage w (RECORDER_SET_OPTIONS opts)) s
  = let old := default blank_settings (settings_of s) in
    let st' := {| isRecording := isRecording old;
                  episodeId := episodeId old; startedAt := startedAt old;
                  stepCount := stepCount old;
                  lastMessage := "Options updated.";
                  options_of := merge_options (options_of old)
                                  (default empty_options opts) |} in
    (inl (Some (RSettings (Some st'))), set_settings st' s, []).
Proof.
  unfold onMessage, setOptions. simpl. by destruct (settings_of s).
Qed.

Lemma merge_options_assoc a b c :
  merge_options (merge_options a b) c = merge_options a (merge_options b c).
Proof.
  unfold merge_options. simpl.
  by destruct (captureScreenshots c), (captureDomState c).
Qed.

(** X20.  A change of options touches the options and the status message
    only: rows, episode records, recording flag, episode, start time and
    counter stay as they are, so options can be changed in the middle of
    a recording.  An option that the request gives replaces the stored
    one, an option that it leaves out keeps its stored value.  The answer
    is the settings written.  Two changes in a row amount to the one
    change with the second request laid over the first, and repeating a
    change changes nothing more. *)
Theorem X20_set_options (w w' : env) (a b : option options) (s : store) :
  let s' := exec (onMessage w (RECORDER_SET_OPTIONS a)) s in
  let old := default blank_settings (settings_of s) in
  steps s' = steps s ∧ episodes s' = episodes s
  ∧ run (onMessage w (RECORDER_SET_OPTIONS a)) s
    = (inl (Some (RSettings (settings_of s'))), s', [])
  ∧ (∃ st', settings_of s' = Some st'
       ∧ isRecording st' = isRecording old ∧ episodeId st' = episodeId old
       ∧ startedAt st' = startedAt old ∧ stepCount st' = stepCount old
       ∧ lastMessage st' = "Options updated."
       ∧ captureScreenshots (options_of st')
         = match a ≫= captureScreenshots with
           | Some v => Some v
           | None => captureScreenshots (options_of old)
           end
       ∧ captureDomState (options_of st')
         = match a ≫= captureDomState with
           | Some v => Some v
           | None => captureDomState (options_of old)
           end)
  ∧ exec (onMessage w' (RECORDER_SET_OPTIONS b)) s'
    = exec (onMessage w (RECORDER_SET_OPTIONS
              (Some (merge_options (default empty_options a)
                                   (default empty_options b))))) s
  ∧ exec (onMessage w' (RECORDER_SET_OPTIONS a)) s' = s'.
Proof.
  intros s' old. unfold s', exec. rewrite !run_setOptions. cbv zeta.
  cbn [fst snd set_settings steps episodes settings_of default from_option
       id isRecording episodeId startedAt stepCount lastMessage options_of].
  fold old. split_and!; try done.
  - eexists. split; [done|]. simpl. split_and!; try done.
    + by destruct a.
    + by destruct a.
  - by rewrite merge_options_assoc.
  - unfold set_settings. cbn [episodes steps]. do 3 f_equal.
    unfold merge_options. simpl.
    by destruct (captureScreenshots (default empty_options a)),
         (captureDomState (default empty_options a)).
Qed.

(** ** Requests that only read *)

(** X21.  A status request, an export request and a message of an
    unknown type never write and never register a timer, whatever the
    store holds and whether recording is active or not.  The status
    answer is the stored settings; an unknown message gets no answer.
    The export answers "no episode" exactly when the settings name no
    episode; when they name one whose record is missing it answers with
    an error; otherwise it answers with the record's identifier and
    creation time, the stored options, the steps of the rows of the
    episode in ascending number and their count. *)
Theorem X21_queries_read_only (w : env) (s : store) :
  run (onMessage w RECORDER_GET_STATUS) s
  = (inl (Some (RSettings (settings_of s))), s, [])
  ∧ run (onMessage w OTHER_MESSAGE) s = (inl None, s, [])
  ∧ ∃ answer,
      run (onMessage w RECORDER_EXPORT) s = (inl (Some answer), s, [])
      ∧ (answer = RNoEpisode ↔ active_episode (settings_of s) = None)
      ∧ (∀ e, active_episode (settings_of s) = Some e →
           episodes s !! e = None → ∃ err, answer = RError err)
      ∧ (∀ e ep st, active_episode (settings_of s) = Some e →
           episodes s !! e = Some ep → settings_of s = Some st →
           ∃ out, answer = RExport out e
                             (length (idbGetStepsForEpisode e (steps s)))
                             "Exported."
                  ∧ out_episode_id out = episode_id ep
                  ∧ out_created_at out = created_at ep
                  ∧ out_options out = options_of st
                  ∧ out_steps out
                    = step <$> idbGetStepsForEpisode e (steps s)).
Proof.
  split_and!; [done|done|].
  destruct (active_episode (settings_of s)) as [e|] eqn:He.
  - destruct (active_settings _ _ He) as (st & Hst & He').
    destruct (episodes s !! e) as [ep|] eqn:Hep.
    + eexists. split; [by apply (run_export w s st e ep)|].
      split_and!; try done.
      * intros e0 [= <-]. by rewrite Hep.
      * intros e0 ep0 st0 [= <-]. rewrite Hep, Hst. intros [= <-] [= <-].
        eexists. by split_and!.
    + eexists. split.
      { unfold onMessage, export. simpl. rewrite Hst, He'. simpl.
        rewrite Hep. reflexivity. }
      split_and!; try done.
      * intros e0 [= <-] _. by eexists.
      * intros e0 ep0 st0 [= <-]. by rewrite Hep.
  - eexists. split; [by apply run_export_none|]. by split_and!.
Qed.

(** ** Navigation *)

(** X22.  A committed navigation changes nothing but the status message,
    and that only while recording and for the top frame: rows, episode
    records, counter, episode, options and the recording flag stay, no
    step is recorded for it and no timer is registered.  A navigation of
    a sub-frame, or one while recording is off, leaves the store as it
    is. *)
Theorem X22_navigation (frameId : nat) (url : string) (s : store) :
  let s' := exec (onCommitted frameId url) s in
  (run (onCommitted frameId url) s).1.1 = inl tt
  ∧ (run (onCommitted frameId url) s).2 = []
  ∧ steps s' = steps s ∧ episodes s' = episodes s
  ∧ (frameId ≠ 0 → s' = s)
  ∧ ((∀ st, settings_of s = Some st → isRecording st = false) → s' = s)
  ∧ (∀ st, settings_of s = Some st →
       ∃ st', settings_of s' = Some st'
              ∧ isRecording st' = isRecording st
              ∧ episodeId st' = episodeId st ∧ stepCount st' = stepCount st
              ∧ startedAt st' = startedAt st ∧ options_of st' = options_of st
              ∧ (isRecording st = true → frameId = 0 →
                   lastMessage st' = "Navigation: " +:+ url)).
Proof.
  intros s'. unfold s', exec, onCommitted. simpl.
  destruct (settings_of s) as [st|] eqn:Hst; simpl.
  2: { rewrite Hst. by split_and!. }
  destruct (isRecording st) eqn:Hrec; simpl.
  2: { rewrite Hst. split_and!; try done. intros ? [= <-].
       exists st. split_and!; try done. congruence. }
  destruct frameId as [|f]; simpl.
  - split_and!; try done.
    + intros Hoff. specialize (Hoff st eq_refl). congruence.
    + intros ? [= <-]. eexists. by split_and!.
  - rewrite Hst. split_and!; try done.
    intros ? [= <-]. exists st. split_and!; try done.
Qed.

(** ** Keys *)

(** X23.  The key of a row determines the episode and the step number:
    two rows share a key only when they belong to the same episode and
    have the same number, whatever characters the episode identifier
    holds. *)
Theorem X23_step_key_injective (e1 e2 : string) (n1 n2 : nat) :
  make_key e1 n1 = make_key e2 n2 ↔ e1 = e2 ∧ n1 = n2.
Proof.
  split; [apply make_key_inj|]. by intros [-> ->].
Qed.
(** ** The rows of an episode *)

Lemma filter_rows (P : row → Prop) `{∀ r, Decision (P r)}
    (l : list (string * row)) :
  filter P l.*2 = (filter (λ kr, P kr.2) l).*2.
Proof.
  induction l as [|[k r] l IH]; [done|].
  rewrite fmap_cons, !filter_cons. simpl.
  destruct (decide (P r)); simpl; by rewrite IH.
Qed.

Lemma length_rows_of e (m : gmap string row) :
  length (rows_of e m) = size (episode_rows e m).
Proof.
  unfold rows_of, episode_rows.
  rewrite <- length_map_to_list, <- (length_fmap snd (map_to_list (filter _ m))).
  apply Permutation_length. rewrite filter_rows.
  f_equiv. apply NoDup_Permutation.
  - apply NoDup_filter, NoDup_map_to_list.
  - apply NoDup_map_to_list.
  - intros [k r]. rewrite list_elem_of_filter, !elem_of_map_to_list.
    rewrite map_lookup_filter_Some. simpl. tauto.
Qed.

(** X24.  The rows read for an episode are the rows of the store that
    carry its identifier, one for each key that holds such a row, and no
    row of another episode; they come in ascending step number, whatever
    order the store lists them in.  An episode without rows gives the
    empty list.  When every row sits under the key of its episode and
    number, no row comes twice and the step numbers ascend strictly. *)
Theorem X24_rows_of_episode (e : string) (m : gmap string row) :
  let rows := idbGetStepsForEpisode e m in
  (∀ r, r ∈ rows ↔ (∃ k, m !! k = Some r) ∧ row_episode_id r = e)
  ∧ length rows = size (filter (λ kr, row_episode_id kr.2 = e) m)
  ∧ (∀ i j a b, rows !! i = Some a → rows !! j = Some b → (i < j)%nat →
       (step_number a ≤ step_number b)%nat)
  ∧ ((∀ k r, m !! k = Some r → row_episode_id r ≠ e) → rows = [])
  ∧ ((∀ k r, m !! k = Some r →
        k = make_key (row_episode_id r) (step_number r)) →
     NoDup rows
     ∧ ∀ i j a b, rows !! i = Some a → rows !! j = Some b → (i < j)%nat →
         (step_number a < step_number b)%nat).
Proof.
  intros rows.
  assert (∀ i j a b, rows !! i = Some a → rows !! j = Some b → (i < j)%nat →
            (step_number a ≤ step_number b)%nat) as Hsorted.
  { intros i j a b Hi Hj Hij.
    pose proof (sort_sorted step_cmp step_cmp_total step_cmp_trans
                  (rows_of e m)) as Hs.
    pose proof (StronglySorted_lookup _ _ _ _ _ _ Hs Hi Hj Hij) as Hab.
    unfold step_cmp in Hab. simpl in Hab. lia. }
  split_and!.
  - apply elem_of_idbGetStepsForEpisode.
  - unfold rows, idbGetStepsForEpisode.
    rewrite (Permutation_length (sort_perm step_cmp _)).
    apply length_rows_of.
  - exact Hsorted.
  - intros Hnone. apply elem_of_nil_inv.
    intros r [[k Hk] He]%elem_of_idbGetStepsForEpisode. by eapply Hnone.
  - intros Hkeys.
    assert (NoDup rows) as Hnd.
    { unfold rows, idbGetStepsForEpisode. rewrite (sort_perm step_cmp).
      unfold rows_of. apply NoDup_filter.
      apply NoDup_fmap_2_strong; [|apply NoDup_map_to_list].
      intros [k1 r1] [k2 r2] H1%elem_of_map_to_list H2%elem_of_map_to_list.
      simpl. intros <-. f_equal.
      by rewrite (Hkeys _ _ H1), (Hkeys _ _ H2). }
    split; [done|]. intros i j a b Hi Hj Hij.
    pose proof (Hsorted i j a b Hi Hj Hij) as Hle.
    destruct (decide (step_number a = step_number b)) as [Heq|]; [|lia].
    exfalso.
    pose proof (list_elem_of_lookup_2 _ _ _ Hi) as Ha.
    pose proof (list_elem_of_lookup_2 _ _ _ Hj) as Hb.
    apply elem_of_idbGetStepsForEpisode in Ha as [[ka Hka] Hea].
    apply elem_of_idbGetStepsForEpisode in Hb as [[kb Hkb] Heb].
    assert (ka = kb) as ->.
    { by rewrite (Hkeys _ _ Hka), (Hkeys _ _ Hkb), Hea, Heb, Heq. }
    rewrite Hka in Hkb. injection Hkb as <-.
    assert (i = j) by (by eapply NoDup_lookup). lia.
Qed.
(** ** What every reachable state satisfies *)

(** The settings exist; recording implies an episode; without an episode
    the counter is zero. *)
Definition settings_settled (o : option settings) : Prop :=
  ∃ st, o = Some st
    ∧ (isRecording st = true → is_Some (active_episode (Some st)))
    ∧ (active_episode (Some st) = None → stepCount st = 0).

(** A row is pending or finalised: post and derived are null together. *)
Definition rows_settled (m : gmap string row) : Prop :=
  ∀ k r, m !! k = Some r →
    (post (step r) = None ↔ derived_of (step r) = None).

Definition settled (s : store) : Prop :=
  settings_settled (settings_of s) ∧ rows_settled (steps s).

Lemma exec_export w s : exec (onMessage w RECORDER_EXPORT) s = s.
Proof.
  unfold exec, onMessage, export. simpl.
  destruct (settings_of s) as [st|]; simpl; [|done].
  destruct (episodeId st) as [e|]; simpl; [|done].
  destruct (truthy e); simpl; [|done].
  by destruct (episodes s !! e).
Qed.

Lemma run_pending w tabId ev s st e tab :
  settings_of s = Some st → isRecording st = true →
  active_episode (Some st) = Some e →
  env_tab w = inr tab →
  let n := stepCount st in
  let sh := if flag (captureScreenshots (options_of st))
            then Some (shot_fields (env_shot w)) else None in
  let pre := make_observation st tab (S tabId) (be_pre ev) sh in
  let action := default ActUnknown (be_action ev) in
  run (onMessage w (RECORDER_EVENT (Some (S tabId)) ev)) s
  = (inl (Some (RStep n)),
     {| episodes := episodes s;
        steps := <[make_key e n :=
                     {| step_key := make_key e n; row_episode_id := e;
                        step_number := n;
                        step := {| step_id := env_uuid w;
                                   sr_step_number := n;
                                   t_ms := be_t_ms ev; t_iso := be_t_iso ev;
                                   pre := pre; act := action;
                                   post := None; derived_of := None |} |}]>
                   (steps s);
        settings_of := Some (with_message st true (n + 1)
                               (recorded_message n)) |},
     [ {| tm_episode := e; tm_step := n; tm_tab := S tabId; tm_pre := pre;
          tm_delay := if String.eqb (action_type action) "scroll"
                      then 200 else 500 |} ]).
Proof.
  intros Hst Hrec He Htab. unfold onMessage, onStepEvent. simpl.
  rewrite Hst. simpl. simpl in He.
  destruct (episodeId st) as [e'|] eqn:Hid; [|done].
  destruct (truthy e') eqn:Hte; [|done]. injection He as ->.
  simpl. rewrite Hrec, Htab. simpl.
  by destruct (flag (captureScreenshots (options_of st))).
Qed.

Lemma run_event_cases w tab ev s :
  run (onMessage w (RECORDER_EVENT tab ev)) s = (inl None, s, [])
  ∨ (∃ err, run (onMessage w (RECORDER_EVENT tab ev)) s
            = (inl (Some (RError err)), s, []))
  ∨ ∃ st e tabId t, settings_of s = Some st ∧ isRecording st = true
      ∧ active_episode (Some st) = Some e ∧ tab = Some (S tabId)
      ∧ env_tab w = inr t.
Proof.
  destruct (settings_of s) as [st|] eqn:Hst.
  2: { left. apply run_event_not_recording. by rewrite Hst. }
  destruct (isRecording st) eqn:Hrec.
  2: { left. apply run_event_not_recording. rewrite Hst.
       by intros ? [= <-]. }
  unfold onMessage, onStepEvent. simpl. rewrite Hst. simpl.
  destruct (episodeId st) as [e|] eqn:Hid; simpl; [|by left].
  destruct (truthy e) eqn:Hte; simpl; [|by left].
  destruct tab as [[|tabId]|]; simpl; [by left| |by left].
  rewrite Hrec. simpl.
  destruct (env_tab w) as [err|t] eqn:Htab; simpl.
  - right. left. by exists err.
  - right. right. exists st, e, tabId, t. split_and!; try done.
    simpl. by rewrite Hid, Hte.
Qed.

Lemma exec_start w opts s :
  ∃ m, exec (onMessage w (RECORDER_START opts)) s
       = {| episodes :=
              <[env_uuid w :=
                  {| episode_id := env_uuid w; created_at := env_now_iso w;
                     browser_name := "chromium";
                     origin_type := "extension_mvp";
                     origin_build := "0.1.0" |}]> (episodes s);
            steps := steps s;
            settings_of :=
              Some {| isRecording := true; episodeId := Some (env_uuid w);
                      startedAt := Some (env_now w); stepCount := 0;
                      lastMessage := m;
                      options_of :=
                        merge_options
                          (from_option options_of empty_options
                             (settings_of s))
                          (default empty_options opts) |} |}.
Proof.
  unfold exec, onMessage, startRecording. simpl.
  destruct (env_active_tab w) as [[|n]|]; simpl; by eexists.
Qed.

Lemma exec_post_capture w t s :
  exec (post_capture w t) s = s
  ∨ ∃ r po d, steps s !! make_key (tm_episode t) (tm_step t) = Some r
              ∧ exec (post_capture w t) s
                = set_steps (<[step_key r := finalize r po d]> (steps s)) s.
Proof.
  destruct (decide (active_episode (settings_of s) = Some (tm_episode t)))
    as [He|Hne].
  - destruct (active_settings _ _ He) as (st & Hst & He').
    unfold exec. rewrite (run_post_capture w t s st Hst He').
    destruct (env_tab w) as [err|tab]; [by left|]. cbv zeta.
    destruct (steps s !! make_key (tm_episode t) (tm_step t)) as [r|];
      [|by left].
    right. by eexists _, _, _.
  - left. unfold exec, post_capture. simpl.
    destruct (active_episode (settings_of s)) as [e|] eqn:Hact; [|done].
    destruct (settings_of s) as [s3|]; [|done].
    destruct (String.eqb_spec e (tm_episode t)) as [->|Hn]; [done|]. done.
Qed.

Lemma exec_onCommitted frameId url s :
  exec (onCommitted frameId url) s = s
  ∨ ∃ st m, settings_of s = Some st
            ∧ exec (onCommitted frameId url) s
              = set_settings (with_message st (isRecording st) (stepCount st) m) s.
Proof.
  unfold exec, onCommitted. simpl.
  destruct (settings_of s) as [st|] eqn:Hst; simpl; [|by left].
  destruct (isRecording st) eqn:Hrec; simpl; [|by left].
  destruct frameId; simpl; [|by left].
  right. exists st, ("Navigation: " +:+ url). by rewrite Hrec.
Qed.

Lemma settled_with_message st rec n m :
  settings_settled (Some st) →
  (rec = true → isRecording st = true) →
  (active_episode (Some st) = None → n = 0) →
  settings_settled (Some (with_message st rec n m)).
Proof.
  intros (st0 & [= <-] & Hrec & Hcount) Hr Hn.
  eexists. split; [done|]. simpl. split.
  - intros Hrec'. apply Hrec. by apply Hr.
  - exact Hn.
Qed.

Lemma message_settled w msg s :
  (∀ opts, msg = RECORDER_START opts → env_uuid w ≠ "") →
  settled s → settled (exec (onMessage w msg) s).
Proof.
  intros Hfresh [Hset Hrows]. destruct msg as [|opts| | |opts| |tab ev|].
  - done.
  - destruct (exec_start w opts s) as [m ->]. split; [|done].
    eexists. split; [done|]. simpl.
    assert (truthy (env_uuid w) = true) as -> by (apply truthy_true; eauto).
    split; [by eexists|done].
  - unfold exec. rewrite run_stop.
    destruct Hset as (st & Hst & Hrec & Hcount). rewrite Hst.
    destruct (isRecording st) eqn:Hr; simpl.
    + split; [|done]. apply settled_with_message; [|done|].
      * eexists. by rewrite Hr.
      * exact Hcount.
    + split; [|done]. rewrite Hst. eexists. by rewrite Hr.
  - unfold exec. rewrite run_clear_message. simpl. split.
    + rewrite cleared_settings_of. eexists. by split_and!.
    + unfold cleared_store.
      destruct (active_episode (settings_of s)); simpl; [|done].
      intros k r. rewrite lookup_delete_rows. case_decide; [done|].
      apply Hrows.
  - unfold exec. rewrite run_setOptions. cbv zeta. simpl. split; [|done].
    destruct Hset as (st & Hst & Hrec & Hcount). rewrite Hst. simpl.
    eexists. split; [done|]. simpl. split; [exact Hrec|exact Hcount].
  - by rewrite exec_export.
  - destruct (run_event_cases w tab ev s)
      as [Hrun|[[err Hrun]|(st & e & tabId & t & Hst & Hrec & He & -> & Htab)]].
    + unfold exec. by rewrite Hrun.
    + unfold exec. by rewrite Hrun.
    + unfold exec.
      rewrite (run_pending w tabId ev s st e t Hst Hrec He Htab).
      cbv zeta. simpl. split.
      * apply settled_with_message; [by rewrite <- Hst|done|].
        rewrite He. done.
      * intros k r. cbn [steps]. rewrite lookup_insert. case_decide.
        { by intros [= <-]. }
        apply Hrows.
  - done.
Qed.

Lemma occur_settled o sys :
  admissible o sys → settled (sys_store sys) → settled (sys_store (occur o sys)).
Proof.
  intros Hadm Hs. destruct o as [w msg|w i|frameId url]; simpl.
  - rewrite handle_store. apply message_settled; [|done].
    intros opts ->. by destruct Hadm as [? _].
  - destruct (sys_timers sys !! i) as [t|]; [|done].
    rewrite handle_store.
    destruct (exec_post_capture w t (sys_store sys))
      as [->|(r & po & d & Hr & ->)]; [done|].
    destruct Hs as [Hset Hrows]. split; [done|]. simpl.
    intros k r'. cbn [steps set_steps]. rewrite lookup_insert.
    case_decide; [|apply Hrows]. by intros [= <-].
  - rewrite handle_store.
    destruct (exec_onCommitted frameId url (sys_store sys))
      as [->|(st & m & Hst & ->)]; [done|].
    destruct Hs as [Hset Hrows]. split; [|done]. simpl.
    apply settled_with_message; [by rewrite <- Hst|done|].
    destruct Hset as (st0 & Hst0 & _ & Hcount). rewrite Hst in Hst0.
    by injection Hst0 as <-.
Qed.

Lemma reachable_settled sys : reachable sys → settled (sys_store sys).
Proof.
  induction 1 as [|o sys _ IH Hadm].
  - rewrite boot_store. split.
    + eexists. by split_and!.
    + intros k r. simpl. by rewrite lookup_empty.
  - by apply occur_settled.
Qed.

(** X25.  In every state that the worker reaches, one handler after the
    other: the settings exist; recording is active only while they name
    an episode, and without an episode the counter is zero; the record of
    the named episode is stored, the number of its rows is the counter,
    and the key of the next step is free; every row sits under the key of
    its episode and step number, carries that number in its step, and is
    either pending (post and derived both null) or finalised (both
    set). *)
Theorem X25_reachable_state (sys : system) :
  reachable sys →
  let s := sys_store sys in
  ∃ st, settings_of s = Some st
    ∧ (isRecording st = true → is_Some (active_episode (Some st)))
    ∧ (active_episode (Some st) = None → stepCount st = 0)
    ∧ (∀ e, active_episode (Some st) = Some e →
         is_Some (episodes s !! e)
         ∧ size (filter (λ kr, row_episode_id kr.2 = e) (steps s))
           = stepCount st
         ∧ steps s !! make_key e (stepCount st) = None)
    ∧ (∀ k r, steps s !! k = Some r →
         k = make_key (row_episode_id r) (step_number r)
         ∧ step_key r = k
         ∧ sr_step_number (step r) = step_number r
         ∧ (post (step r) = None ↔ derived_of (step r) = None)).
Proof.
  intros Hreach s.
  destruct (reachable_settled sys Hreach) as [(st & Hst & Hrec & Hzero) Hrows].
  pose proof (reachable_invariant sys Hreach) as [Hm Hc]. fold s in Hm, Hc.
  exists st. split_and!; try done.
  - intros e He. destruct (Hc st e Hst He) as [Hkeys Hep].
    split_and!; [done| |].
    + fold (episode_rows e (steps s)). rewrite <- length_rows_of.
      rewrite <- (Permutation_length (sort_perm step_cmp _)).
      fold (idbGetStepsForEpisode e (steps s)).
      rewrite <- (length_fmap step_number).
      rewrite (rows_of_numbers s st e (conj Hm Hc) Hst He).
      apply length_seq.
    + apply eq_None_not_Some. rewrite Hkeys. lia.
  - intros k r Hk. destruct (Hm k r Hk) as (Hkey & Hmk & Hnum).
    split_and!; [congruence|done|done|by eapply Hrows].
Qed.

Lemma X25_witness :
  size (filter (λ kr, row_episode_id kr.2 = "A")
          (steps (sys_store one_finalized))) = 2.
Proof.
  destruct (X25_reachable_state one_finalized one_finalized_reachable)
    as (st & Hst & _ & _ & Hact & _).
  vm_compute in Hst. injection Hst as <-.
  by destruct (Hact "A" eq_refl) as (_ & -> & _).
Defined.
(** ** A step event in a reachable state *)

(** The rows read for the active episode, by position: the [i]-th is the
    row under the key of step [i]. *)
Lemma nth_row s st e i :
  invariant s → settings_of s = Some st →
  active_episode (Some st) = Some e →
  idbGetStepsForEpisode e (steps s) !! i = steps s !! make_key e i.
Proof.
  intros Hinv Hst He.
  pose proof (rows_of_numbers s st e Hinv Hst He) as Hnum.
  destruct Hinv as [Hm Hc]. destruct (Hc st e Hst He) as [Hkeys _].
  destruct (idbGetStepsForEpisode e (steps s) !! i) as [a|] eqn:Hi.
  - assert ((step_number <$> idbGetStepsForEpisode e (steps s)) !! i
            = Some (step_number a)) as Hn by (by rewrite list_lookup_fmap, Hi).
    rewrite Hnum in Hn. apply lookup_seq in Hn as [Hn _]. simpl in Hn.
    apply list_elem_of_lookup_2 in Hi.
    apply elem_of_idbGetStepsForEpisode in Hi as [[k Hk] Hea].
    destruct (Hm k a Hk) as (Hkey & Hmk & _).
    rewrite <- Hn, <- Hea, <- Hmk, <- Hkey. done.
  - symmetry. apply eq_None_not_Some. rewrite Hkeys.
    apply lookup_ge_None in Hi.
    rewrite <- (length_fmap step_number), Hnum, length_seq in Hi. lia.
Qed.

(** X26.  In a state that the worker has reached, one handler after the
    other, a step event that arrives from a tab while recording is never
    lost and never replaces a step: the settings name an episode, the key
    of the new row was free, every row stored before is still stored
    unchanged, one timer is added to the pending ones, and the export of
    the episode after the event is its export before the event with the
    new, pending step added at the end. *)
Theorem X26_event_recorded (sys : system) (w w' : env) (tabId : nat)
    (ev : bg_event) (st : settings) (tab : tab_info) :
  reachable sys →
  settings_of (sys_store sys) = Some st → isRecording st = true →
  env_tab w = inr tab →
  let s := sys_store sys in
  let sys' := occur (Message w (RECORDER_EVENT (Some (S tabId)) ev)) sys in
  let s' := sys_store sys' in
  ∃ e r t,
    active_episode (Some st) = Some e
    ∧ steps s !! make_key e (stepCount st) = None
    ∧ steps s' = <[make_key e (stepCount st) := r]> (steps s)
    ∧ (row_episode_id r = e ∧ step_number r = stepCount st
       ∧ post (step r) = None)
    ∧ (∀ k r0, steps s !! k = Some r0 → steps s' !! k = Some r0)
    ∧ episodes s' = episodes s
    ∧ (sys_timers sys' = (sys_timers sys ++ [t])%list
       ∧ tm_episode t = e ∧ tm_step t = stepCount st)
    ∧ ∃ out out',
        run (onMessage w' RECORDER_EXPORT) s
        = (inl (Some (RExport out e (stepCount st) "Exported.")), s, [])
        ∧ run (onMessage w' RECORDER_EXPORT) s'
          = (inl (Some (RExport out' e (stepCount st + 1) "Exported.")),
             s', [])
        ∧ out_steps out' = (out_steps out ++ [step r])%list.
Proof.
  intros Hreach Hst Hrec Htab s sys' s'.
  assert (reachable sys') as Hreach' by (by apply reach_occur).
  pose proof (reachable_invariant sys Hreach) as Hinv.
  pose proof (reachable_invariant sys' Hreach') as Hinv'.
  destruct (reachable_settled sys Hreach) as [(st0 & Hst0 & Hact & _) _].
  rewrite Hst in Hst0. injection Hst0 as <-.
  destruct (Hact Hrec) as [e He].
  pose proof (run_pending w tabId ev (sys_store sys) st e tab
                Hst Hrec He Htab) as Hrun. cbv zeta in Hrun.
  match type of Hrun with
  | _ = (_, Store _ (<[_ := ?r0]> _) _, [?t0]) =>
      set (r := r0) in *; set (t := t0) in *
  end.
  assert (sys_store sys' = s') as Hs' by done.
  unfold sys' in Hs'. simpl in Hs'. rewrite handle_store in Hs'.
  unfold exec in Hs'. rewrite Hrun in Hs'. simpl in Hs'.
  assert (sys_timers sys' = (sys_timers sys ++ [t])%list) as Hts.
  { unfold sys'. simpl. unfold handle. rewrite Hrun. reflexivity. }
  destruct Hinv as [Hm Hc]. destruct (Hc st e Hst He) as [Hkeys [ep Hep]].
  assert (steps s !! make_key e (stepCount st) = None) as Hfree.
  { apply eq_None_not_Some. unfold s. rewrite Hkeys. lia. }
  exists e, r, t. split; [done|]. split; [done|].
  split; [by rewrite <- Hs'|]. split; [done|].
  split.
  { intros k r0 Hk. rewrite <- Hs'. simpl. rewrite lookup_insert_ne; [done|].
    intros <-. by rewrite Hfree in Hk. }
  split; [by rewrite <- Hs'|]. split.
  { rewrite Hts. done. }
  assert (settings_of s' = Some (with_message st true (stepCount st + 1)
                                   (recorded_message (stepCount st))))
    as Hst' by (by rewrite <- Hs').
  assert (active_episode (Some (with_message st true (stepCount st + 1)
                                  (recorded_message (stepCount st))))
          = Some e) as He' by done.
  assert (idbGetStepsForEpisode e (steps s')
          = (idbGetStepsForEpisode e (steps s) ++ [r])%list) as Hrows.
  { apply list_eq. intros i.
    rewrite (nth_row s' _ e i Hinv' Hst' He').
    rewrite <- Hs' at 1. cbn [steps]. rewrite lookup_insert.
    pose proof (nth_row s st e i (conj Hm Hc) Hst He) as Hi.
    assert (length (idbGetStepsForEpisode e (steps s)) = stepCount st)
      as Hlen.
    { rewrite <- (length_fmap step_number).
      rewrite (rows_of_numbers s st e (conj Hm Hc) Hst He).
      apply length_seq. }
    case_decide as Hk.
    - apply make_key_inj in Hk as [_ <-].
      rewrite lookup_app_r by lia. rewrite Hlen, Nat.sub_diag. done.
    - assert (i ≠ stepCount st) by congruence.
      destruct (decide (i < stepCount st)%nat).
      + rewrite lookup_app_l by lia. done.
      + rewrite lookup_app_r by lia. fold s.
        rewrite <- Hi. rewrite lookup_ge_None_2 by lia.
        symmetry. apply lookup_ge_None_2. simpl. lia. }
  assert (length (idbGetStepsForEpisode e (steps s)) = stepCount st) as Hlen.
  { rewrite <- (length_fmap step_number).
    rewrite (rows_of_numbers s st e (conj Hm Hc) Hst He).
    apply length_seq. }
  eexists _, _. split_and!.
  - rewrite (run_export w' s st e ep Hst He Hep), Hlen. reflexivity.
  - rewrite (run_export w' s' _ e ep Hst' He'); [|by rewrite <- Hs'].
    rewrite Hrows, length_app, Hlen. reflexivity.
  - simpl. by rewrite map_app.
Qed.

Lemma X26_witness :
  ∃ r, steps (sys_store after_click)
       = <[make_key "A" 0 := r]> (steps (sys_store recording))
       ∧ post (step r) = None.
Proof.
  destruct (X26_event_recorded recording (world "s1") (world "") 6
              click_event
              (default blank_settings (settings_of (sys_store recording)))
              sample_tab recording_reachable eq_refl eq_refl eq_refl)
    as (e & r & t & He & _ & Hsteps & (_ & _ & Hpost) & _).
  vm_compute in He. injection He as <-.
  exists r. split; [exact Hsteps|exact Hpost].
Defined.
(** ** Start *)

(** X27.  A start request with an identifier that no stored record
    carries opens an empty episode: it is answered with the identifier,
    zero steps and the message of success; afterwards the settings say
    recording, name the new episode, count zero steps and carry the
    start time; an option that the request gives replaces the stored one
    and an option that it leaves out keeps its stored value; the status
    message is the message of success or, when the injection failed, the
    warning with the error.  No row is touched and no other episode
    record changes, so an episode that was being recorded stays in the
    store, but the export that follows is the new episode with no
    steps. *)
Theorem X27_start_new_episode (w w' : env) (opts : option options)
    (s : store) :
  fresh_uuid (env_uuid w) s →
  let s' := exec (onMessage w (RECORDER_START opts)) s in
  let old := default blank_settings (settings_of s) in
  (run (onMessage w (RECORDER_START opts)) s).1.1
  = inl (Some (RStarted (env_uuid w) 0 started_message))
  ∧ (run (onMessage w (RECORDER_START opts)) s).2 = []
  ∧ steps s' = steps s
  ∧ (∀ e, e ≠ env_uuid w → episodes s' !! e = episodes s !! e)
  ∧ (∃ st', settings_of s' = Some st'
       ∧ isRecording st' = true
       ∧ active_episode (Some st') = Some (env_uuid w)
       ∧ stepCount st' = 0 ∧ startedAt st' = Some (env_now w)
       ∧ captureScreenshots (options_of st')
         = match opts ≫= captureScreenshots with
           | Some v => Some v
           | None => captureScreenshots (options_of old)
           end
       ∧ captureDomState (options_of st')
         = match opts ≫= captureDomState with
           | Some v => Some v
           | None => captureDomState (options_of old)
           end
       ∧ (lastMessage st' = started_message
          ∨ ∃ tabId err, env_active_tab w = Some (S tabId)
                         ∧ env_injected w = InjectFailed err
                         ∧ lastMessage st' = inject_warning err))
  ∧ ∃ out,
      run (onMessage w' RECORDER_EXPORT) s'
      = (inl (Some (RExport out (env_uuid w) 0 "Exported.")), s', [])
      ∧ out_steps out = [] ∧ out_episode_id out = env_uuid w
      ∧ out_created_at out = env_now_iso w.
Proof.
  intros (Hne & _ & Hrows) s' old.
  assert (truthy (env_uuid w) = true) as Htr by (by apply truthy_true).
  assert (idbGetStepsForEpisode (env_uuid w) (steps s) = []) as Hnone.
  { apply elem_of_nil_inv.
    intros r [[k Hk] He]%elem_of_idbGetStepsForEpisode. by eapply Hrows. }
  assert (∀ m,
    s' = {| episodes :=
              <[env_uuid w :=
                  {| episode_id := env_uuid w; created_at := env_now_iso w;
                     browser_name := "chromium";
                     origin_type := "extension_mvp";
                     origin_build := "0.1.0" |}]> (episodes s);
            steps := steps s;
            settings_of :=
              Some {| isRecording := true; episodeId := Some (env_uuid w);
                      startedAt := Some (env_now w); stepCount := 0;
                      lastMessage := m;
                      options_of :=
                        merge_options
                          (from_option options_of empty_options
                             (settings_of s))
                          (default empty_options opts) |} |} →
    (steps s' = steps s
     ∧ (∀ e, e ≠ env_uuid w → episodes s' !! e = episodes s !! e)
     ∧ (∃ st', settings_of s' = Some st'
          ∧ isRecording st' = true
          ∧ active_episode (Some st') = Some (env_uuid w)
          ∧ stepCount st' = 0 ∧ startedAt st' = Some (env_now w)
          ∧ captureScreenshots (options_of st')
            = match opts ≫= captureScreenshots with
              | Some v => Some v
              | None => captureScreenshots (options_of old)
              end
          ∧ captureDomState (options_of st')
            = match opts ≫= captureDomState with
              | Some v => Some v
              | None => captureDomState (options_of old)
              end
          ∧ lastMessage st' = m)
     ∧ ∃ out,
         run (onMessage w' RECORDER_EXPORT) s'
         = (inl (Some (RExport out (env_uuid w) 0 "Exported.")), s', [])
         ∧ out_steps out = [] ∧ out_episode_id out = env_uuid w
         ∧ out_created_at out = env_now_iso w)) as Hshape.
  { intros m ->. split_and!.
    - done.
    - intros e He. simpl. by rewrite lookup_insert_ne.
    - eexists. split; [done|]. simpl. rewrite Htr.
      unfold old. destruct (settings_of s) as [st|], opts as [o|]; simpl;
        split_and!; done.
    - eexists. split.
      + erewrite run_export; [| done | by simpl; rewrite Htr
                               | by simpl; apply lookup_insert_eq].
        simpl. rewrite Hnone. reflexivity.
      + done. }
  unfold s', exec, onMessage, startRecording in *. simpl in *.
  destruct (env_active_tab w) as [[|tabId]|] eqn:Htab; simpl in *.
  - destruct (Hshape _ eq_refl) as (H1 & H2 & (st' & H3) & H4).
    split_and!; try done. exists st'. intuition auto.
  - destruct (Hshape _ eq_refl) as (H1 & H2 & (st' & H3) & H4).
    split_and!; try done. exists st'.
    destruct H3 as (? & ? & ? & ? & ? & ? & ? & Hm). split_and!; try done.
    destruct (env_injected w) as [|err] eqn:Hinj; [by left|].
    right. by exists tabId, err.
  - destruct (Hshape _ eq_refl) as (H1 & H2 & (st' & H3) & H4).
    split_and!; try done. exists st'. intuition auto.
Qed.

Lemma X27_witness :
  ∃ out,
    run (onMessage (world "") RECORDER_EXPORT)
        (exec (onMessage (world "B") (RECORDER_START None))
           (sys_store after_key))
    = (inl (Some (RExport out "B" 0 "Exported.")),
       exec (onMessage (world "B") (RECORDER_START None))
         (sys_store after_key), [])
    ∧ out_steps out = []
    ∧ size (steps (exec (onMessage (world "B") (RECORDER_START None))
                     (sys_store after_key))) = 2.
Proof.
  assert (fresh_uuid "B" (sys_store after_key)) as Hfresh.
  { split_and!; [done|reflexivity|].
    intros k r Hk%elem_of_map_to_list.
    assert (Forall (λ kr : string * row, row_episode_id kr.2 ≠ "B")
              (map_to_list (steps (sys_store after_key)))) as Hall.
    { vm_compute. repeat constructor; discriminate. }
    rewrite Forall_forall in Hall. by apply (Hall _ Hk). }
  destruct (X27_start_new_episode (world "B") (world "") None
              (sys_store after_key) Hfresh)
    as (_ & _ & Hsteps & _ & _ & (out & Hrun & Hout & _)).
  exists out. split_and!; [exact Hrun|exact Hout|].
  rewrite Hsteps. reflexivity.
Defined.
(** ** Screenshots *)

Lemma includes_comma (s : string) :
  Js.includes s "," = false ↔ after_comma s = None.
Proof.
  induction s as [|c s IH]; [done|].
  cbn [Js.includes String.prefix after_comma].
  destruct (Ascii.ascii_dec "," c) as [<-|Hne]; simpl.
  - destruct s; simpl; split; discriminate.
  - destruct (Ascii.eqb_spec c ","); [congruence|]. exact IH.
Qed.

Lemma after_comma_app p q :
  after_comma p = None → after_comma (p +:+ "," +:+ q) = Some q.
Proof.
  induction p as [|c p IH]; [done|]. simpl.
  destruct (Ascii.eqb c ","); [done|]. exact IH.
Qed.

Lemma before_comma_split (s : string) :
  after_comma (before_comma s) = None
  ∧ ∃ rest, s = before_comma s +:+ rest
            ∧ (rest = "" ∨ ∃ r, rest = "," +:+ r).
Proof.
  induction s as [|c s (IH & rest & Hs & Hrest)]; simpl.
  { split; [done|]. exists "". by split; [|left]. }
  destruct (Ascii.eqb_spec c ",") as [->|Hne]; simpl.
  - split; [done|]. exists (String "," s). split; [done|]. right. by exists s.
  - destruct (Ascii.eqb_spec c ","); [done|]. split; [done|].
    exists rest. split; [|done].
    change (String c s = String c (before_comma s +:+ rest)). by f_equal.
Qed.

Lemma before_comma_id (s : string) : after_comma s = None → before_comma s = s.
Proof.
  induction s as [|c s IH]; [done|]. simpl.
  destruct (Ascii.eqb c ","); [done|]. intros H. by rewrite IH.
Qed.

(** X28.  The base64 field of a screenshot is the data URL without its
    prefix: for a data URL made of a prefix without comma, a comma and a
    rest, it is the rest up to the next comma, so the whole rest when
    that has no comma, and it never holds a comma; a data URL without
    comma is taken as it is.  In the stored fields an empty base64 text
    is null, the data URL is kept whole and no error is set; a failed
    capture gives neither of the two and its error when that is not
    empty. *)
Theorem X28_screenshot_payload (p q : string) :
  Js.includes p "," = false →
  let dataUrl := p +:+ "," +:+ q in
  strip_prefix p = p
  ∧ (∃ rest, q = strip_prefix dataUrl +:+ rest
             ∧ (rest = "" ∨ ∃ r, rest = "," +:+ r))
  ∧ Js.includes (strip_prefix dataUrl) "," = false
  ∧ (Js.includes q "," = false → strip_prefix dataUrl = q)
  ∧ shot_fields (captureScreenshotForActiveWindow (inr dataUrl))
    = {| screenshot := truthy_opt (strip_prefix dataUrl);
         screenshot_data_url := Some dataUrl;
         screenshot_error := None |}
  ∧ (∀ e, shot_fields (captureScreenshotForActiveWindow (inl e))
          = {| screenshot := None; screenshot_data_url := None;
               screenshot_error := truthy_opt e |}).
Proof.
  intros Hp%includes_comma dataUrl.
  assert (strip_prefix dataUrl = before_comma q) as Hstrip.
  { unfold strip_prefix, dataUrl. by rewrite after_comma_app. }
  destruct (before_comma_split q) as (Hfree & rest & Hq & Hrest).
  split_and!.
  - unfold strip_prefix. by rewrite Hp.
  - rewrite Hstrip. by exists rest.
  - rewrite Hstrip. by apply includes_comma.
  - intros Hq'%includes_comma. rewrite Hstrip. by apply before_comma_id.
  - simpl. f_equal. unfold truthy_opt.
    assert (truthy dataUrl = true) as ->; [|done].
    apply truthy_true. unfold dataUrl. by destruct p.
  - done.
Qed.

Lemma X28_witness :
  strip_prefix "data:image/png;base64,iVBORw0KGgo=" = "iVBORw0KGgo=".
Proof.
  by destruct (X28_screenshot_payload "data:image/png;base64" "iVBORw0KGgo="
                 eq_refl) as (_ & _ & _ & -> & _).
Defined.
(** ** The post state, from the page to the row *)

(** X29.  The page answers a request for the post state whether the
    recorder is enabled in it or not, and without changing its own state.
    The observation it sends has no interacted element; it lists at most
    60 elements when the listing is asked for and is the empty listing
    otherwise; it carries the URL only in the top frame.  Asked with the
    option captureDomState of the settings, as the worker does, and laid
    under the tab's data, it gives a post state with this very listing,
    the scroll position of the page and the frame's address; the URL of
    the post state is the frame's address when the tab reports none and
    the frame is the top frame. *)
Theorem X29_post_state_request (doc : document) (cs : capture_state)
    (st : settings) (tab : tab_info) (tabId : nat)
    (sh : option screenshot_fields) :
  let wanted := flag (captureDomState (options_of st)) in
  ∃ o,
    ContentRest.onPageMessage doc cs (ContentRest.RECORDER_CAPTURE_POST wanted)
    = (cs, Some (ContentRest.ReplyPost o))
    ∧ interacted_element (obs_dom_state o) = None
    ∧ (elements_count (obs_dom_state o) ≤ 60)%nat
    ∧ obs_dom_state o
      = (if wanted then listInteractables doc 60 else empty_dom_state)
    ∧ (obs_url o = None ↔ is_top_frame doc = false)
    ∧ (let po := make_observation st tab tabId (Some o) sh in
       bo_dom_state po = obs_dom_state o
       ∧ scroll_of po = Some (scroll_y doc)
       ∧ bo_frame_url po = Some (location_href doc)
       ∧ (tab_url tab = "" → is_top_frame doc = true →
            bo_url po = location_href doc)
       ∧ (tab_url tab = "" → is_top_frame doc = false → bo_url po = "")).
Proof.
  intros wanted. eexists. split; [reflexivity|].
  assert (elements_count (listInteractables doc 60) ≤ 60)%nat as Hcount.
  { unfold listInteractables.
    destruct (render 0 (ranked doc 60)) as [m lines].
    cbn [elements_count]. unfold ranked, rank_and_trim.
    rewrite length_take. lia. }
  assert (interacted_element (listInteractables doc 60) = None) as Hnone.
  { unfold listInteractables. by destruct (render 0 (ranked doc 60)). }
  unfold buildStateSummary.
  cbn [obs_dom_state obs_url make_observation bo_dom_state bo_url
       bo_frame_url scroll_of bo_page_info fmap option_fmap option_map
       obs_page_info pi_scroll_y obs_frame_url mbind option_bind].
  split_and!.
  - by destruct wanted.
  - destruct wanted; [done|]. cbn [empty_dom_state elements_count]. lia.
  - done.
  - by destruct (is_top_frame doc).
  - unfold wanted. by destruct (flag (captureDomState (options_of st))).
  - done.
  - done.
  - intros -> ->. done.
  - intros -> ->. done.
Qed.

End BackgroundRestProps.
